(** * ADBoverNodeJs: the text parsers, the command runner and the log relay

    A shallow embedding of [parseDevicesList], [parsePackageList],
    [parseDumpsysPackage], [adbCmd] and the [/api/logcat] data handlers of
    the server, over a small model of the JavaScript run time they use:
    strings as sequences of UTF-16 code units, a backtracking matcher for the
    regular expressions of the program, [String.prototype.split], [match],
    [test], [trim], and ordinary objects as ordered property lists. *)

From Stdlib Require Import String Ascii List NArith ZArith Arith Bool Lia.
Import ListNotations.

Set Implicit Arguments.

(** ** Outcomes of a computation *)

(** A JavaScript call either returns, or throws; the loops of the built-ins
    that jump ahead in the subject string are modelled with fuel. *)
Inductive result (A : Type) : Type :=
| Ok (a : A)
| Throw (msg : string)
| OutOfFuel.

Arguments Ok {A} a.
Arguments Throw {A} msg.
Arguments OutOfFuel {A}.

Definition bind {A B : Type} (c : result A) (f : A -> result B) : result B :=
  match c with
  | Ok a => f a
  | Throw msg => Throw msg
  | OutOfFuel => OutOfFuel
  end.

Notation "x <- c ;; k" := (bind c (fun x => k))
  (at level 61, c at next level, right associativity).

(** [for (const x of xs) body], the loop state threaded through. *)
Fixpoint for_of {A S : Type} (xs : list A) (body : A -> S -> result S) (s : S)
  : result S :=
  match xs with
  | [] => Ok s
  | x :: xs' => s' <- body x s ;; for_of xs' body s'
  end.

(** ** Strings *)

Module JsString.

(** A code unit of a JavaScript string. *)
Definition char : Type := N.
Definition jsstring : Type := list char.

Definition js (s : string) : jsstring :=
  List.map N_of_ascii (list_ascii_of_string s).

Definition LF : char := 10%N.
Definition CR : char := 13%N.
Definition TAB : char := 9%N.
Definition SP : char := 32%N.
Definition COLON : char := 58%N.

(** LineTerminator: LF, CR, LS, PS. *)
Definition is_line_terminator (c : char) : bool :=
  ((c =? 10) || (c =? 13) || (c =? 0x2028) || (c =? 0x2029))%N.

(** WhiteSpace: TAB, VT, FF, SP, NBSP, ZWNBSP and the space separators. *)
Definition is_white_space (c : char) : bool :=
  ((c =? 9) || (c =? 11) || (c =? 12) || (c =? 32) || (c =? 160)
   || (c =? 0xFEFF) || (c =? 0x1680) || ((0x2000 <=? c) && (c <=? 0x200A))
   || (c =? 0x202F) || (c =? 0x205F) || (c =? 0x3000))%N.

(** The class [\s], also what [trim] strips. *)
Definition is_space (c : char) : bool :=
  is_white_space c || is_line_terminator c.

(** The class [\d]. *)
Definition is_digit (c : char) : bool := ((48 <=? c) && (c <=? 57))%N.

(** The class [\w]. *)
Definition is_word (c : char) : bool :=
  (is_digit c || ((65 <=? c) && (c <=? 90)) || ((97 <=? c) && (c <=? 122))
   || (c =? 95))%N.

(** The atom [.] (no [s] flag). *)
Definition is_dot (c : char) : bool := negb (is_line_terminator c).

(** The class [[\s\S]]. *)
Definition is_any (c : char) : bool := is_space c || negb (is_space c).

Definition str_eqb (a b : jsstring) : bool :=
  if list_eq_dec N.eq_dec a b then true else false.

(** ToBoolean on a string. *)
Definition truthy (s : jsstring) : bool :=
  match s with [] => false | _ :: _ => true end.

(** ToBoolean on a value that is a string or [undefined]. *)
Definition truthy_opt (v : option jsstring) : bool :=
  match v with Some s => truthy s | None => false end.

Fixpoint dropWhile (p : char -> bool) (s : jsstring) : jsstring :=
  match s with
  | [] => []
  | c :: s' => if p c then dropWhile p s' else s
  end.

(** [s.trim()]. *)
Definition trim (s : jsstring) : jsstring :=
  rev (dropWhile is_space (rev (dropWhile is_space s))).

(** [s.startsWith(p)]. *)
Fixpoint startsWith (s p : jsstring) {struct p} : bool :=
  match p with
  | [] => true
  | a :: p' =>
      match s with
      | [] => false
      | b :: s' => (a =? b)%N && startsWith s' p'
      end
  end.

(** [s.includes(p)]. *)
Fixpoint includes (s p : jsstring) : bool :=
  startsWith s p || match s with [] => false | _ :: s' => includes s' p end.

(** [s.split(c)] for a separator of one code unit. *)
Fixpoint split_chr_aux (sep : char) (acc : jsstring) (s : jsstring)
  : list jsstring :=
  match s with
  | [] => [rev acc]
  | c :: s' =>
      if (c =? sep)%N then rev acc :: split_chr_aux sep [] s'
      else split_chr_aux sep (c :: acc) s'
  end.

Definition split_chr (sep : char) (s : jsstring) : list jsstring :=
  split_chr_aux sep [] s.

(** [a.join(sep)]. *)
Fixpoint join (sep : jsstring) (a : list jsstring) : jsstring :=
  match a with
  | [] => []
  | [x] => x
  | x :: a' => x ++ sep ++ join sep a'
  end.

End JsString.
Import JsString.

(** ** Regular expressions *)

Module Regex.

(** The patterns of the program: literals, classes, sequence, alternation,
    greedy and lazy repetition, capture groups and the two anchors (no
    [m] flag anywhere, so [^] and [$] are the ends of the subject; no [i],
    [u] or [s] flag either). No group of the program stands under a
    repetition, so captures are never cleared between rounds. *)
Inductive regex : Type :=
| Empty
| Chr (c : char)
| Class (p : char -> bool)
| Seq (a b : regex)
| Alt (a b : regex)
| Star (greedy : bool) (a : regex)
| Group (n : nat) (a : regex)
| Bol
| Eol.

Definition Lit (s : jsstring) : regex :=
  fold_right (fun c r => Seq (Chr c) r) Empty s.

(** [a+] and [a+?]. *)
Definition Plus (greedy : bool) (a : regex) : regex := Seq a (Star greedy a).

(** [a?]. *)
Definition Opt (a : regex) : regex := Alt a Empty.

(** The state of a match: the index reached, the text still ahead and the
    captures made so far. *)
Record mstate : Type := MState {
  pos : nat;
  rest : jsstring;
  caps : list (nat * jsstring)
}.

Definition advance (x : mstate) (t : jsstring) : mstate :=
  {| pos := S (pos x); rest := t; caps := caps x |}.

Definition set_cap (n : nat) (s : jsstring) (y : mstate) : mstate :=
  {| pos := pos y; rest := rest y; caps := (n, s) :: caps y |}.

Fixpoint get_cap (n : nat) (cs : list (nat * jsstring)) : option jsstring :=
  match cs with
  | [] => None
  | (i, s) :: cs' => if Nat.eqb i n then Some s else get_cap n cs'
  end.

Definition is_some {A : Type} (o : option A) : bool :=
  match o with Some _ => true | None => false end.

Definition orelse {A : Type} (a : option A) (b : unit -> option A) : option A :=
  match a with Some z => Some z | None => b tt end.

(** One repetition [a*] or [a*?], [ma] the matcher of [a]. An iteration
    that consumes nothing is rejected, as in the language definition; an
    iteration therefore shortens [rest], and [fuel] bounds the rounds. *)
Fixpoint star_rep (ma : mstate -> (mstate -> option mstate) -> option mstate)
  (greedy : bool) (k : mstate -> option mstate) (fuel : nat) (x : mstate)
  {struct fuel} : option mstate :=
  match fuel with
  | O => None
  | S fuel' =>
      let again (_ : unit) :=
        ma x (fun y =>
          if length (rest y) <? length (rest x)
          then star_rep ma greedy k fuel' y
          else None) in
      if greedy then orelse (again tt) (fun _ => k x)
      else orelse (k x) again
  end.

(** The backtracking matcher, in continuation-passing style as in the
    language definition: [m r x k] matches [r] at [x] and hands every
    candidate end state to [k], in priority order, until [k] accepts one.
    A repetition never needs more rounds than there are code units ahead,
    plus one. *)
Fixpoint m (r : regex) (x : mstate) (k : mstate -> option mstate) {struct r}
  : option mstate :=
  match r with
  | Empty => k x
  | Chr c =>
      match rest x with
      | d :: t => if (c =? d)%N then k (advance x t) else None
      | [] => None
      end
  | Class p =>
      match rest x with
      | d :: t => if p d then k (advance x t) else None
      | [] => None
      end
  | Seq a b => m a x (fun y => m b y k)
  | Alt a b => orelse (m a x k) (fun _ => m b x k)
  | Star greedy a => star_rep (m a) greedy k (S (length (rest x))) x
  | Group n a =>
      m a x (fun y => k (set_cap n (firstn (pos y - pos x) (rest x)) y))
  | Bol => if pos x =? 0 then k x else None
  | Eol => match rest x with [] => k x | _ :: _ => None end
  end.

(** A match anchored at index [i], the text from [i] on being [s]. *)
Definition sticky (r : regex) (i : nat) (s : jsstring) : option mstate :=
  m r {| pos := i; rest := s; caps := [] |} Some.

(** The number of capture groups of a pattern. *)
Fixpoint ngroups (r : regex) : nat :=
  match r with
  | Seq a b | Alt a b => ngroups a + ngroups b
  | Star _ a => ngroups a
  | Group _ a => S (ngroups a)
  | _ => 0
  end.

(** [re.exec(s)] for a pattern without [g] or [y]: the leftmost index at
    which the pattern matches, with the end state reached there. *)
Fixpoint scan (r : regex) (i : nat) (s : jsstring) : option (nat * jsstring * mstate) :=
  match sticky r i s with
  | Some y => Some (i, firstn (pos y - i) s, y)
  | None =>
      match s with
      | [] => None
      | _ :: s' => scan r (S i) s'
      end
  end.

(** The array [s.match(re)] returns: the matched text, then one entry per
    group, [undefined] for a group that took no part. *)
Definition match_array : Type := list (option jsstring).

Definition str_match (s : jsstring) (r : regex) : option match_array :=
  match scan r 0 s with
  | Some (_, whole, y) =>
      Some (Some whole :: List.map (fun n => get_cap n (caps y)) (seq 1 (ngroups r)))
  | None => None
  end.

(** [re.test(s)]. *)
Definition test (r : regex) (s : jsstring) : bool :=
  match scan r 0 s with Some _ => true | None => false end.

(** [s.split(re)]: the loop of the language definition. [piece] holds, in
    reverse, the code units between the end [p] of the last separator and
    the index [q]; a match at [q] that ends at [p] is not a separator. *)
Fixpoint split_loop (r : regex) (fuel : nat) (q : nat) (piece : jsstring)
  (s : jsstring) : result (list jsstring) :=
  match fuel with
  | O => OutOfFuel
  | S fuel' =>
      match s with
      | [] => Ok [rev piece]
      | c :: s' =>
          match sticky r q s with
          | None => split_loop r fuel' (S q) (c :: piece) s'
          | Some e =>
              if pos e =? q - length piece
              then split_loop r fuel' (S q) (c :: piece) s'
              else
                tl <- split_loop r fuel' (pos e) [] (rest e) ;;
                Ok (rev piece :: tl)
          end
      end
  end.

Definition split_re (s : jsstring) (r : regex) : result (list jsstring) :=
  match s with
  | [] => match sticky r 0 [] with Some _ => Ok [] | None => Ok [[]] end
  | _ :: _ => split_loop r (2 * length s + 2) 0 [] s
  end.

(** [s.replace(re, by)] for a pattern with the [g] flag and a replacement
    text without [$]. *)
Fixpoint replace_loop (r : regex) (by_ : jsstring) (fuel : nat) (q : nat)
  (s : jsstring) : result jsstring :=
  match fuel with
  | O => OutOfFuel
  | S fuel' =>
      match sticky r q s with
      | Some e =>
          if pos e =? q then
            match s with
            | [] => Ok by_
            | c :: s' =>
                tl <- replace_loop r by_ fuel' (S q) s' ;; Ok (by_ ++ c :: tl)
            end
          else
            tl <- replace_loop r by_ fuel' (pos e) (rest e) ;; Ok (by_ ++ tl)
      | None =>
          match s with
          | [] => Ok []
          | c :: s' => tl <- replace_loop r by_ fuel' (S q) s' ;; Ok (c :: tl)
          end
      end
  end.

Definition replace_all (s : jsstring) (r : regex) (by_ : jsstring)
  : result jsstring :=
  replace_loop r by_ (S (length s)) 0 s.

End Regex.
Import Regex.

(** ** Objects *)

Module JsObject.

(** An ordinary object with string keys: its own properties, in the order
    they were created. *)
Definition obj (V : Type) : Type := list (jsstring * V).

Definition PROTO : jsstring := js "__proto__".

Fixpoint obj_get {V : Type} (k : jsstring) (o : obj V) : option V :=
  match o with
  | [] => None
  | (k', v) :: o' => if str_eqb k k' then Some v else obj_get k o'
  end.

Definition obj_has {V : Type} (k : jsstring) (o : obj V) : bool :=
  match obj_get k o with Some _ => true | None => false end.

Fixpoint obj_update {V : Type} (k : jsstring) (v : V) (o : obj V) : obj V :=
  match o with
  | [] => []
  | (k', v') :: o' =>
      if str_eqb k k' then (k', v) :: o' else (k', v') :: obj_update k v o'
  end.

(** [o[k] = v] on an object made by a literal, [v] a string: an own
    property keeps its place and takes the new value, a new key is added
    last, and [__proto__] is the inherited setter, which ignores a value
    that is neither an object nor [null]. *)
Definition obj_set {V : Type} (k : jsstring) (v : V) (o : obj V) : obj V :=
  if str_eqb k PROTO then o
  else if obj_has k o then obj_update k v o
  else o ++ [(k, v)].

Fixpoint digits_value (acc : N) (s : jsstring) : option N :=
  match s with
  | [] => Some acc
  | c :: s' =>
      if is_digit c then digits_value (acc * 10 + (c - 48))%N s' else None
  end.

(** The keys that are array indices: canonical decimal numerals below
    [2^32 - 1]. *)
Definition array_index (k : jsstring) : option N :=
  match k with
  | [] => None
  | c :: k' =>
      if (c =? 48)%N && truthy k' then None
      else
        match digits_value 0%N k with
        | Some n => if (n <? 4294967295)%N then Some n else None
        | None => None
        end
  end.

Fixpoint insert_index {V : Type} (e : N * (jsstring * V))
  (l : list (N * (jsstring * V))) : list (N * (jsstring * V)) :=
  match l with
  | [] => [e]
  | e' :: l' => if (fst e <=? fst e')%N then e :: l else e' :: insert_index e l'
  end.

Fixpoint index_entries {V : Type} (o : obj V) : list (N * (jsstring * V)) :=
  match o with
  | [] => []
  | (k, v) :: o' =>
      match array_index k with
      | Some n => insert_index (n, (k, v)) (index_entries o')
      | None => index_entries o'
      end
  end.

Definition is_index (k : jsstring) : bool :=
  match array_index k with Some _ => true | None => false end.

(** [Object.entries(o)], the order in which the properties are listed and
    serialised: array indices ascending, then the other keys in creation
    order. *)
Definition entries {V : Type} (o : obj V) : list (jsstring * V) :=
  List.map snd (index_entries o)
  ++ filter (fun kv => negb (is_index (fst kv))) o.

(** ToPropertyKey on a value that is a string or [undefined]. *)
Definition to_key (k : option jsstring) : jsstring :=
  match k with Some s => s | None => js "undefined" end.

End JsObject.
Import JsObject.

(** ** The program *)

(** The patterns, as written in the source. *)

(** [/\r?\n/] *)
Definition re_newline : regex := Seq (Opt (Chr CR)) (Chr LF).

(** [/\s+/] *)
Definition re_spaces : regex := Plus true (Class is_space).

(** The class [[\w.]]. *)
Definition package_char (c : char) : bool := is_word c || (c =? 46)%N.

(** [/^package:([\w.]+)(?:=.* )?$/], without the blank. *)
Definition re_package : regex :=
  Seq Bol
   (Seq (Lit (js "package:"))
     (Seq (Group 1 (Plus true (Class package_char)))
       (Seq (Opt (Seq (Chr 61%N) (Star true (Class is_dot))))
         Eol))).

(** The class [[\w.\-+]]. *)
Definition version_char (c : char) : bool :=
  is_word c || (c =? 46)%N || (c =? 45)%N || (c =? 43)%N.

(** A label followed by a captured run of a class: [/label([class]+)/]. *)
Definition label_re (label : jsstring) (cls : char -> bool) : regex :=
  Seq (Lit label) (Group 1 (Plus true (Class cls))).

(** [/versionName=([\w.\-+]+)/] *)
Definition re_versionName : regex := label_re (js "versionName=") version_char.

(** [/versionCode=(\d+)/], [/appId=(\d+)/], [/userId=(\d+)/] *)
Definition re_versionCode : regex := label_re (js "versionCode=") is_digit.
Definition re_appId : regex := label_re (js "appId=") is_digit.
Definition re_userId : regex := label_re (js "userId=") is_digit.

(** [/enabled=true|pkgFlags=\[.*?HAS_CODE.*?\]/] *)
Definition re_enabled_true : regex :=
  Alt (Lit (js "enabled=true"))
    (Seq (Lit (js "pkgFlags=["))
      (Seq (Star false (Class is_dot))
        (Seq (Lit (js "HAS_CODE"))
          (Seq (Star false (Class is_dot))
            (Chr 93%N))))).

(** [/enabled=false/] *)
Definition re_enabled_false : regex := Lit (js "enabled=false").

(** [/requested permissions:\s*([\s\S]*?)\n\n/] and
    [/grantedPermissions:\s*([\s\S]*?)\n\n/] *)
Definition re_section (header : jsstring) : regex :=
  Seq (Lit header)
    (Seq (Star true (Class is_space))
      (Seq (Group 1 (Star false (Class is_any)))
        (Lit [LF; LF]))).

Definition requested_header : jsstring := js "requested permissions:".
Definition granted_header : jsstring := js "grantedPermissions:".

Definition re_requested : regex := re_section requested_header.
Definition re_granted : regex := re_section granted_header.

(** [a[i]] on the array of a match, or on [[]]. *)
Definition arr_get (a : match_array) (i : nat) : option jsstring :=
  match nth_error a i with Some v => v | None => None end.

(** [x.split(re)] where [x] may be [undefined]. *)
Definition member_split (x : option jsstring) (r : regex)
  : result (list jsstring) :=
  match x with
  | Some s => split_re s r
  | None => Throw "TypeError: Cannot read properties of undefined (reading 'split')"
  end.

(** *** The command runner *)

Inductive jsval : Type :=
| VUndefined
| VNull
| VBool (b : bool)
| VNum (z : Z)
| VStr (s : jsstring).

Definition val_truthy (v : jsval) : bool :=
  match v with
  | VUndefined | VNull => false
  | VBool b => b
  | VNum z => negb (z =? 0)%Z
  | VStr s => truthy s
  end.

(** What [execa] hands back when the process ran and exited with code 0:
    among others, its two captured outputs and the exit code. *)
Record execa_result : Type := ExecaResult {
  res_stdout : jsstring;
  res_stderr : jsstring;
  res_exitCode : Z
}.

(** The error [execa] rejects with otherwise. *)
Record execa_error : Type := ExecaError {
  err_shortMessage : jsval;
  err_message : jsval;
  err_exitCode : jsval;
  err_stdout : jsval;
  err_stderr : jsval
}.

Inductive execa_outcome : Type :=
| Resolved (r : execa_result)
| Rejected (e : execa_error).

(** [adbCmd(args, opts)], given how the [execa] call it awaits ended. *)
Definition adbCmd (outcome : execa_outcome) : obj jsval :=
  match outcome with
  | Resolved r =>
      [(js "ok", VBool true); (js "stdout", VStr (res_stdout r))]
  | Rejected e =>
      [(js "ok", VBool false);
       (js "error",
         if val_truthy (err_shortMessage e) then err_shortMessage e
         else err_message e);
       (js "code", err_exitCode e);
       (js "stdout", err_stdout e);
       (js "stderr", err_stderr e)]
  end.

(** [r.field] on the object [adbCmd] returned. *)
Definition field (o : obj jsval) (k : jsstring) : jsval :=
  match obj_get k o with Some v => v | None => VUndefined end.

(** *** The device list *)

Definition devices_header : jsstring := js "List of devices attached".

(** The body of the inner loop: [const [k, v] = m.split(':'); if (v) info[k] = v]. *)
Definition add_token (tok : jsstring) (info : obj jsstring)
  : result (obj jsstring) :=
  let kv := split_chr COLON tok in
  let k := nth_error kv 0 in
  let v := nth_error kv 1 in
  match v with
  | Some v => if truthy v then Ok (obj_set (to_key k) v info) else Ok info
  | None => Ok info
  end.

(** The array [list] of the records found so far. *)
Definition device_list : Type := list (obj jsstring).

(** The body of the outer loop. *)
Definition device_line (l : jsstring) (list : device_list) : result device_list :=
  if startsWith l devices_header then Ok list
  else
    parts <- split_re l re_spaces ;;
    let serial := nth_error parts 0 in
    let state := nth_error parts 1 in
    let rest := skipn 2 parts in
    if negb (truthy_opt serial) || negb (truthy_opt state) then Ok list
    else
      match serial, state with
      | Some serial, Some state =>
          let info := [(js "serial", serial); (js "state", state)] in
          let infoStr := join [SP] rest in
          toks <- split_re infoStr re_spaces ;;
          info <- for_of toks add_token info ;;
          Ok (list ++ [info])
      | _, _ => Ok list
      end.

Definition parseDevicesList (text : jsstring) : result device_list :=
  parts <- split_re text re_newline ;;
  let lines := filter truthy (List.map trim parts) in
  for_of lines device_line [].

(** *** Packages *)

Record PackageRecord : Type := { package : option jsstring }.

Definition parsePackageList (text : jsstring) : result (list PackageRecord) :=
  lines <- split_re text re_newline ;;
  for_of lines
    (fun line out =>
       match str_match line re_package with
       | Some m_ => Ok (out ++ [{| package := arr_get m_ 1 |}])
       | None => Ok out
       end)
    [].

Record PackageDetails : Type := {
  versionName : jsstring;
  versionCode : jsstring;
  appId : jsstring;
  userId : jsstring;
  enabled : option bool;
  requested : list jsstring;
  granted : list jsstring
}.

(** [(text.match(re)||[])[1] || d] *)
Definition get (text : jsstring) (re : regex) (d : jsstring) : jsstring :=
  let a := match str_match text re with Some a => a | None => [] end in
  match arr_get a 1 with
  | Some s => if truthy s then s else d
  | None => d
  end.

Definition granted_true : jsstring := js "granted=true".

Definition parseDumpsysPackage (text : jsstring) : result PackageDetails :=
  let versionName := get text re_versionName [] in
  let versionCode := get text re_versionCode [] in
  let appId := get text re_appId [] in
  let userId := get text re_userId [] in
  let enabled :=
    if test re_enabled_true text then Some true
    else if test re_enabled_false text then Some false
    else None in
  requested <-
    match str_match text re_requested with
    | Some reqMatch =>
        ls <- member_split (arr_get reqMatch 1) re_newline ;;
        Ok (filter (fun s => truthy s && negb (includes s granted_true))
              (List.map trim ls))
    | None => Ok []
    end ;;
  granted <-
    match str_match text re_granted with
    | Some grMatch =>
        ls <- member_split (arr_get grMatch 1) re_newline ;;
        Ok (filter truthy (List.map trim ls))
    | None => Ok []
    end ;;
  Ok {| versionName := versionName; versionCode := versionCode;
        appId := appId; userId := userId; enabled := enabled;
        requested := requested; granted := granted |}.

(** *** The log relay *)

(** The response, as the sequence of chunks written to it. *)
Definition response : Type := list jsstring.

(** [send(line)]: one event per call. *)
Definition send (line : jsstring) (res : response) : result response :=
  data <- replace_all line re_newline [LF] ;;
  Ok (res ++ [js "data: " ++ data ++ [LF; LF]]).

Definition stderr_tag : jsstring := js "[stderr] ".

(** The ['data'] handler of [child.stdout]. *)
Definition on_stdout_data (chunk : jsstring) (res : response) : result response :=
  lines <- split_re chunk re_newline ;;
  for_of lines (fun ln res => if truthy ln then send ln res else Ok res) res.

(** The ['data'] handler of [child.stderr]. *)
Definition on_stderr_data (chunk : jsstring) (res : response) : result response :=
  lines <- split_re chunk re_newline ;;
  for_of lines
    (fun ln res => if truthy ln then send (stderr_tag ++ ln) res else Ok res)
    res.

(** What the event loop delivers while the relay streams, in arrival order. *)
Inductive arrival : Type :=
| StdoutData (chunk : jsstring)
| StderrData (chunk : jsstring).

Definition on_arrival (a : arrival) (res : response) : result response :=
  match a with
  | StdoutData chunk => on_stdout_data chunk res
  | StderrData chunk => on_stderr_data chunk res
  end.

Definition logcat (arrivals : list arrival) : result response :=
  for_of arrivals on_arrival [].

(** ** Direct forms of the matcher on the shapes the program uses *)

(** The state [n] code units further on. *)
Definition adv (n : nat) (x : mstate) : mstate :=
  {| pos := pos x + n; rest := skipn n (rest x); caps := caps x |}.

(** [y] is reached from [x] by consuming a prefix of [rest x] and adding
    captures. *)
Definition extends (x y : mstate) : Prop :=
  exists pre cs,
    rest x = pre ++ rest y /\ pos y = pos x + length pre /\ caps y = cs ++ caps x.

(** A greedy run of a class: the longest run first, then shorter ones. *)
Fixpoint greedy_cls (p : char -> bool) (k : mstate -> option mstate)
  (i : nat) (s : jsstring) (cs : list (nat * jsstring)) : option mstate :=
  match s with
  | c :: t =>
      if p c then
        orelse (greedy_cls p k (S i) t cs) (fun _ => k (MState i s cs))
      else k (MState i s cs)
  | [] => k (MState i [] cs)
  end.

(** A lazy run of a class: the empty run first, then longer ones. *)
Fixpoint lazy_cls (p : char -> bool) (k : mstate -> option mstate)
  (i : nat) (s : jsstring) (cs : list (nat * jsstring)) : option mstate :=
  match s with
  | c :: t =>
      orelse (k (MState i s cs))
        (fun _ => if p c then lazy_cls p k (S i) t cs else None)
  | [] => k (MState i [] cs)
  end.

Fixpoint takeWhile (p : char -> bool) (s : jsstring) : jsstring :=
  match s with
  | [] => []
  | c :: s' => if p c then c :: takeWhile p s' else []
  end.

(** ** Lines and fields, directly *)

(** The pieces of [s] between its line breaks, a line break being LF or CR
    LF; [piece] is the current piece, reversed. *)
Fixpoint lines_aux (piece : jsstring) (s : jsstring) : list jsstring :=
  match s with
  | [] => [rev piece]
  | c :: s' =>
      if (c =? LF)%N then rev piece :: lines_aux [] s'
      else
        match s' with
        | d :: s'' =>
            if (c =? CR)%N && (d =? LF)%N then rev piece :: lines_aux [] s''
            else lines_aux (c :: piece) s'
        | [] => lines_aux (c :: piece) s'
        end
  end.

Definition lines (s : jsstring) : list jsstring := lines_aux [] s.

(** The pieces of [s] between its runs of white space; [skipping] says
    that the previous code unit was white space. *)
Fixpoint fields_aux (skipping : bool) (piece : jsstring) (s : jsstring)
  : list jsstring :=
  match s with
  | [] => [rev piece]
  | c :: s' =>
      if is_space c then
        if skipping then fields_aux true piece s'
        else rev piece :: fields_aux true [] s'
      else fields_aux false (c :: piece) s'
  end.

Definition fields (s : jsstring) : list jsstring := fields_aux false [] s.

(** ** The device list, step by step *)

(** What one tail token does to the record: split at the colons, and when
    the second piece is there and not empty, set the field named by the
    first piece. *)
Definition set_token (info : obj jsstring) (tok : jsstring) : obj jsstring :=
  match split_chr COLON tok with
  | k :: v :: _ => if truthy v then obj_set k v info else info
  | _ => info
  end.

(** The record of one trimmed line: its first two fields, then the tail
    tokens applied in order; none when the line has fewer than two fields. *)
Definition record_of_line (l : jsstring) : option (obj jsstring) :=
  match fields l with
  | serial :: state :: tail =>
      Some (fold_left set_token tail [(js "serial", serial); (js "state", state)])
  | _ => None
  end.

Definition is_header (l : jsstring) : bool := startsWith l devices_header.

(** The device list, line by line: the lines of the
    text, trimmed, without the empty ones and without those that begin with
    the header text, each turned into its record, in line order. *)
Definition device_records (text : jsstring) : device_list :=
  flat_map (fun l => match record_of_line l with Some r => [r] | None => [] end)
    (filter (fun l => negb (is_header l))
       (filter truthy (List.map trim (lines text)))).

(** A field of a line: not empty, no white space in it. *)
Definition no_space (s : jsstring) : Prop := Forall (fun c => is_space c = false) s.

Definition token (s : jsstring) : Prop := s <> [] /\ no_space s.

(** A line as [trim] leaves it when something is left: it neither starts
    nor ends with white space. *)
Definition trimmed (s : jsstring) : Prop :=
  match s with
  | [] => False
  | c :: _ => is_space c = false /\ is_space (last s 0%N) = false
  end.

(** A text built from tokens and white-space separators. *)
Fixpoint unwords (ws : list (jsstring * jsstring)) : jsstring :=
  match ws with
  | [] => []
  | (sep, tok) :: ws' => sep ++ tok ++ unwords ws'
  end.

Definition separator (sep : jsstring) : Prop :=
  sep <> [] /\ Forall (fun c => is_space c = true) sep.


(** ** The package dump, step by step *)

(** The value after the first place where [label] is followed by at least
    one code unit of the class; empty when there is no such place. *)
Fixpoint label_value (label : jsstring) (cls : char -> bool) (s : jsstring)
  : jsstring :=
  let v := takeWhile cls (skipn (length label) s) in
  if startsWith s label && truthy v then v
  else match s with [] => [] | _ :: s' => label_value label cls s' end.

(** Some text reachable from the start of [s] without crossing a line
    terminator satisfies [f]. *)
Fixpoint on_line (f : jsstring -> bool) (s : jsstring) : bool :=
  f s || match s with c :: t => is_dot c && on_line f t | [] => false end.

(** A package-flags block with [HAS_CODE] in it starts here: [pkgFlags=[],
    then [HAS_CODE] and a closing bracket further on the same line. *)
Definition flags_block_at (s : jsstring) : bool :=
  startsWith s (js "pkgFlags=[")
  && on_line
       (fun r => startsWith r (js "HAS_CODE")
                 && on_line (fun r' => startsWith r' [93%N])
                      (skipn (length (js "HAS_CODE")) r))
       (skipn (length (js "pkgFlags=[")) s).

Fixpoint has_flags_block (s : jsstring) : bool :=
  flags_block_at s || match s with [] => false | _ :: s' => has_flags_block s' end.

(** The three states of [enabled]. *)
Definition enabled_of (text : jsstring) : option bool :=
  if includes text (js "enabled=true") || has_flags_block text then Some true
  else if includes text (js "enabled=false") then Some false
  else None.

(** The text before the first pair of consecutive newlines of [s], and the
    text after the pair; none when [s] has no such pair. *)
Fixpoint cut_blank (s : jsstring) : option (jsstring * jsstring) :=
  if startsWith s [LF; LF] then Some ([], skipn 2 s)
  else
    match s with
    | c :: t =>
        match cut_blank t with
        | Some (b, a) => Some (c :: b, a)
        | None => None
        end
    | [] => None
    end.

(** The part of a section pattern after the white space: the lazy group
    and the two newlines. *)
Definition section_tail (y : mstate) : option mstate :=
  m (Seq (Group 1 (Star false (Class is_any))) (Lit [LF; LF])) y Some.

(** The text after the first occurrence of [header]. *)
Fixpoint after_first (header s : jsstring) : option jsstring :=
  if startsWith s header then Some (skipn (length header) s)
  else match s with [] => None | _ :: s' => after_first header s' end.

(** The body of a section: what follows the first [header] and the white
    space after it, up to the next pair of consecutive newlines. *)
Definition section_body (header text : jsstring) : option jsstring :=
  match after_first header text with
  | Some r =>
      match cut_blank (dropWhile is_space r) with
      | Some (b, _) => Some b
      | None => None
      end
  | None => None
  end.

Definition section_lines (header text : jsstring) : list jsstring :=
  match section_body header text with
  | Some b => List.map trim (lines b)
  | None => []
  end.

Definition keep_requested (s : jsstring) : bool :=
  truthy s && negb (includes s granted_true).

Definition requested_of (text : jsstring) : list jsstring :=
  filter keep_requested (section_lines requested_header text).

Definition granted_of (text : jsstring) : list jsstring :=
  filter truthy (section_lines granted_header text).

(** The package details, field by field. *)
Definition package_details (text : jsstring) : PackageDetails :=
  {| versionName := label_value (js "versionName=") version_char text;
     versionCode := label_value (js "versionCode=") is_digit text;
     appId := label_value (js "appId=") is_digit text;
     userId := label_value (js "userId=") is_digit text;
     enabled := enabled_of text;
     requested := requested_of text;
     granted := granted_of text |}.

(** The first [header] of the text is followed, somewhere, by a pair of
    consecutive newlines. *)
Definition followed_by_blank (header text : jsstring) : bool :=
  match after_first header text with
  | Some r => includes r [LF; LF]
  | None => false
  end.

(** ** The package list, step by step *)

(** The name on a line that is [package:], a run of [[\w.]] and then
    nothing, or [=] and a suffix without a line terminator. *)
Definition package_name (line : jsstring) : option jsstring :=
  if startsWith line (js "package:") then
    let r := skipn (length (js "package:")) line in
    let name := takeWhile package_char r in
    if truthy name
       && match dropWhile package_char r with
          | [] => true
          | c :: suffix => (c =? 61)%N && forallb is_dot suffix
          end
    then Some name
    else None
  else None.

Definition package_list (text : jsstring) : list PackageRecord :=
  flat_map
    (fun line =>
       match package_name line with
       | Some n => [{| package := Some n |}]
       | None => []
       end)
    (lines text).

(** The end of the package pattern: an optional [=] and suffix, then the
    end of the line. *)
Definition package_tail (z : mstate) : option mstate :=
  m (Seq (Opt (Seq (Chr 61%N) (Star true (Class is_dot)))) Eol) z Some.


(** ** Well-formed results *)

(** A device record has a serial and a state, and every field is a
    non-empty string. *)
Definition wf_device (r : obj jsstring) : Prop :=
  (exists s, obj_get (js "serial") r = Some s /\ s <> [])
  /\ (exists s, obj_get (js "state") r = Some s /\ s <> [])
  /\ Forall (fun kv => snd kv <> []) r.

(** A package record holds a name: a string, not [undefined], not empty,
    of the class [[\w.]]. *)
Definition wf_package (p : PackageRecord) : Prop :=
  exists n, package p = Some n /\ n <> []
            /\ Forall (fun c => package_char c = true) n.

(** The scalar fields hold runs of their classes; the permission lists
    hold non-empty strings. *)
Definition wf_details (d : PackageDetails) : Prop :=
  Forall (fun c => version_char c = true) (versionName d)
  /\ Forall (fun c => is_digit c = true) (versionCode d)
  /\ Forall (fun c => is_digit c = true) (appId d)
  /\ Forall (fun c => is_digit c = true) (userId d)
  /\ Forall (fun s => s <> []) (requested d)
  /\ Forall (fun s => s <> []) (granted d).

(** The details of a text that has none of the labels. *)
Definition default_details : PackageDetails :=
  {| versionName := []; versionCode := []; appId := []; userId := [];
     enabled := None; requested := []; granted := [] |}.

(** ** The command result as the description has it *)

(** On a normal exit: [ok=true], both outputs captured as text,
    [exitCode=0]. *)
Definition spec_success (r : execa_result) (o : obj jsval) : Prop :=
  field o (js "ok") = VBool true
  /\ field o (js "stdout") = VStr (res_stdout r)
  /\ field o (js "stderr") = VStr (res_stderr r)
  /\ field o (js "exitCode") = VNum 0.

(** ** The log relay as the description has it *)

(** What the subprocess emits: lines, on one of its two streams. *)
Inductive emitted : Type :=
| OutLine (text : jsstring)
| ErrLine (text : jsstring).

(** One event. *)
Definition event (text : jsstring) : jsstring := js "data: " ++ text ++ [LF; LF].

(** One event per emitted line, in order, the lines of standard error
    tagged. *)
Definition spec_forward (ls : list emitted) : response :=
  List.map
    (fun e =>
       match e with
       | OutLine t => event t
       | ErrLine t => event (stderr_tag ++ t)
       end)
    ls.

(** The end of a line: LF, or CR LF. *)
Definition eol (crlf : bool) : jsstring := if crlf then [CR; LF] else [LF].

(** A chunk that carries whole lines. *)
Definition chunk_of (ls : list (jsstring * bool)) : jsstring :=
  flat_map (fun l => fst l ++ eol (snd l)) ls.

(** A chunk of whole lines arriving from one of the two streams. *)
Inductive delivery : Type :=
| OutChunk (ls : list (jsstring * bool))
| ErrChunk (ls : list (jsstring * bool)).

Definition arrival_of (d : delivery) : arrival :=
  match d with
  | OutChunk ls => StdoutData (chunk_of ls)
  | ErrChunk ls => StderrData (chunk_of ls)
  end.

Definition emitted_of (d : delivery) : list emitted :=
  match d with
  | OutChunk ls => List.map (fun l => OutLine (fst l)) ls
  | ErrChunk ls => List.map (fun l => ErrLine (fst l)) ls
  end.

Definition delivered (d : delivery) : list (jsstring * bool) :=
  match d with OutChunk ls | ErrChunk ls => ls end.

Definition nonempty_line (e : emitted) : bool :=
  match e with OutLine t | ErrLine t => truthy t end.

(** The text of a line that ends within a chunk, with its line end: no LF
    in the text, and no CR at its end when LF alone ends the line (that CR
    would belong to the line end). *)
Definition line_text (l : jsstring * bool) : Prop :=
  ~ In LF (fst l) /\ (snd l = false -> last (fst l) 0%N <> CR).

(** A data chunk in general: the lines that end within it and, after them,
    what the chunk holds of the line that its end cuts (nothing when the
    chunk ends with a line break). The lines that arrive whole within the
    chunk are among the former. *)
Record parted : Type := Parted {
  ended : delivery;
  cut : jsstring
}.

Definition arrival_of_parted (p : parted) : arrival :=
  match ended p with
  | OutChunk ls => StdoutData (chunk_of ls ++ cut p)
  | ErrChunk ls => StderrData (chunk_of ls ++ cut p)
  end.

Definition well_parted (p : parted) : Prop :=
  Forall line_text (delivered (ended p)) /\ ~ In LF (cut p).

(** The pieces of a chunk in order, each on the stream of the chunk: its
    lines, then the part that is cut. *)
Definition pieces_of (p : parted) : list emitted :=
  emitted_of (ended p)
  ++ match ended p with
     | OutChunk _ => [OutLine (cut p)]
     | ErrChunk _ => [ErrLine (cut p)]
     end.

(** The text of a line: no LF in it, and no CR at its end (that CR would
    belong to the line end). *)
Definition plain (l : jsstring) : Prop := ~ In LF l /\ last l 0%N <> CR.

(** ** The requested permissions as the description has it *)

(** The lines that follow the header, up to the next blank line (to the
    end of the text when there is none), trimmed, without the empty ones
    and without those that contain [granted=true]. *)
Definition spec_requested (text : jsstring) : list jsstring :=
  match after_first requested_header text with
  | Some r =>
      let body := match cut_blank r with Some (b, _) => b | None => r end in
      filter keep_requested (List.map trim (lines body))
  | None => []
  end.

(** ** The device list as the description has it *)

Record DeviceRecord : Type := {
  dr_serial : jsstring;
  dr_state : jsstring;
  dr_attributes : list (jsstring * jsstring)
}.

(** A mapping from keys to values: a key keeps its place, a new key comes
    last. *)
Fixpoint attr_set (k v : jsstring) (m_ : list (jsstring * jsstring))
  : list (jsstring * jsstring) :=
  match m_ with
  | [] => [(k, v)]
  | (k', v') :: m' =>
      if str_eqb k k' then (k', v) :: m' else (k', v') :: attr_set k v m'
  end.

(** A [key:value] token, cut at its first colon; none without a colon. *)
Fixpoint cut_colon (acc : jsstring) (tok : jsstring) : option (jsstring * jsstring) :=
  match tok with
  | [] => None
  | c :: t => if (c =? COLON)%N then Some (rev acc, t) else cut_colon (c :: acc) t
  end.

(** Serial, state, and the [key:value] tokens of the tail added to the
    attributes; tokens without a colon ignored. *)
Definition spec_record_of_line (l : jsstring) : option DeviceRecord :=
  match fields l with
  | serial :: state :: tail =>
      Some {| dr_serial := serial;
              dr_state := state;
              dr_attributes :=
                fold_left
                  (fun m_ tok =>
                     match cut_colon [] tok with
                     | Some (k, v) => attr_set k v m_
                     | None => m_
                     end)
                  tail [] |}
  | _ => None
  end.

Definition spec_parseDeviceList (text : jsstring) : list DeviceRecord :=
  flat_map
    (fun l => match spec_record_of_line l with Some r => [r] | None => [] end)
    (filter (fun l => negb (is_header l))
       (filter truthy (List.map trim (lines text)))).

Definition is_serial_or_state (k : jsstring) : bool :=
  str_eqb k (js "serial") || str_eqb k (js "state").

(** The object the program builds, read as a [DeviceRecord]: its serial
    and state fields, and its other properties, in the order in which they
    are listed, as the attributes. *)
Definition as_device_record (r : obj jsstring) : option DeviceRecord :=
  match obj_get (js "serial") r, obj_get (js "state") r with
  | Some serial, Some state =>
      Some {| dr_serial := serial;
              dr_state := state;
              dr_attributes :=
                filter (fun kv => negb (is_serial_or_state (fst kv))) (entries r) |}
  | _, _ => None
  end.

(** The token of an attribute. *)
Definition attr_token (a : jsstring * jsstring) : jsstring :=
  fst a ++ [COLON] ++ snd a.

(** A device line: the serial, then the state and the attribute tokens,
    each after its separator. *)
Definition device_line_text (serial sep0 state : jsstring)
  (attrs : list (jsstring * (jsstring * jsstring))) : jsstring :=
  serial
  ++ unwords ((sep0, state)
              :: List.map (fun sa => (fst sa, attr_token (snd sa))) attrs).

(** A separator inside a line: white space, no LF. *)
Definition line_separator (sep : jsstring) : Prop :=
  separator sep /\ ~ In LF sep.

(** An attribute that survives the round trip: key and value without
    white space or colon, the value not empty, the key not [serial],
    [state] or [__proto__] and not an array index. *)
Definition plain_attr (a : jsstring * jsstring) : Prop :=
  no_space (fst a) /\ ~ In COLON (fst a)
  /\ snd a <> [] /\ no_space (snd a) /\ ~ In COLON (snd a)
  /\ is_serial_or_state (fst a) = false
  /\ str_eqb (fst a) PROTO = false
  /\ is_index (fst a) = false.

(** The token sets the field [k]: its first piece is [k] and its second
    piece is there and not empty. *)
Definition sets_field (k : jsstring) (tok : jsstring) : bool :=
  match split_chr COLON tok with
  | k' :: v :: _ => str_eqb k' k && truthy v
  | _ => false
  end.

(** * More of the server *)

(** ** Package lines and permission sections, as texts *)

(** A line of [pm list packages]: the name, and the suffix after [=] when
    there is one. *)
Definition package_line (name : jsstring) (suffix : option jsstring) : jsstring :=
  js "package:" ++ name
  ++ match suffix with Some s => 61%N :: s | None => [] end.

(** A name of the class [[\w.]], a suffix without a line terminator. *)
Definition package_entry (e : jsstring * option jsstring) : Prop :=
  fst e <> [] /\ Forall (fun c => package_char c = true) (fst e)
  /\ match snd e with
     | Some s => Forall (fun c => is_dot c = true) s
     | None => True
     end.

(** The lines of a permission section: each permission after its
    indentation, each line ended by LF. *)
Definition section_block (perms : list (jsstring * jsstring)) : jsstring :=
  flat_map (fun ip => fst ip ++ snd ip ++ [LF]) perms.

(** White space that stays on its line. *)
Definition indentation (ind : jsstring) : Prop :=
  Forall (fun c => is_space c = true) ind /\ ~ In LF ind.

(** A permission as it stands on its line: trimmed, on one line. *)
Definition permission (p : jsstring) : Prop := trimmed p /\ ~ In LF p.

(** What one chunk makes the relay write. *)
Definition events_of (a : arrival) : response :=
  match a with
  | StdoutData chunk => List.map event (filter truthy (lines chunk))
  | StderrData chunk =>
      List.map (fun l => event (stderr_tag ++ l)) (filter truthy (lines chunk))
  end.

(** A package-flags block with [HAS_CODE], spelled out. *)
Definition flags_block (text : jsstring) : Prop :=
  exists a b c d,
    text = a ++ js "pkgFlags=[" ++ b ++ js "HAS_CODE" ++ c ++ [93%N] ++ d
    /\ Forall (fun x => is_dot x = true) b
    /\ Forall (fun x => is_dot x = true) c.

(** A line that gives no device record: blank, a header line, or a line of
    one field. *)
Definition no_device (l : jsstring) : Prop :=
  trim l = [] \/ is_header (trim l) = true \/ length (fields (trim l)) < 2.

(** ** [/api/logcat]: the arguments of the subprocess *)

(** A value of [req.query]: absent, a string, or an array or object (a
    parameter given twice or with brackets). *)
Inductive query : Type :=
| QMissing
| QString (s : jsstring)
| QOther.

Definition query_truthy (q : query) : bool :=
  match q with
  | QMissing => false
  | QString s => truthy s
  | QOther => true
  end.

(** The start of the handler: no arguments (the reply is 400) without a
    serial; otherwise [['-s', serial, 'logcat', '-v', 'time']], and after
    them [filter.split(' ').filter(Boolean)] when a filter is given. An
    array or an object has no [split]. *)
Definition logcat_args (serial filter_ : query) : result (option (list query)) :=
  if negb (query_truthy serial) then Ok None
  else
    let args := [QString (js "-s"); serial; QString (js "logcat");
                 QString (js "-v"); QString (js "time")] in
    if query_truthy filter_ then
      match filter_ with
      | QString f =>
          Ok (Some (args ++ List.map QString (filter truthy (split_chr SP f))))
      | _ => Throw "TypeError: filter.split is not a function"
      end
    else Ok (Some args).

(** A filter as a text: words, each after a run of spaces, and a run of
    spaces at the end. *)
Definition filter_text (ws : list (nat * jsstring)) (trail : nat) : jsstring :=
  flat_map (fun nw => repeat SP (fst nw) ++ snd nw) ws ++ repeat SP trail.

(** A word: not empty and without a space (a tab or a line break may be
    part of it). *)
Definition filter_word (w : jsstring) : Prop := w <> [] /\ ~ In SP w.

(** The words are apart: a space stands before each word but the first. *)
Definition apart (ws : list (nat * jsstring)) : Prop :=
  Forall (fun nw => 0 < fst nw) (tl ws).

(** ** [/api/package/apk]: paths and names *)

(** [/^(?:package|split):(.+)$/] *)
Definition re_apk_line : regex :=
  Seq Bol
    (Seq (Alt (Lit (js "package")) (Lit (js "split")))
      (Seq (Chr COLON)
        (Seq (Group 1 (Plus true (Class is_dot)))
          Eol))).

(** The array [paths] and the variable [basePath] ([None] for [null]). *)
Definition apk_scan : Type := (list (option jsstring) * option jsstring)%type.

(** The body of the loop over the lines of [pm path]. *)
Definition apk_line (line : jsstring) (st : apk_scan) : result apk_scan :=
  match str_match line re_apk_line with
  | Some m_ =>
      let pth := arr_get m_ 1 in
      let basePath := if startsWith line (js "package:") then pth else snd st in
      Ok (fst st ++ [pth], basePath)
  | None => Ok st
  end.

Definition apk_paths (stdout : jsstring) : result apk_scan :=
  parts <- split_re stdout re_newline ;;
  let lines := filter truthy (List.map trim parts) in
  for_of lines apk_line ([], None).

(** [/[^\w.\-+]/g] *)
Definition re_unsafe : regex := Class (fun c => negb (version_char c)).

(** [(pkg.replace(/[^\w.\-+]/g,'_') || 'app') + '.apk'] *)
Definition apk_filename (pkg : jsstring) : result jsstring :=
  s <- replace_all pkg re_unsafe (js "_") ;;
  Ok ((if truthy s then s else js "app") ++ js ".apk").

(** [pkg.replace(/[^\w.\-+]/g,'_')] followed by [.apks.zip]. *)
Definition apks_filename (pkg : jsstring) : result jsstring :=
  s <- replace_all pkg re_unsafe (js "_") ;;
  Ok (s ++ js ".apks.zip").

Definition SLASH : char := 47%N.

(** [s.endsWith(suffix)]. *)
Definition endsWith (s suffix : jsstring) : bool :=
  (length suffix <=? length s)
  && str_eqb (skipn (length s - length suffix) s) suffix.

(** [a.pop()] on an array of strings, in a string concatenation. *)
Definition pop_text (a : list jsstring) : jsstring := last a (js "undefined").

(** [pth.endsWith('/base.apk') ? 'base.apk' : ('split_' + pth.split('/').pop())] *)
Definition pull_name (pth : jsstring) : jsstring :=
  if endsWith pth (js "/base.apk") then js "base.apk"
  else js "split_" ++ pop_text (split_chr SLASH pth).

(** A code unit after the replacement: itself in the class [[\w.\-+]],
    the underscore otherwise. *)
Definition underscore (c : char) : char := if version_char c then c else 95%N.

(** The path of a line of [pm path], directly. *)
Definition apk_path_of (line : jsstring) : option jsstring :=
  let check (r : jsstring) :=
    if truthy r && forallb is_dot r then Some r else None in
  if startsWith line (js "package:") then check (skipn 8 line)
  else if startsWith line (js "split:") then check (skipn 6 line)
  else None.

(** A line of [pm path]. *)
Definition apk_text_line (base : bool) (pth : jsstring) : jsstring :=
  (if base then js "package:" else js "split:") ++ pth.

(** A path as it stands at the end of its line. *)
Definition apk_path (pth : jsstring) : Prop :=
  pth <> [] /\ Forall (fun c => is_dot c = true) pth
  /\ is_space (last pth 0%N) = false.

(** The last path announced by a [package:] line. *)
Fixpoint last_base (entries : list (bool * jsstring)) (found : option jsstring)
  : option jsstring :=
  match entries with
  | [] => found
  | (base, pth) :: entries' =>
      last_base entries' (if base then Some pth else found)
  end.

(** ** [/api/devices] and [/api/shell] *)

Inductive devices_body : Type :=
| DevicesFailure (error stderr : jsval)
| DevicesSuccess (devices : device_list).

(** The handler of [/api/devices], given how the [execa] call ended: the
    status and the body of the reply. *)
Definition api_devices (outcome : execa_outcome) : result (Z * devices_body) :=
  let r := adbCmd outcome in
  if negb (val_truthy (field r (js "ok")))
  then Ok (500%Z, DevicesFailure (field r (js "error")) (field r (js "stderr")))
  else
    match field r (js "stdout") with
    | VStr text =>
        devices <- parseDevicesList text ;;
        Ok (200%Z, DevicesSuccess devices)
    | _ => Throw "TypeError: text.split is not a function"
    end.

Inductive shell_body : Type :=
| ShellInvalid (error : jsstring)
| ShellFailure (error stderr stdout : jsval)
| ShellSuccess (stdout stderr : jsval).

Definition is_string (v : jsval) : bool :=
  match v with VStr _ => true | _ => false end.

(** The handler of [/api/shell] for a body with scalar [serial] and [cmd];
    [exec] stands for the [execa] call on the arguments it is given (and
    on its time limit, which plays no part in the reply). *)
Definition api_shell (serial cmd : jsval) (exec : list jsval -> execa_outcome)
  : Z * shell_body :=
  if negb (val_truthy serial) then (400%Z, ShellInvalid (js "serial required"))
  else if negb (val_truthy cmd) || negb (is_string cmd)
  then (400%Z, ShellInvalid (js "cmd required"))
  else
    let r := adbCmd (exec [VStr (js "-s"); serial; VStr (js "shell"); cmd]) in
    if negb (val_truthy (field r (js "ok")))
    then (500%Z, ShellFailure (field r (js "error")) (field r (js "stderr"))
                   (field r (js "stdout")))
    else (200%Z, ShellSuccess (field r (js "stdout")) (field r (js "stderr"))).

(** ** [/api/ip]: the addresses *)

Definition DOT : char := 46%N.

(** [\d+] *)
Definition re_digits : regex := Plus true (Class is_digit).

(** [inet\s+(\d+\.\d+\.\d+\.\d+)\/(\d+)]: the pattern of the handler after
    its leading [\b]. *)
Definition re_inet : regex :=
  Seq (Lit (js "inet"))
    (Seq (Plus true (Class is_space))
      (Seq (Group 1
              (Seq re_digits (Seq (Chr DOT)
                (Seq re_digits (Seq (Chr DOT)
                  (Seq re_digits (Seq (Chr DOT) re_digits)))))))
        (Seq (Chr SLASH) (Group 2 re_digits)))).

Definition is_word_at (c : option char) : bool :=
  match c with Some c => is_word c | None => false end.

(** The assertion [\b] at the start of the text [s], which follows the
    code unit [prev] ([None] at the start of the subject). *)
Definition word_boundary (prev : option char) (s : jsstring) : bool :=
  xorb (is_word_at prev) (is_word_at (hd_error s)).

(** A match of [\b] followed by [r], anchored at index [i]. *)
Definition sticky_b (r : regex) (prev : option char) (i : nat) (s : jsstring)
  : option mstate :=
  if word_boundary prev s then sticky r i s else None.

(** [Array.from(s.matchAll(re))] for the pattern [\b] followed by [r], with
    the [g] flag: the matches from left to right, the search going on where
    the last match ended, one code unit further after an empty match. *)
Fixpoint match_all_b (r : regex) (fuel : nat) (prev : option char) (i : nat)
  (s : jsstring) : result (list mstate) :=
  match fuel with
  | O => OutOfFuel
  | S fuel' =>
      match sticky_b r prev i s with
      | Some y =>
          if pos y =? i then
            match s with
            | [] => Ok [y]
            | c :: s' =>
                tl <- match_all_b r fuel' (Some c) (S i) s' ;; Ok (y :: tl)
            end
          else
            tl <- match_all_b r fuel' (nth_error s (pos y - i - 1)) (pos y) (rest y) ;;
            Ok (y :: tl)
      | None =>
          match s with
          | [] => Ok []
          | c :: s' => match_all_b r fuel' (Some c) (S i) s'
          end
      end
  end.

(** The field [ipv4] of the reply: [m[1]] for every match. *)
Definition ipv4_of (stdout : jsstring) : result (list (option jsstring)) :=
  ms <- match_all_b re_inet (S (length stdout)) None 0 stdout ;;
  Ok (List.map (fun y => get_cap 1 (caps y)) ms).

(** A non-empty run of decimal digits. *)
Definition digits (a : jsstring) : Prop :=
  a <> [] /\ Forall (fun c => is_digit c = true) a.

(** Four runs of digits with dots between them. *)
Definition dotted_quad (ip : jsstring) : Prop :=
  exists a b c d,
    ip = a ++ DOT :: b ++ DOT :: c ++ DOT :: d
    /\ digits a /\ digits b /\ digits c /\ digits d.

(** The last code unit of a text, if any. *)
Definition last_unit (s : jsstring) : option char := last (List.map Some s) None.

(** One line of [ip -o addr show]: some text, [inet], white space, the
    address, a slash, the prefix length, the rest. *)
Definition inet_text (pre sp ip len post : jsstring) : jsstring :=
  pre ++ js "inet" ++ sp ++ ip ++ SLASH :: len ++ post.

(** ** The browser helper *)

Module WebAdbHelper.

(** What a run of the helper does to the browser and the device. *)
Inductive effect : Type :=
| RequestDevice            (* navigator.usb.requestDevice(...) *)
| DeviceOpen               (* device.open() *)
| DeviceClose              (* device.close() *)
| Fetch (url : jsstring)   (* fetch(url, { method: 'POST' }) *)
| LoadScript (src : jsstring)
| AdbOpen                  (* window.Adb.open('WebUSB') *)
| ConnectAdb               (* webusb.connectAdb(...) *)
| AdbShell                 (* adb.shell('getprop ro.serialno') *)
| Receive                  (* out.receive() *)
| AdbClose                 (* webusb.close() *)
| Warn.                    (* console.warn(...) *)

(** How an [async] function settles. *)
Inductive promise (A : Type) : Type :=
| Fulfilled (a : A)
| Failed (msg : string).

Arguments Fulfilled {A} a.
Arguments Failed {A} msg.

(** A computation: the effects it performed, in order, and how it
    settled. *)
Definition io (A : Type) : Type := (list effect * promise A)%type.

Definition ret {A : Type} (a : A) : io A := ([], Fulfilled a).

Definition throw {A : Type} (msg : string) : io A := ([], Failed msg).

Definition emit (e : effect) : io unit := ([e], Fulfilled tt).

(** An awaited call of the browser or of the library: it performs [e] and
    is rejected unless [ok]; [msg] stands for the reason, which the helper
    only logs. *)
Definition call (e : effect) (ok : bool) (msg : string) : io unit :=
  ([e], if ok then Fulfilled tt else Failed msg).

Definition io_bind {A B : Type} (c : io A) (k : A -> io B) : io B :=
  match c with
  | (t, Fulfilled a) => let (t', r) := k a in (t ++ t', r)
  | (t, Failed msg) => (t, Failed msg)
  end.

Notation "x <~ c ;; k" := (io_bind c (fun x => k))
  (at level 61, c at next level, right associativity).

(** [try { body } catch (e) { handler }] *)
Definition try_catch {A : Type} (body handler : io A) : io A :=
  match body with
  | (t, Failed _) => let (t', r) := handler in (t ++ t', r)
  | settled => settled
  end.

(** [try { body } finally { fin }] *)
Definition try_finally {A : Type} (body : io A) (fin : io unit) : io A :=
  let (t, r) := body in
  match fin with
  | (t', Fulfilled _) => (t ++ t', r)
  | (t', Failed msg) => (t ++ t', Failed msg)
  end.

(** The device the user picks in the chooser. *)
Record usb_device : Type := UsbDevice {
  opens : bool;                       (* [device.open()] resolves *)
  serialNumber : option jsstring;
  closes : bool                       (* [device.close()] resolves *)
}.

(** The browser and the device, as far as the helper consults them. *)
Record browser : Type := Browser {
  has_usb : bool;                     (* ['usb' in navigator] *)
  chosen : option usb_device;         (* [None]: [requestDevice] rejects *)
  has_Adb : bool;                     (* [window.Adb] is set *)
  core_loads : bool;                  (* the script sets [window.Adb] *)
  adb_opens : bool;                   (* [window.Adb.open] resolves *)
  isAdb : bool;
  connects : bool;                    (* [connectAdb] resolves *)
  shell_runs : bool;                  (* [adb.shell] resolves *)
  receives : bool;                    (* [out.receive()] resolves *)
  reply : jsstring;                   (* the decoded [resp.data] *)
  adb_closes : bool                   (* [webusb.close()] resolves *)
}.

(** [if (!('usb' in navigator)) throw new Error(...)] *)
Definition ensureWebUsb (b : browser) : io unit :=
  if has_usb b then ret tt else throw "WebUSB недоступен. Используйте Chrome/Edge и https:// или http://localhost.".

(** Nothing to do when [window.Adb] is there; otherwise the script is
    appended and, loaded or not, [window.Adb] is looked for again. *)
Definition loadCore (b : browser) (src : jsstring) : io unit :=
  if has_Adb b then ret tt
  else
    _ <~ emit (LoadScript src) ;;
    if core_loads b then ret tt else throw "webadb.core.js загружен, но window.Adb не появился.".

(** [if (url) try { await fetch(url, { method: 'POST' }); } catch(_){}]:
    whether the request succeeds makes no difference. *)
Definition killAdbServer (url : option jsstring) : io unit :=
  match url with
  | Some u => if truthy u then emit (Fetch u) else ret tt
  | None => ret tt
  end.

Definition startAdbServer (url : option jsstring) : io unit :=
  match url with
  | Some u => if truthy u then emit (Fetch u) else ret tt
  | None => ret tt
  end.

(** The direct attempt: the device is opened without claiming an
    interface, [(device.serialNumber || '').trim()] is read, and the device
    is closed in the [finally] block, a failure of [close] being dropped. *)
Definition tryWebUsbSerial (b : browser) : io jsstring :=
  _ <~ ensureWebUsb b ;;
  _ <~ call RequestDevice (is_some (chosen b)) "requestDevice was rejected" ;;
  match chosen b with
  | Some device =>
      try_finally
        (_ <~ call DeviceOpen (opens device) "open was rejected" ;;
         let sn :=
           trim (match serialNumber device with
                 | Some s => if truthy s then s else []
                 | None => []
                 end) in
         ret (if truthy sn then sn else []))
        (try_catch (call DeviceClose (closes device) "close was rejected") (ret tt))
  | None => throw "requestDevice was rejected"
  end.

(** The fallback: the server is asked to stop before the [try] block and
    to start in its [finally] block. The prompt handed to [connectAdb] is
    the library's to call and is left out. *)
Definition tryAdbSerialViaWebUsbFallback (b : browser) (coreSrc : jsstring)
  (killServerUrl startServerUrl : option jsstring) : io jsstring :=
  _ <~ killAdbServer killServerUrl ;;
  try_finally
    (_ <~ loadCore b coreSrc ;;
     _ <~ call AdbOpen (adb_opens b) "Adb.open was rejected" ;;
     _ <~ (if isAdb b then ret tt else throw "Интерфейс не ADB") ;;
     _ <~ call ConnectAdb (connects b) "connectAdb was rejected" ;;
     _ <~ call AdbShell (shell_runs b) "shell was rejected" ;;
     _ <~ call Receive (receives b) "receive was rejected" ;;
     let serial := trim (reply b) in
     _ <~ call AdbClose (adb_closes b) "close was rejected" ;;
     if truthy serial then ret serial else throw "Не удалось получить ro.serialno")
    (startAdbServer startServerUrl).

(** [direct] is the serial the first [try] block returns, if it returns
    one; each [catch] block logs a warning. *)
Definition pickSerial (b : browser) (killServerUrl startServerUrl : option jsstring)
  (useWebUsbOnly : bool) (coreSrc : jsstring) : io jsstring :=
  direct <~ try_catch
              (sn <~ tryWebUsbSerial b ;;
               ret (if truthy sn then Some sn else None))
              (_ <~ emit Warn ;; ret None) ;;
  match direct with
  | Some sn => ret sn
  | None =>
      if useWebUsbOnly then throw "Не удалось получить serial через WebUSB (useWebUsbOnly=true). Закройте Android Studio/scrcpy/adb и попробуйте снова."
      else
        try_catch
          (tryAdbSerialViaWebUsbFallback b coreSrc killServerUrl startServerUrl)
          (_ <~ emit Warn ;; ret [])
  end.

(** The effects of the direct attempt. *)
Definition direct_effect (e : effect) : Prop :=
  e = RequestDevice \/ e = DeviceOpen \/ e = DeviceClose \/ e = Warn.

End WebAdbHelper.
Import WebAdbHelper.

(** * Properties *)

(** ** The model at work *)

Example split_spaces_example :
  split_re (js " a  b ") re_spaces = Ok [[]; js "a"; js "b"; []].
Proof. reflexivity. Qed.

Example split_newline_example :
  split_re (js "a" ++ [CR; LF] ++ js "b" ++ [LF; CR]) re_newline
  = Ok [js "a"; js "b"; [CR]].
Proof. reflexivity. Qed.

Example match_backtracks :
  str_match (js "grantedPermissions:" ++ [LF; SP; LF; LF] ++ js "x") re_granted
  = Some [Some (js "grantedPermissions:" ++ [LF; SP; LF; LF]); Some []].
Proof. reflexivity. Qed.

Example entries_order :
  entries [(js "serial", js "A"); (js "state", js "device"); (js "usb", js "2");
           (js "10", js "x"); (js "9", js "y"); (js "01", js "z")]
  = [(js "9", js "y"); (js "10", js "x"); (js "serial", js "A");
     (js "state", js "device"); (js "usb", js "2"); (js "01", js "z")].
Proof. reflexivity. Qed.

Example parseDevicesList_header_only :
  parseDevicesList (js "List of devices attached" ++ [LF; LF]) = Ok [].
Proof. reflexivity. Qed.

Example parsePackageList_example :
  parsePackageList (js "package:com.foo.bar" ++ [LF] ++ js "package:com.baz=1" ++ [LF])
  = Ok [{| package := Some (js "com.foo.bar") |}; {| package := Some (js "com.baz") |}].
Proof. reflexivity. Qed.

Example logcat_line_across_chunks :
  logcat [StdoutData (js "I/app: sta"); StdoutData (js "rted" ++ [LF])]
  = Ok [event (js "I/app: sta"); event (js "rted")].
Proof. reflexivity. Qed.

Example adbCmd_failure :
  adbCmd (Rejected {| err_shortMessage := VStr (js "Command failed with exit code 1: adb devices");
                      err_message := VStr (js "Command failed with exit code 1: adb devices error");
                      err_exitCode := VNum 1; err_stdout := VStr [];
                      err_stderr := VStr (js "error") |})
  = [(js "ok", VBool false);
     (js "error", VStr (js "Command failed with exit code 1: adb devices"));
     (js "code", VNum 1); (js "stdout", VStr []); (js "stderr", VStr (js "error"))].
Proof. reflexivity. Qed.

(** ** The matcher *)

Section Matcher.

Lemma orelse_some {A : Type} (a : option A) (b : unit -> option A) (z : A) :
  orelse a b = Some z -> a = Some z \/ (a = None /\ b tt = Some z).
Proof. destruct a; simpl; intros H; [left | right]; auto. Qed.

Lemma star_rep_ext ma greedy k k' fuel x :
  (forall x k k', (forall y, k y = k' y) -> ma x k = ma x k') ->
  (forall y, k y = k' y) ->
  star_rep ma greedy k fuel x = star_rep ma greedy k' fuel x.
Proof.
  intros Hma Hk. revert x.
  induction fuel as [|fuel IH]; intros x; simpl; [reflexivity|].
  assert (E : ma x (fun y => if length (rest y) <? length (rest x)
                             then star_rep ma greedy k fuel y else None)
            = ma x (fun y => if length (rest y) <? length (rest x)
                             then star_rep ma greedy k' fuel y else None)).
  { apply Hma. intros y. destruct (_ <? _); [apply IH | reflexivity]. }
  rewrite E, (Hk x). reflexivity.
Qed.

Lemma m_ext r : forall x k k',
  (forall y, k y = k' y) -> m r x k = m r x k'.
Proof.
  induction r; intros x k k' Hk; cbn [m].
  - apply Hk.
  - destruct (rest x); [reflexivity|]. destruct (_ =? _)%N; [apply Hk | reflexivity].
  - destruct (rest x); [reflexivity|]. destruct (p _); [apply Hk | reflexivity].
  - apply IHr1. intros y. apply IHr2, Hk.
  - rewrite (IHr1 x k k' Hk), (IHr2 x k k' Hk). reflexivity.
  - apply star_rep_ext; [exact IHr | exact Hk].
  - apply IHr. intros y. apply Hk.
  - destruct (pos x =? 0); [apply Hk | reflexivity].
  - destruct (rest x); [apply Hk | reflexivity].
Qed.

Lemma extends_refl x : extends x x.
Proof. exists [], []. simpl. auto. Qed.

Lemma extends_trans x y z : extends x y -> extends y z -> extends x z.
Proof.
  intros (p1 & c1 & R1 & P1 & C1) (p2 & c2 & R2 & P2 & C2).
  exists (p1 ++ p2), (c2 ++ c1). rewrite R1, R2, P2, P1, C2, C1.
  rewrite !length_app, <- !app_assoc. repeat split; lia.
Qed.

Lemma extends_advance x d t : rest x = d :: t -> extends x (advance x t).
Proof. intros E. exists [d], []. simpl. rewrite E. repeat split; lia. Qed.

Lemma extends_set_cap x y n s : extends x y -> extends x (set_cap n s y).
Proof.
  intros (p1 & c1 & R1 & P1 & C1). exists p1, ((n, s) :: c1). simpl.
  rewrite C1. auto.
Qed.

(** Whatever the matcher returns was accepted by the continuation, at a
    state reached by moving forward in the subject. *)
Lemma star_rep_sound ma greedy k z :
  (forall x k z, ma x k = Some z -> exists y, extends x y /\ k y = Some z) ->
  forall fuel x, star_rep ma greedy k fuel x = Some z ->
  exists y, extends x y /\ k y = Some z.
Proof.
  intros Hma. induction fuel as [|fuel IH]; intros x H; simpl in H; [discriminate|].
  assert (Again : ma x (fun y => if length (rest y) <? length (rest x)
                                 then star_rep ma greedy k fuel y else None) = Some z ->
                  exists y, extends x y /\ k y = Some z).
  { intros Ha. apply Hma in Ha. destruct Ha as (y & Exy & Hy).
    destruct (_ <? _); [|discriminate].
    apply IH in Hy. destruct Hy as (y' & Eyy' & Hy'). exists y'. split; auto.
    eapply extends_trans; eauto. }
  destruct greedy; apply orelse_some in H; destruct H as [H | [_ H]]; auto;
    exists x; split; auto using extends_refl.
Qed.

Lemma m_sound r : forall x k z,
  m r x k = Some z -> exists y, extends x y /\ k y = Some z.
Proof.
  induction r; intros x k z H; cbn [m] in H.
  - exists x. split; [apply extends_refl | exact H].
  - destruct (rest x) eqn:E; [discriminate|]. destruct (_ =? _)%N; [|discriminate].
    exists (advance x j). split; [eapply extends_advance; eauto | exact H].
  - destruct (rest x) eqn:E; [discriminate|]. destruct (p _); [|discriminate].
    exists (advance x j). split; [eapply extends_advance; eauto | exact H].
  - apply IHr1 in H. destruct H as (y & Exy & H). apply IHr2 in H.
    destruct H as (y' & Eyy' & H). exists y'. split; [eapply extends_trans; eauto | exact H].
  - apply orelse_some in H. destruct H as [H | [_ H]]; [apply IHr1 in H | apply IHr2 in H]; exact H.
  - eapply star_rep_sound; eauto.
  - apply IHr in H. destruct H as (y & Exy & H).
    eexists. split; [apply extends_set_cap; exact Exy | exact H].
  - destruct (pos x =? 0); [|discriminate]. exists x. split; [apply extends_refl | exact H].
  - destruct (rest x); [|discriminate]. exists x. split; [apply extends_refl | exact H].
Qed.

End Matcher.

(** ** The loops of the built-ins end *)

Section Fuel.

(** More fuel than there are code units ahead changes nothing: a
    repetition never stops for want of fuel. *)
Lemma star_rep_fuel ma greedy k :
  (forall x k k', (forall y, k y = k' y) -> ma x k = ma x k') ->
  forall f1 f2 x,
    length (rest x) < f1 -> length (rest x) < f2 ->
    star_rep ma greedy k f1 x = star_rep ma greedy k f2 x.
Proof.
  intros Hma. induction f1 as [|f1 IH]; intros f2 x H1 H2; [lia|].
  destruct f2 as [|f2]; [lia|]. cbn [star_rep].
  assert (E : ma x (fun y => if length (rest y) <? length (rest x)
                             then star_rep ma greedy k f1 y else None)
            = ma x (fun y => if length (rest y) <? length (rest x)
                             then star_rep ma greedy k f2 y else None)).
  { apply Hma. intros y. destruct (length (rest y) <? length (rest x)) eqn:L; [|reflexivity].
    apply Nat.ltb_lt in L. apply IH; lia. }
  rewrite E. reflexivity.
Qed.

(** A match ends at or after the index where it starts. *)
Lemma sticky_forward r q s e :
  sticky r q s = Some e -> q <= pos e /\ length (rest e) + (pos e - q) = length s.
Proof.
  unfold sticky. intros H. apply m_sound in H.
  destruct H as (y & (pre & cs & Hr & Hp & _) & Hy). injection Hy as <-.
  cbn [pos rest] in *. subst s. rewrite Hp, length_app. lia.
Qed.

(** [split] returns for every pattern. *)
Lemma split_loop_total r : forall fuel s q piece,
  2 * length s + (match piece with [] => 0 | _ :: _ => 1 end) < fuel ->
  exists l, split_loop r fuel q piece s = Ok l.
Proof.
  induction fuel as [|fuel IH]; intros s q piece Hf; [lia|].
  cbn [split_loop]. destruct s as [|c s']; [eauto|]. cbn [length] in Hf.
  assert (Next : exists l, split_loop r fuel (S q) (c :: piece) s' = Ok l)
    by (apply IH; lia).
  destruct (sticky r q (c :: s')) as [e|] eqn:E; [|exact Next].
  destruct (pos e =? q - length piece) eqn:Ep; [exact Next|].
  apply sticky_forward in E. cbn [length] in E. apply Nat.eqb_neq in Ep.
  destruct (IH (rest e) (pos e) []) as [l Hl].
  - destruct piece; simpl in *; lia.
  - rewrite Hl. cbn [bind]. eauto.
Qed.

Lemma split_re_total s r : exists l, split_re s r = Ok l.
Proof.
  unfold split_re. destruct s as [|c s'].
  - destruct (sticky r 0 []); eauto.
  - apply split_loop_total. simpl. lia.
Qed.

(** [replace] with a global pattern returns for every pattern. *)
Lemma replace_loop_total r by_ : forall fuel s q,
  length s < fuel -> exists t, replace_loop r by_ fuel q s = Ok t.
Proof.
  induction fuel as [|fuel IH]; intros s q Hf; [lia|].
  cbn [replace_loop]. destruct (sticky r q s) as [e|] eqn:E.
  - apply sticky_forward in E. destruct (pos e =? q) eqn:Ep.
    + destruct s as [|c s']; [eauto|].
      destruct (IH s' (S q)) as [t Ht]; [simpl in Hf; lia|]. rewrite Ht. cbn [bind]. eauto.
    + apply Nat.eqb_neq in Ep.
      destruct (IH (rest e) (pos e)) as [t Ht]; [lia|]. rewrite Ht. cbn [bind]. eauto.
  - destruct s as [|c s']; [eauto|].
    destruct (IH s' (S q)) as [t Ht]; [simpl in Hf; lia|]. rewrite Ht. cbn [bind]. eauto.
Qed.

Lemma replace_all_total s r by_ : exists t, replace_all s r by_ = Ok t.
Proof. unfold replace_all. apply replace_loop_total. lia. Qed.

End Fuel.

Section DirectForms.

(** A literal matches exactly where the subject starts with it. *)
Lemma m_Lit l : forall i s cs k,
  m (Lit l) (MState i s cs) k =
  if startsWith s l then k (MState (i + length l) (skipn (length l) s) cs)
  else None.
Proof.
  induction l as [|c l IH]; intros i s cs k.
  - simpl. rewrite Nat.add_0_r. reflexivity.
  - change (Lit (c :: l)) with (Seq (Chr c) (Lit l)). cbn [m rest].
    destruct s as [|d t]; [reflexivity|].
    cbn [startsWith andb length skipn].
    destruct (c =? d)%N; [|reflexivity].
    unfold advance. cbn [pos rest caps]. rewrite IH.
    replace (S i + length l) with (i + S (length l)) by lia. reflexivity.
Qed.

Lemma star_greedy_cls p k : forall fuel i s cs,
  length s < fuel ->
  star_rep (m (Class p)) true k fuel (MState i s cs) = greedy_cls p k i s cs.
Proof.
  induction fuel as [|fuel IH]; intros i s cs Hf; [lia|].
  cbn [star_rep m rest]. destruct s as [|d t]; [reflexivity|].
  cbn [greedy_cls]. destruct (p d); [|reflexivity].
  unfold advance. cbn [pos rest caps length].
  replace (length t <? S (length t)) with true by (symmetry; apply Nat.ltb_lt; lia).
  rewrite IH by (simpl in Hf; lia). reflexivity.
Qed.

Lemma star_lazy_cls p k : forall fuel i s cs,
  length s < fuel ->
  star_rep (m (Class p)) false k fuel (MState i s cs) = lazy_cls p k i s cs.
Proof.
  induction fuel as [|fuel IH]; intros i s cs Hf; [lia|].
  cbn [star_rep m rest]. destruct s as [|d t].
  - cbn [lazy_cls orelse]. destruct (k _); reflexivity.
  - cbn [lazy_cls]. destruct (k _); [reflexivity|]. cbn [orelse].
    destruct (p d); [|reflexivity].
    unfold advance. cbn [pos rest caps length].
    replace (length t <? S (length t)) with true by (symmetry; apply Nat.ltb_lt; lia).
    rewrite IH by (simpl in Hf; lia). reflexivity.
Qed.

Lemma m_star_greedy_cls p i s cs k :
  m (Star true (Class p)) (MState i s cs) k = greedy_cls p k i s cs.
Proof. cbn [m rest]. apply star_greedy_cls. lia. Qed.

Lemma m_star_lazy_cls p i s cs k :
  m (Star false (Class p)) (MState i s cs) k = lazy_cls p k i s cs.
Proof. cbn [m rest]. apply star_lazy_cls. lia. Qed.

(** [a+] on a class. *)
Lemma m_plus_greedy_cls p i s cs k :
  m (Plus true (Class p)) (MState i s cs) k =
  match s with
  | c :: t => if p c then greedy_cls p k (S i) t cs else None
  | [] => None
  end.
Proof.
  unfold Plus. cbn [m rest]. destruct s as [|c t]; [reflexivity|].
  destruct (p c); [|reflexivity].
  unfold advance. cbn [pos rest caps]. apply star_greedy_cls. lia.
Qed.

(** Under a continuation that accepts everything, the greedy run is the
    longest one. *)
Lemma greedy_cls_total p k : forall s i cs,
  (forall y, k y <> None) ->
  greedy_cls p k i s cs =
  k (MState (i + length (takeWhile p s)) (dropWhile p s) cs).
Proof.
  induction s as [|c t IH]; intros i cs Hk; cbn [greedy_cls takeWhile dropWhile].
  - simpl. rewrite Nat.add_0_r. reflexivity.
  - destruct (p c).
    + rewrite IH by assumption. cbn [length].
      replace (S i + length (takeWhile p t)) with (i + S (length (takeWhile p t))) by lia.
      destruct (k _) eqn:E; [reflexivity | exfalso; eapply Hk; eauto].
    + simpl. rewrite Nat.add_0_r. reflexivity.
Qed.

Lemma takeWhile_dropWhile p s : takeWhile p s ++ dropWhile p s = s.
Proof. induction s as [|c t IH]; simpl; [reflexivity|]. destruct (p c); simpl; congruence. Qed.

Lemma firstn_takeWhile p s : firstn (length (takeWhile p s)) s = takeWhile p s.
Proof.
  rewrite <- (takeWhile_dropWhile p s) at 2.
  rewrite firstn_app, Nat.sub_diag, firstn_all. simpl. apply app_nil_r.
Qed.

End DirectForms.

(** ** Splitting into lines and into fields *)

Section Splitting.

Lemma sticky_newline q s :
  sticky re_newline q s =
  match s with
  | c :: s' =>
      if (c =? LF)%N then Some (MState (S q) s' [])
      else
        match s' with
        | d :: s'' =>
            if (c =? CR)%N && (d =? LF)%N then Some (MState (S (S q)) s'' [])
            else None
        | [] => None
        end
  | [] => None
  end.
Proof.
  unfold sticky, re_newline, Opt. cbn [m rest]. destruct s as [|c s']; [reflexivity|].
  rewrite (N.eqb_sym CR c), (N.eqb_sym LF c).
  destruct (N.eqb_spec c CR) as [->|Hcr].
  - cbn [advance pos rest caps orelse andb]. change (CR =? LF)%N with false.
    destruct s' as [|d s'']; [reflexivity|].
    rewrite (N.eqb_sym LF d). destruct (d =? LF)%N; reflexivity.
  - cbn [orelse andb]. destruct (c =? LF)%N; [reflexivity|].
    destruct s'; reflexivity.
Qed.

Lemma greedy_cls_Some p : forall s i cs,
  greedy_cls p Some i s cs =
  Some (MState (i + length (takeWhile p s)) (dropWhile p s) cs).
Proof. intros. apply greedy_cls_total. discriminate. Qed.

Lemma sticky_spaces q s :
  sticky re_spaces q s =
  match s with
  | c :: t =>
      if is_space c
      then Some (MState (S q + length (takeWhile is_space t)) (dropWhile is_space t) [])
      else None
  | [] => None
  end.
Proof.
  unfold sticky, re_spaces. rewrite m_plus_greedy_cls.
  destruct s as [|c t]; [reflexivity|]. destruct (is_space c); [|reflexivity].
  apply greedy_cls_Some.
Qed.

(** [split(/\r?\n/)] never runs out of fuel and yields [lines]. *)
Lemma split_loop_newline : forall fuel s q piece,
  length s < fuel ->
  split_loop re_newline fuel q piece s = Ok (lines_aux piece s).
Proof.
  induction fuel as [|fuel IH]; intros s q piece Hf; [lia|].
  cbn [split_loop]. destruct s as [|c s']; [reflexivity|].
  rewrite sticky_newline. cbn [lines_aux]. simpl in Hf.
  destruct (c =? LF)%N.
  - cbn [pos rest]. replace (S q =? q - length piece) with false
      by (symmetry; apply Nat.eqb_neq; lia).
    rewrite IH by lia. reflexivity.
  - destruct s' as [|d s'']; [apply IH; simpl; lia|].
    destruct ((c =? CR)%N && (d =? LF)%N).
    + cbn [pos rest]. replace (S (S q) =? q - length piece) with false
        by (symmetry; apply Nat.eqb_neq; lia).
      rewrite IH by (simpl in Hf; lia). reflexivity.
    + apply IH. lia.
Qed.

Lemma split_newline s : split_re s re_newline = Ok (lines s).
Proof.
  unfold split_re, lines. destruct s as [|c s']; [reflexivity|].
  apply split_loop_newline. simpl. lia.
Qed.

Lemma fields_aux_skip : forall s,
  fields_aux true [] s = fields_aux false [] (dropWhile is_space s).
Proof.
  induction s as [|c s' IH]; [reflexivity|].
  cbn [fields_aux dropWhile]. destruct (is_space c) eqn:E; [exact IH|].
  cbn [fields_aux]. rewrite E. reflexivity.
Qed.

Lemma dropWhile_length p s : length (dropWhile p s) <= length s.
Proof. induction s as [|c s' IH]; simpl; [lia|]. destruct (p c); simpl; lia. Qed.

(** [split(/\s+/)] never runs out of fuel and yields [fields]. *)
Lemma split_loop_spaces : forall fuel s q piece,
  length s < fuel ->
  split_loop re_spaces fuel q piece s = Ok (fields_aux false piece s).
Proof.
  induction fuel as [|fuel IH]; intros s q piece Hf; [lia|].
  cbn [split_loop]. destruct s as [|c s']; [reflexivity|].
  rewrite sticky_spaces. cbn [fields_aux]. simpl in Hf.
  destruct (is_space c).
  - cbn [pos rest].
    replace (S q + length (takeWhile is_space s') =? q - length piece) with false
      by (symmetry; apply Nat.eqb_neq; lia).
    rewrite IH by (pose proof (dropWhile_length is_space s'); lia).
    rewrite fields_aux_skip. reflexivity.
  - apply IH. lia.
Qed.

Lemma split_spaces s : split_re s re_spaces = Ok (fields s).
Proof.
  unfold split_re, fields. destruct s as [|c s']; [reflexivity|].
  apply split_loop_spaces. simpl. lia.
Qed.

End Splitting.

(** ** Fields and trimmed lines *)

Section Fields.

Lemma dropWhile_head p s :
  match dropWhile p s with [] => True | c :: _ => p c = false end.
Proof. induction s as [|c s IH]; simpl; [exact I|]. destruct (p c) eqn:E; [exact IH | exact E]. Qed.

Lemma dropWhile_suffix p s : exists x, s = x ++ dropWhile p s.
Proof.
  induction s as [|c s [x IH]]; simpl; [exists []; reflexivity|].
  destruct (p c); [exists (c :: x); simpl; congruence | exists []; reflexivity].
Qed.

Lemma last_cons_ne (a : char) l d : l <> [] -> last (a :: l) d = last l d.
Proof. destruct l; [congruence | reflexivity]. Qed.

Lemma last_app_cons (x : jsstring) c w d : last (x ++ c :: w) d = last (c :: w) d.
Proof.
  induction x as [|a x IH]; [reflexivity|].
  change ((a :: x) ++ c :: w) with (a :: (x ++ c :: w)).
  rewrite last_cons_ne; [exact IH | destruct x; discriminate].
Qed.

Lemma last_snoc (x : jsstring) c d : last (x ++ [c]) d = c.
Proof. rewrite last_app_cons. reflexivity. Qed.

(** [trim] leaves nothing, or a text that neither starts nor ends with
    white space. *)
Lemma trim_trimmed s : trim s <> [] -> trimmed (trim s).
Proof.
  unfold trim. intros Hne.
  set (u := dropWhile is_space s) in *.
  pose proof (dropWhile_head is_space (rev u)) as Hw.
  destruct (dropWhile_suffix is_space (rev u)) as [x Hx].
  destruct (dropWhile is_space (rev u)) as [|c w] eqn:Ew; [exfalso; apply Hne; reflexivity|].
  assert (Hu : u = rev w ++ c :: rev x).
  { rewrite <- (rev_involutive u), Hx, rev_app_distr. simpl. rewrite <- app_assoc. reflexivity. }
  pose proof (dropWhile_head is_space s) as Hs. fold u in Hs.
  unfold trimmed. cbn [rev]. destruct (rev w ++ [c]) as [|a t] eqn:E.
  { destruct (rev w); discriminate. }
  split.
  - rewrite Hu in Hs. destruct (rev w) as [|b w']; simpl in E, Hs; injection E as <- _; assumption.
  - rewrite <- E. rewrite last_snoc. exact Hw.
Qed.

Lemma fields_aux_no_space : forall s skipping piece,
  no_space piece -> Forall no_space (fields_aux skipping piece s).
Proof.
  induction s as [|c s IH]; intros skipping piece Hp; cbn [fields_aux].
  - constructor; [|constructor]. unfold no_space. apply Forall_rev. exact Hp.
  - destruct (is_space c) eqn:E.
    + destruct skipping; [apply IH; exact Hp|].
      constructor; [unfold no_space; apply Forall_rev; exact Hp | apply IH; constructor].
    + apply IH. constructor; assumption.
Qed.

Lemma rev_nonempty (A : Type) (l : list A) : l <> [] -> rev l <> [].
Proof. destruct l; [congruence|]. simpl. intros _ H. destruct (rev l); discriminate. Qed.

Lemma fields_aux_nonempty : forall s skipping piece,
  (s = [] -> piece <> []) ->
  is_space (last s 0%N) = false ->
  (skipping = false -> piece = [] -> match s with c :: _ => is_space c = false | [] => True end) ->
  (skipping = true -> piece = []) ->
  Forall (fun f => f <> []) (fields_aux skipping piece s).
Proof.
  induction s as [|c s IH]; intros skipping piece H1 H2 H3 H4; cbn [fields_aux].
  - constructor; [|constructor]. apply rev_nonempty. auto.
  - assert (Hlast : s <> [] -> is_space (last s 0%N) = false).
    { intros Hs. destruct s; [congruence|]. exact H2. }
    destruct (is_space c) eqn:E.
    + assert (Hs : s <> []). { intros ->. simpl in H2. congruence. }
      destruct skipping.
      * apply IH; auto; try congruence.
      * assert (piece <> []). { intros ->. specialize (H3 eq_refl eq_refl). congruence. }
        constructor; [apply rev_nonempty; assumption|].
        apply IH; auto; try congruence.
    + apply IH; try congruence.
      * destruct s; [reflexivity | exact H2].
Qed.

(** The fields of a trimmed line are tokens. *)
Lemma fields_trimmed s : trimmed s -> Forall token (fields s).
Proof.
  intros Ht. unfold fields. destruct s as [|c s]; [destruct Ht|]. destruct Ht as [Hc Hl].
  apply Forall_forall. intros f Hf. split.
  - revert f Hf. apply Forall_forall. apply fields_aux_nonempty; auto; try congruence.
  - revert f Hf. apply Forall_forall. apply fields_aux_no_space. constructor.
Qed.

Lemma fields_aux_token : forall t piece r,
  no_space t ->
  fields_aux false piece (t ++ r) = fields_aux false (rev t ++ piece) r.
Proof.
  induction t as [|c t IH]; intros piece r Ht; [reflexivity|].
  inversion Ht as [|? ? Hc Ht']; subst.
  cbn [app fields_aux]. rewrite Hc, IH by assumption.
  cbn [rev]. rewrite <- app_assoc. reflexivity.
Qed.

Lemma fields_aux_sep_skip : forall sep r,
  Forall (fun c => is_space c = true) sep ->
  fields_aux true [] (sep ++ r) = fields_aux true [] r.
Proof.
  induction sep as [|c sep IH]; intros r Hs; [reflexivity|].
  inversion Hs as [|? ? Hc Hs']; subst. cbn [app fields_aux]. rewrite Hc. apply IH. assumption.
Qed.

Lemma fields_aux_true_token t r :
  token t -> fields_aux true [] (t ++ r) = fields_aux false [] (t ++ r).
Proof.
  intros [Hne Hns]. destruct t as [|c t]; [congruence|].
  inversion Hns; subst. cbn [app fields_aux]. rewrite H1. reflexivity.
Qed.

Lemma fields_aux_unwords : forall ws piece,
  Forall (fun st => separator (fst st) /\ token (snd st)) ws ->
  fields_aux false piece (unwords ws) = rev piece :: List.map snd ws.
Proof.
  induction ws as [|[sep tok] ws IH]; intros piece H; [reflexivity|].
  inversion H as [|? ? [[Hne Hsp] Htok] H']; subst. cbn [fst snd] in *.
  cbn [unwords List.map snd].
  destruct sep as [|c sep]; [congruence|]. inversion Hsp; subst.
  cbn [app fields_aux]. rewrite H2. f_equal.
  rewrite fields_aux_sep_skip by assumption.
  rewrite fields_aux_true_token by assumption.
  rewrite fields_aux_token by apply Htok.
  rewrite IH by assumption. rewrite app_nil_r, rev_involutive. reflexivity.
Qed.

Lemma fields_unwords t ws :
  no_space t ->
  Forall (fun st => separator (fst st) /\ token (snd st)) ws ->
  fields (t ++ unwords ws) = t :: List.map snd ws.
Proof.
  intros Ht H. unfold fields. rewrite fields_aux_token by assumption.
  rewrite fields_aux_unwords by assumption. rewrite app_nil_r, rev_involutive. reflexivity.
Qed.

Lemma join_unwords : forall t ts,
  join [SP] (t :: ts) = t ++ unwords (List.map (fun tok => ([SP], tok)) ts).
Proof.
  intros t ts. revert t. induction ts as [|t' ts IH]; intros t.
  - simpl. rewrite app_nil_r. reflexivity.
  - change (join [SP] (t :: t' :: ts)) with (t ++ [SP] ++ join [SP] (t' :: ts)).
    rewrite IH. reflexivity.
Qed.

(** Joining tokens with a blank and splitting again gives them back. *)
Lemma fields_join ts : ts <> [] -> Forall token ts -> fields (join [SP] ts) = ts.
Proof.
  intros Hne H. destruct ts as [|t ts]; [congruence|]. inversion H; subst.
  rewrite join_unwords, fields_unwords.
  - rewrite map_map. simpl. rewrite map_id. reflexivity.
  - apply H2.
  - apply Forall_forall. intros [sep tok] Hin. apply in_map_iff in Hin.
    destruct Hin as (tok' & E & Hin). injection E as <- <-. simpl. split.
    + split; [discriminate | repeat constructor].
    + rewrite Forall_forall in H3. auto.
Qed.

End Fields.

(** ** The device list *)

Section Devices.

Lemma add_token_eq tok info : add_token tok info = Ok (set_token info tok).
Proof.
  unfold add_token, set_token. destruct (split_chr COLON tok) as [|k [|v kv]]; try reflexivity.
  cbn [nth_error to_key]. destruct (truthy v); reflexivity.
Qed.

Lemma for_of_add_token : forall toks info,
  for_of toks add_token info = Ok (fold_left set_token toks info).
Proof.
  induction toks as [|tok toks IH]; intros info; [reflexivity|].
  cbn [for_of fold_left]. rewrite add_token_eq. cbn [bind]. apply IH.
Qed.

Lemma truthy_nonempty s : s <> [] -> truthy s = true.
Proof. destruct s; [congruence | reflexivity]. Qed.

(** One round of the outer loop on a trimmed line. *)
Lemma device_line_eq l acc :
  trimmed l ->
  device_line l acc =
  Ok (acc ++ if is_header l then []
             else match record_of_line l with Some r => [r] | None => [] end).
Proof.
  intros Ht. unfold device_line, is_header, record_of_line.
  destruct (startsWith l devices_header); [rewrite app_nil_r; reflexivity|].
  rewrite split_spaces. cbn [bind].
  pose proof (@fields_trimmed l Ht) as Hf.
  destruct (fields l) as [|serial [|state tail]].
  - cbn. rewrite app_nil_r. reflexivity.
  - cbn [nth_error truthy_opt]. rewrite orb_true_r, app_nil_r. reflexivity.
  - inversion Hf as [|? ? [Hs _] Hf']; subst. inversion Hf' as [|? ? [Hst _] Htail]; subst.
    cbn [nth_error truthy_opt skipn].
    rewrite (@truthy_nonempty serial Hs), (@truthy_nonempty state Hst). cbn [negb orb].
    rewrite split_spaces. cbn [bind]. rewrite for_of_add_token. cbn [bind].
    destruct tail as [|t tail'].
    + reflexivity.
    + rewrite fields_join by (assumption || discriminate). reflexivity.
Qed.

Lemma for_of_device_line : forall ls acc,
  Forall trimmed ls ->
  for_of ls device_line acc =
  Ok (acc ++ flat_map (fun l => match record_of_line l with Some r => [r] | None => [] end)
               (filter (fun l => negb (is_header l)) ls)).
Proof.
  induction ls as [|l ls IH]; intros acc H.
  - simpl. rewrite app_nil_r. reflexivity.
  - inversion H; subst. cbn [for_of]. rewrite device_line_eq by assumption. cbn [bind].
    rewrite IH by assumption. cbn [filter]. destruct (is_header l); cbn [negb flat_map].
    + rewrite app_nil_r. reflexivity.
    + rewrite <- app_assoc. reflexivity.
Qed.

Lemma trimmed_lines text : Forall trimmed (filter truthy (List.map trim (lines text))).
Proof.
  apply Forall_forall. intros l Hin. apply filter_In in Hin. destruct Hin as [Hin Ht].
  apply in_map_iff in Hin. destruct Hin as (x & <- & _).
  apply trim_trimmed. destruct (trim x); [discriminate | discriminate].
Qed.

(** The parser returns, and returns the records of the lines in order. *)
Lemma parseDevicesList_records text :
  parseDevicesList text = Ok (device_records text).
Proof.
  unfold parseDevicesList, device_records. rewrite split_newline. cbn [bind].
  rewrite for_of_device_line by apply trimmed_lines. reflexivity.
Qed.

End Devices.

(** ** Labelled values *)

Section Labels.

Lemma sticky_label label cls i s :
  sticky (label_re label cls) i s =
  let v := takeWhile cls (skipn (length label) s) in
  if startsWith s label && truthy v
  then Some (MState (i + length label + length v)
               (dropWhile cls (skipn (length label) s)) [(1, v)])
  else None.
Proof.
  unfold sticky, label_re. cbn [m]. rewrite m_Lit.
  destruct (startsWith s label); [|reflexivity]. cbn [andb].
  rewrite (m_ext (Plus true (Class cls)) _ _
             (fun y => Some (set_cap 1 (firstn (pos y - (i + length label))
                                          (skipn (length label) s)) y)))
    by reflexivity.
  rewrite m_plus_greedy_cls.
  destruct (skipn (length label) s) as [|c t] eqn:E; [reflexivity|].
  cbn [takeWhile dropWhile]. destruct (cls c); [|reflexivity].
  rewrite greedy_cls_total by discriminate.
  unfold set_cap. cbn [truthy pos rest caps length].
  replace (S (i + length label) + length (takeWhile cls t) - (i + length label))
    with (S (length (takeWhile cls t))) by lia.
  cbn [firstn]. rewrite firstn_takeWhile.
  replace (S (i + length label) + length (takeWhile cls t))
    with (i + length label + S (length (takeWhile cls t))) by lia.
  reflexivity.
Qed.

Lemma scan_label label cls : forall s i,
  match scan (label_re label cls) i s with
  | Some (_, _, y) =>
      get_cap 1 (caps y) = Some (label_value label cls s)
      /\ label_value label cls s <> []
  | None => label_value label cls s = []
  end.
Proof.
  induction s as [|c s IH]; intros i.
  - cbn [scan label_value]. rewrite sticky_label. cbv zeta.
    destruct (startsWith [] label && truthy _) eqn:E; cbn [caps get_cap Nat.eqb].
    + split; [reflexivity|]. apply andb_prop in E. destruct E as [_ E].
      destruct (takeWhile _ _); [discriminate | discriminate].
    + reflexivity.
  - cbn [scan label_value]. rewrite sticky_label. cbv zeta.
    destruct (startsWith (c :: s) label && truthy _) eqn:E; cbn [caps get_cap Nat.eqb].
    + split; [reflexivity|]. apply andb_prop in E. destruct E as [_ E].
      destruct (takeWhile _ _); [discriminate | discriminate].
    + apply IH.
Qed.

Lemma ngroups_Lit l : ngroups (Lit l) = 0.
Proof. induction l as [|c l IH]; [reflexivity | exact IH]. Qed.

Lemma ngroups_label label cls : ngroups (label_re label cls) = 1.
Proof. unfold label_re. cbn [ngroups Plus]. rewrite ngroups_Lit. reflexivity. Qed.

(** [get] on a labelled pattern: the value after the first match, or the
    default [''] of the call. *)
Lemma get_label label cls text :
  get text (label_re label cls) [] = label_value label cls text.
Proof.
  unfold get, str_match. pose proof (scan_label label cls text 0) as H.
  destruct (scan (label_re label cls) 0 text) as [[[j w] y]|].
  - destruct H as [H Hne]. rewrite ngroups_label. cbn [seq List.map arr_get nth_error].
    rewrite H. destruct (label_value label cls text); [congruence | reflexivity].
  - cbn [arr_get nth_error]. symmetry. exact H.
Qed.

Lemma takeWhile_Forall p s : Forall (fun c => p c = true) (takeWhile p s).
Proof.
  induction s as [|c s IH]; simpl; [constructor|].
  destruct (p c) eqn:E; constructor; assumption.
Qed.

Lemma label_value_class label cls : forall s,
  Forall (fun c => cls c = true) (label_value label cls s).
Proof.
  induction s as [|c s IH]; cbn [label_value]; cbv zeta;
    destruct (_ && _); auto using takeWhile_Forall.
Qed.

Lemma includes_cons s p c : includes (c :: s) p = false -> includes s p = false.
Proof. cbn [includes]. intros H. apply orb_false_elim in H. tauto. Qed.

Lemma includes_startsWith s p : includes s p = false -> startsWith s p = false.
Proof. destruct s; cbn [includes]; intros H; apply orb_false_elim in H; tauto. Qed.

(** Without the label in the text, the value is the default. *)
Lemma label_value_default label cls : forall s,
  includes s label = false -> label_value label cls s = [].
Proof.
  induction s as [|c s IH]; intros H; cbn [label_value]; cbv zeta;
    rewrite (includes_startsWith _ _ H); cbn [andb]; [reflexivity|].
  apply IH. eapply includes_cons; eauto.
Qed.

End Labels.

(** ** The enabled flag *)

Section Enabled.

Lemma m_Lit_x l x k :
  m (Lit l) x k = if startsWith (rest x) l then k (adv (length l) x) else None.
Proof. destruct x as [i s cs]. apply m_Lit. Qed.

Lemma m_star_lazy_x p x k :
  m (Star false (Class p)) x k = lazy_cls p k (pos x) (rest x) (caps x).
Proof. destruct x as [i s cs]. apply m_star_lazy_cls. Qed.

Lemma m_star_greedy_x p x k :
  m (Star true (Class p)) x k = greedy_cls p k (pos x) (rest x) (caps x).
Proof. destruct x as [i s cs]. apply m_star_greedy_cls. Qed.

Lemma is_some_orelse {A : Type} (a : option A) b :
  is_some (orelse a b) = is_some a || is_some (b tt).
Proof. destruct a; reflexivity. Qed.

Lemma scan_is_some r s i :
  is_some (scan r i s) =
  is_some (sticky r i s)
  || match s with [] => false | _ :: s' => is_some (scan r (S i) s') end.
Proof.
  destruct s as [|c s]; cbn [scan]; destruct (sticky r i _); cbn [is_some orb]; reflexivity.
Qed.

Lemma test_is_some r s : test r s = is_some (scan r 0 s).
Proof. unfold test. destruct (scan r 0 s); reflexivity. Qed.

Lemma sticky_Lit l i s : is_some (sticky (Lit l) i s) = startsWith s l.
Proof. unfold sticky. rewrite m_Lit. destruct (startsWith s l); reflexivity. Qed.

Lemma scan_Lit l : forall s i, is_some (scan (Lit l) i s) = includes s l.
Proof.
  induction s as [|c s IH]; intros i; rewrite scan_is_some, sticky_Lit; cbn [includes];
    [reflexivity | rewrite IH; reflexivity].
Qed.

(** A literal pattern tests for a substring. *)
Lemma test_Lit l s : test (Lit l) s = includes s l.
Proof. rewrite test_is_some. apply scan_Lit. Qed.

Lemma lazy_dot_is_some k f : forall s i cs,
  (forall y, is_some (k y) = f (rest y)) ->
  is_some (lazy_cls is_dot k i s cs) = on_line f s.
Proof.
  induction s as [|c s IH]; intros i cs Hk; cbn [lazy_cls on_line].
  - rewrite Hk. cbn [rest]. rewrite orb_false_r. reflexivity.
  - rewrite is_some_orelse, Hk. cbn [rest]. f_equal.
    destruct (is_dot c); [apply IH; exact Hk | reflexivity].
Qed.

Lemma m_Seq a b x k : m (Seq a b) x k = m a x (fun y => m b y k).
Proof. reflexivity. Qed.

Lemma m_Alt a b x k : m (Alt a b) x k = orelse (m a x k) (fun _ => m b x k).
Proof. reflexivity. Qed.

Lemma sticky_enabled_true i s :
  is_some (sticky re_enabled_true i s) =
  startsWith s (js "enabled=true") || flags_block_at s.
Proof.
  unfold sticky, re_enabled_true. rewrite m_Alt, is_some_orelse. f_equal.
  - rewrite m_Lit. destruct (startsWith _ _); reflexivity.
  - rewrite m_Seq, m_Lit. unfold flags_block_at.
    destruct (startsWith s (js "pkgFlags=[")); [|reflexivity]. cbn [andb].
    rewrite m_Seq, m_star_lazy_cls.
    apply lazy_dot_is_some. intros y.
    rewrite m_Seq, m_Lit_x. destruct (startsWith (rest y) (js "HAS_CODE")); [|reflexivity].
    cbn [andb]. rewrite m_Seq, m_star_lazy_x. unfold adv. cbn [pos rest caps].
    apply lazy_dot_is_some. intros z. cbn [m].
    destruct (rest z) as [|d t]; [reflexivity|]. cbn [startsWith].
    destruct (93 =? d)%N; reflexivity.
Qed.

Lemma scan_enabled_true : forall s i,
  is_some (scan re_enabled_true i s) =
  includes s (js "enabled=true") || has_flags_block s.
Proof.
  induction s as [|c s IH]; intros i; rewrite scan_is_some, sticky_enabled_true.
  - cbn [includes has_flags_block]. rewrite !orb_false_r. reflexivity.
  - rewrite IH. cbn [includes has_flags_block].
    destruct (startsWith (c :: s) (js "enabled=true")), (flags_block_at (c :: s)),
      (includes s (js "enabled=true")), (has_flags_block s); reflexivity.
Qed.

(** The flag is [true] when the text has [enabled=true] or a flags block
    with [HAS_CODE], else [false] when it has [enabled=false], else
    [null]. *)
Lemma enabled_direct text :
  (if test re_enabled_true text then Some true
   else if test re_enabled_false text then Some false
   else None) = enabled_of text.
Proof.
  unfold enabled_of, re_enabled_false. rewrite test_Lit, test_is_some, scan_enabled_true.
  reflexivity.
Qed.

End Enabled.

(** ** Permission sections *)

Section Sections.

Lemma m_Group n a x k :
  m (Group n a) x k =
  m a x (fun y => k (set_cap n (firstn (pos y - pos x) (rest x)) y)).
Proof. reflexivity. Qed.

Lemma is_any_true c : is_any c = true.
Proof. unfold is_any. apply orb_negb_r. Qed.

Lemma firstn_length_app (A : Type) (a b : list A) : firstn (length a) (a ++ b) = a.
Proof. rewrite firstn_app, Nat.sub_diag, firstn_all. simpl. apply app_nil_r. Qed.

(** The lazy group followed by the two newlines stops at the first pair. *)
Lemma lazy_any_cut i0 s0 cs : forall s pre i,
  s0 = pre ++ s -> i = i0 + length pre ->
  lazy_cls is_any
    (fun y => m (Lit [LF; LF]) (set_cap 1 (firstn (pos y - i0) s0) y) Some) i s cs =
  match cut_blank s with
  | Some (b, a) => Some (MState (i + length b + 2) a ((1, pre ++ b) :: cs))
  | None => None
  end.
Proof.
  induction s as [|c t IH]; intros pre i Hs Hi.
  - cbn [lazy_cls cut_blank]. rewrite m_Lit_x. reflexivity.
  - cbn [lazy_cls cut_blank]. rewrite m_Lit_x. unfold set_cap at 1. cbn [pos rest caps].
    destruct (startsWith (c :: t) [LF; LF]) eqn:E.
    + cbn [orelse]. unfold adv, set_cap. cbn [pos rest caps length].
      subst i s0. replace (i0 + length pre - i0) with (length pre) by lia.
      rewrite firstn_length_app, app_nil_r. f_equal. f_equal. lia.
    + cbn [orelse]. rewrite is_any_true.
      rewrite (IH (pre ++ [c]) (S i)).
      * destruct (cut_blank t) as [[b a]|]; [|reflexivity].
        rewrite <- app_assoc. cbn [length app]. f_equal. f_equal. lia.
      * rewrite <- app_assoc. exact Hs.
      * rewrite length_app. simpl. lia.
Qed.

Lemma section_tail_cut i s cs :
  section_tail (MState i s cs) =
  match cut_blank s with
  | Some (b, a) => Some (MState (i + length b + 2) a ((1, b) :: cs))
  | None => None
  end.
Proof.
  unfold section_tail. rewrite m_Seq, m_Group, m_star_lazy_cls. cbn [pos rest].
  rewrite (@lazy_any_cut i s cs s [] i); [reflexivity | reflexivity | simpl; lia].
Qed.

Lemma cut_blank_includes : forall s, is_some (cut_blank s) = includes s [LF; LF].
Proof.
  induction s as [|c t IH]; [reflexivity|].
  cbn [cut_blank includes]. destruct (startsWith (c :: t) [LF; LF]); [reflexivity|].
  cbn [orb]. rewrite <- IH. destruct (cut_blank t) as [[b a]|]; reflexivity.
Qed.

Lemma greedy_cls_none p k : forall s i cs,
  greedy_cls p k i s cs = None -> k (MState i s cs) = None.
Proof.
  destruct s as [|c t]; intros i cs H; cbn [greedy_cls] in H; [exact H|].
  destruct (p c); [|exact H]. destruct (greedy_cls p k (S i) t cs); [discriminate | exact H].
Qed.

(** The greedy white space before the group: when a pair of newlines
    follows the whole run, the group is the text up to it; otherwise the
    run is given back until a pair inside it is found, and the group is
    empty. *)
Lemma greedy_space_cut : forall s i cs,
  match cut_blank (dropWhile is_space s) with
  | Some (b, a) =>
      exists j, greedy_cls is_space section_tail i s cs = Some (MState j a ((1, b) :: cs))
  | None =>
      greedy_cls is_space section_tail i s cs = None
      \/ exists y, greedy_cls is_space section_tail i s cs = Some y
                   /\ caps y = (1, []) :: cs
  end.
Proof.
  induction s as [|c t IH]; intros i cs.
  - cbn [dropWhile cut_blank greedy_cls]. left. reflexivity.
  - cbn [dropWhile greedy_cls]. destruct (is_space c) eqn:E.
    + specialize (IH (S i) cs). destruct (cut_blank (dropWhile is_space t)) as [[b a]|].
      * destruct IH as [j IH]. exists j. rewrite IH. reflexivity.
      * destruct IH as [IH | (y & IH & Hy)].
        -- rewrite IH. cbn [orelse]. rewrite section_tail_cut.
           apply greedy_cls_none in IH. rewrite section_tail_cut in IH.
           cbn [cut_blank]. destruct (startsWith (c :: t) [LF; LF]).
           ++ right. eexists. split; reflexivity.
           ++ destruct (cut_blank t) as [[b a]|]; [discriminate | left; reflexivity].
        -- right. exists y. rewrite IH. split; [reflexivity | exact Hy].
    + rewrite section_tail_cut. destruct (cut_blank (c :: t)) as [[b a]|].
      * eexists. reflexivity.
      * left. reflexivity.
Qed.

Lemma greedy_space_includes : forall s i cs z,
  greedy_cls is_space section_tail i s cs = Some z -> includes s [LF; LF] = true.
Proof.
  induction s as [|c t IH]; intros i cs z H; cbn [greedy_cls] in H.
  - rewrite section_tail_cut in H. discriminate.
  - assert (Hk : section_tail (MState i (c :: t) cs) = Some z -> includes (c :: t) [LF; LF] = true).
    { rewrite section_tail_cut, <- cut_blank_includes. destruct (cut_blank (c :: t)); [reflexivity | discriminate]. }
    destruct (is_space c); [|auto].
    apply orelse_some in H. destruct H as [H | [_ H]]; [|auto].
    apply IH in H. cbn [includes]. rewrite H. apply orb_true_r.
Qed.

Lemma sticky_section header i s :
  sticky (re_section header) i s =
  if startsWith s header
  then greedy_cls is_space section_tail (i + length header) (skipn (length header) s) []
  else None.
Proof.
  unfold sticky, re_section. rewrite m_Seq, m_Lit.
  destruct (startsWith s header); [|reflexivity].
  rewrite m_Seq, m_star_greedy_cls. reflexivity.
Qed.

Lemma includes_skipn_cons n c t p :
  includes (skipn n (c :: t)) p = false -> includes (skipn n t) p = false.
Proof.
  revert c t. induction n as [|n IH]; intros c t H.
  - simpl in H. eapply includes_cons; eauto.
  - cbn [skipn] in H. destruct t as [|d t]; [rewrite skipn_nil in *; exact H|].
    cbn [skipn]. eapply IH; eauto.
Qed.

Lemma scan_section_none header : forall s i,
  includes (skipn (length header) s) [LF; LF] = false ->
  scan (re_section header) i s = None.
Proof.
  induction s as [|c t IH]; intros i H; cbn [scan]; rewrite sticky_section.
  - destruct (startsWith [] header); [|reflexivity].
    destruct (greedy_cls _ _ _ _ _) eqn:E; [|reflexivity].
    apply greedy_space_includes in E. congruence.
  - destruct (startsWith (c :: t) header).
    + destruct (greedy_cls _ _ _ _ _) eqn:E.
      * apply greedy_space_includes in E. congruence.
      * apply IH. eapply includes_skipn_cons; eauto.
    + apply IH. eapply includes_skipn_cons; eauto.
Qed.

Lemma includes_dropWhile p s q :
  includes s q = false -> includes (dropWhile p s) q = false.
Proof.
  induction s as [|c t IH]; intros H; cbn [dropWhile]; [exact H|].
  destruct (p c); [apply IH; eapply includes_cons; eauto | exact H].
Qed.

(** The section pattern finds the body of the section, or an empty group
    where there is no body. *)
Lemma scan_section header : forall s i,
  match scan (re_section header) i s with
  | Some (_, _, y) =>
      exists b, get_cap 1 (caps y) = Some b
                /\ (section_body header s = Some b
                    \/ (b = [] /\ section_body header s = None))
  | None => section_body header s = None
  end.
Proof.
  assert (Step : forall s i,
    (match s with
     | [] => True
     | _ :: s' =>
         match scan (re_section header) (S i) s' with
         | Some (_, _, y) =>
             exists b, get_cap 1 (caps y) = Some b
                       /\ (section_body header s' = Some b
                           \/ (b = [] /\ section_body header s' = None))
         | None => section_body header s' = None
         end
     end) ->
    match scan (re_section header) i s with
    | Some (_, _, y) =>
        exists b, get_cap 1 (caps y) = Some b
                  /\ (section_body header s = Some b
                      \/ (b = [] /\ section_body header s = None))
    | None => section_body header s = None
    end).
  { intros s i IH. unfold section_body.
    replace (scan (re_section header) i s) with
      (match sticky (re_section header) i s with
       | Some y => Some (i, firstn (pos y - i) s, y)
       | None => match s with [] => None | _ :: s' => scan (re_section header) (S i) s' end
       end) by (destruct s; reflexivity).
    replace (after_first header s) with
      (if startsWith s header then Some (skipn (length header) s)
       else match s with [] => None | _ :: s' => after_first header s' end)
      by (destruct s; reflexivity).
    rewrite sticky_section. destruct (startsWith s header) eqn:Hsw.
    - pose proof (greedy_space_cut (skipn (length header) s) (i + length header) []) as G.
      destruct (cut_blank (dropWhile is_space (skipn (length header) s))) as [[b a]|] eqn:Ecut.
      + destruct G as [j G]. rewrite G. exists b. cbn [caps get_cap Nat.eqb]. auto.
      + destruct G as [G | (y & G & Hy)].
        * rewrite G. apply greedy_cls_none in G. rewrite section_tail_cut in G.
          assert (Hinc : includes (skipn (length header) s) [LF; LF] = false).
          { rewrite <- cut_blank_includes. revert G.
            destruct (cut_blank (skipn (length header) s)) as [[? ?]|]; [discriminate | reflexivity]. }
          destruct s as [|c t]; [reflexivity|].
          rewrite scan_section_none; [reflexivity|].
          eapply includes_skipn_cons; eauto.
        * rewrite G. exists []. rewrite Hy. cbn [get_cap Nat.eqb]. auto.
    - destruct s as [|c t]; [reflexivity|]. unfold section_body in IH. exact IH. }
  induction s as [|c t IH]; intros i; apply Step; [exact I | apply IH].
Qed.

Lemma ngroups_section header : ngroups (re_section header) = 1.
Proof. unfold re_section. cbn [ngroups]. rewrite !ngroups_Lit. reflexivity. Qed.

(** The lines a section contributes, for a filter that drops empty lines. *)
Lemma section_direct header text (keep : jsstring -> bool) :
  keep [] = false ->
  match str_match text (re_section header) with
  | Some a =>
      ls <- member_split (arr_get a 1) re_newline ;;
      Ok (filter keep (List.map trim ls))
  | None => Ok []
  end = Ok (filter keep (section_lines header text)).
Proof.
  intros Hk. unfold str_match, section_lines.
  pose proof (scan_section header text 0) as H.
  destruct (scan (re_section header) 0 text) as [[[j w] y]|].
  - destruct H as (b & Hb & H). rewrite ngroups_section.
    cbn [seq List.map arr_get nth_error]. rewrite Hb. cbn [member_split].
    rewrite split_newline. cbn [bind].
    destruct H as [-> | [-> ->]]; [reflexivity|].
    cbn. rewrite Hk. reflexivity.
  - rewrite H. reflexivity.
Qed.

(** The parser returns, and returns the details field by field. *)
Lemma parseDumpsysPackage_details text :
  parseDumpsysPackage text = Ok (package_details text).
Proof.
  unfold parseDumpsysPackage, package_details, requested_of, granted_of.
  unfold re_versionName, re_versionCode, re_appId, re_userId. rewrite !get_label.
  rewrite enabled_direct.
  unfold re_requested, re_granted.
  change (fun s : jsstring => truthy s && negb (includes s granted_true)) with keep_requested.
  rewrite (section_direct requested_header text keep_requested eq_refl). cbn [bind].
  rewrite (section_direct granted_header text truthy eq_refl). cbn [bind].
  reflexivity.
Qed.

End Sections.

(** ** The package list *)

Section Packages.

Lemma orelse_none {A : Type} (a : option A) : orelse a (fun _ => None) = a.
Proof. destruct a; reflexivity. Qed.

(** Under a continuation that refuses every state still inside the run,
    the greedy run is the longest one. *)
Lemma greedy_cls_maximal p k : forall s i cs,
  (forall i' c t cs', p c = true -> k (MState i' (c :: t) cs') = None) ->
  greedy_cls p k i s cs =
  k (MState (i + length (takeWhile p s)) (dropWhile p s) cs).
Proof.
  induction s as [|c t IH]; intros i cs Hk; cbn [greedy_cls takeWhile dropWhile].
  - simpl. rewrite Nat.add_0_r. reflexivity.
  - destruct (p c) eqn:E.
    + rewrite IH by assumption. rewrite (Hk i c t cs E), orelse_none. cbn [length].
      replace (S i + length (takeWhile p t)) with (i + S (length (takeWhile p t))) by lia.
      reflexivity.
    + simpl. rewrite Nat.add_0_r. reflexivity.
Qed.

Lemma dropWhile_nil_forallb p : forall s,
  match dropWhile p s with [] => true | _ :: _ => false end = forallb p s.
Proof. induction s as [|c t IH]; simpl; [reflexivity|]. destruct (p c); [exact IH | reflexivity]. Qed.

Lemma m_Chr c i s cs k :
  m (Chr c) (MState i s cs) k =
  match s with
  | d :: t => if (c =? d)%N then k (MState (S i) t cs) else None
  | [] => None
  end.
Proof. reflexivity. Qed.

Lemma m_Eol i s cs :
  m Eol (MState i s cs) Some =
  match s with [] => Some (MState i s cs) | _ :: _ => None end.
Proof. reflexivity. Qed.

Lemma greedy_dot_eol i s cs :
  greedy_cls is_dot (fun y => m Eol y Some) i s cs =
  if forallb is_dot s then Some (MState (i + length s) [] cs) else None.
Proof.
  rewrite greedy_cls_maximal by reflexivity. rewrite m_Eol.
  rewrite <- dropWhile_nil_forallb.
  pose proof (takeWhile_dropWhile is_dot s) as E.
  destruct (dropWhile is_dot s); [|reflexivity].
  rewrite app_nil_r in E. rewrite E. reflexivity.
Qed.

Lemma package_tail_eq i s cs :
  package_tail (MState i s cs) =
  match s with
  | [] => Some (MState i [] cs)
  | c :: suffix =>
      if (c =? 61)%N && forallb is_dot suffix
      then Some (MState (S i + length suffix) [] cs)
      else None
  end.
Proof.
  unfold package_tail, Opt. rewrite m_Seq, m_Alt.
  destruct s as [|c suffix]; [reflexivity|].
  replace (m Empty (MState i (c :: suffix) cs) (fun y => m Eol y Some))
    with (@None mstate) by reflexivity.
  rewrite orelse_none, m_Seq, m_Chr. rewrite (N.eqb_sym 61 c).
  destruct (c =? 61)%N; [|reflexivity]. cbn [andb].
  rewrite m_star_greedy_cls. apply greedy_dot_eol.
Qed.

Lemma package_tail_caps z y : package_tail z = Some y -> caps y = caps z.
Proof.
  destruct z as [i s cs]. rewrite package_tail_eq. destruct s as [|c suffix].
  - intros H. injection H as <-. reflexivity.
  - destruct (_ && _); [|discriminate]. intros H. injection H as <-. reflexivity.
Qed.

Lemma package_char_not_eq c : package_char c = true -> (c =? 61)%N = false.
Proof.
  intros H. destruct (N.eqb_spec c 61) as [->|]; [discriminate H | reflexivity].
Qed.

Lemma m_Bol0 s cs k : m Bol (MState 0 s cs) k = k (MState 0 s cs).
Proof. reflexivity. Qed.

Lemma sticky_package s :
  match sticky re_package 0 s with
  | Some y => exists n, package_name s = Some n /\ get_cap 1 (caps y) = Some n
  | None => package_name s = None
  end.
Proof.
  unfold sticky, re_package, package_name. rewrite m_Seq, m_Bol0.
  rewrite m_Seq, m_Lit. destruct (startsWith s (js "package:")); [|reflexivity].
  rewrite m_Seq, m_Group. cbn [pos rest].
  set (i := 0 + length (js "package:")). set (r := skipn (length (js "package:")) s).
  fold package_tail.
  rewrite (m_ext (Plus true (Class package_char)) _ _
             (fun y => package_tail (set_cap 1 (firstn (pos y - i) r) y)))
    by reflexivity.
  cbv zeta. rewrite m_plus_greedy_cls.
  destruct r as [|c t]; [reflexivity|]. cbn [takeWhile dropWhile].
  destruct (package_char c) eqn:Ec; [|reflexivity].
  rewrite greedy_cls_maximal.
  - unfold set_cap at 1. cbn [pos rest caps truthy andb].
    pose proof (package_tail_eq (S i + length (takeWhile package_char t))
                  (dropWhile package_char t)
                  [(1, firstn (S i + length (takeWhile package_char t) - i) (c :: t))]) as E.
    destruct (package_tail _) as [y|] eqn:Ey.
    + assert (Ht : match dropWhile package_char t with
                   | [] => true
                   | c0 :: suffix => (c0 =? 61)%N && forallb is_dot suffix
                   end = true).
      { destruct (dropWhile package_char t) as [|c0 suffix]; [reflexivity|].
        destruct (_ && _); [reflexivity | discriminate E]. }
      rewrite Ht. eexists. split; [reflexivity|].
      apply package_tail_caps in Ey. rewrite Ey. cbn [caps get_cap Nat.eqb].
      replace (S i + length (takeWhile package_char t) - i)
        with (S (length (takeWhile package_char t))) by lia.
      cbn [firstn]. rewrite firstn_takeWhile. reflexivity.
    + destruct (dropWhile package_char t) as [|c0 suffix]; [discriminate E|].
      destruct (_ && _); [discriminate E | reflexivity].
  - intros i' c' t' cs' Hc'. unfold set_cap. cbn [pos rest caps].
    rewrite package_tail_eq, (package_char_not_eq _ Hc'). reflexivity.
Qed.

Lemma scan_bol r : forall s i, scan (Seq Bol r) (S i) s = None.
Proof. induction s as [|c s IH]; intros i; cbn [scan]; [reflexivity | apply IH]. Qed.

Lemma str_match_package line :
  match str_match line re_package with
  | Some a => exists n, package_name line = Some n /\ arr_get a 1 = Some n
  | None => package_name line = None
  end.
Proof.
  unfold str_match. pose proof (sticky_package line) as H.
  replace (scan re_package 0 line) with
    (match sticky re_package 0 line with
     | Some y => Some (0, firstn (pos y - 0) line, y)
     | None => None
     end).
  - destruct (sticky re_package 0 line) as [y|]; [|exact H].
    destruct H as (n & Hn & Hc). exists n. split; [exact Hn|].
    unfold re_package. cbn [ngroups Plus Opt]. rewrite ngroups_Lit.
    cbn [Nat.add seq List.map arr_get nth_error]. exact Hc.
  - destruct line as [|c t]; cbn [scan]; destruct (sticky re_package 0 _); try reflexivity.
    unfold re_package. rewrite scan_bol. reflexivity.
Qed.

Lemma for_of_package_lines : forall ls out,
  for_of ls
    (fun line out =>
       match str_match line re_package with
       | Some m_ => Ok (out ++ [{| package := arr_get m_ 1 |}])
       | None => Ok out
       end) out =
  Ok (out ++ flat_map
               (fun line =>
                  match package_name line with
                  | Some n => [{| package := Some n |}]
                  | None => []
                  end) ls).
Proof.
  induction ls as [|l ls IH]; intros out.
  - simpl. rewrite app_nil_r. reflexivity.
  - cbn [for_of flat_map]. pose proof (str_match_package l) as H.
    destruct (str_match l re_package) as [a|].
    + destruct H as (n & -> & ->). cbn [bind]. rewrite IH, <- app_assoc. reflexivity.
    + rewrite H. cbn [bind]. apply IH.
Qed.

(** The parser returns, and returns the names of the package lines. *)
Lemma parsePackageList_names text :
  parsePackageList text = Ok (package_list text).
Proof.
  unfold parsePackageList, package_list. rewrite split_newline. cbn [bind].
  apply for_of_package_lines.
Qed.

End Packages.

(** ** Well-formed results *)

Section WellFormed.

Lemma str_eqb_eq a b : str_eqb a b = true <-> a = b.
Proof. unfold str_eqb. destruct (list_eq_dec N.eq_dec a b); split; congruence. Qed.

Lemma str_eqb_refl a : str_eqb a a = true.
Proof. apply str_eqb_eq. reflexivity. Qed.

Lemma str_eqb_neq a b : a <> b -> str_eqb a b = false.
Proof. unfold str_eqb. destruct (list_eq_dec N.eq_dec a b); congruence. Qed.

Lemma obj_get_update (V : Type) key k (v : V) : forall o,
  obj_get key (obj_update k v o) =
  match obj_get key o with
  | Some w => if str_eqb k key then Some v else Some w
  | None => None
  end.
Proof.
  induction o as [|[k' v'] o IH]; [reflexivity|]. cbn [obj_update obj_get].
  destruct (str_eqb k k') eqn:Ek; cbn [obj_get].
  - apply str_eqb_eq in Ek. subst k'. destruct (str_eqb key k) eqn:E.
    + apply str_eqb_eq in E. subst key. rewrite str_eqb_refl. reflexivity.
    + destruct (obj_get key o); [|reflexivity].
      rewrite str_eqb_neq; [reflexivity|]. intros ->. rewrite str_eqb_refl in E. discriminate.
  - destruct (str_eqb key k') eqn:E.
    + apply str_eqb_eq in E. subst key. rewrite Ek. reflexivity.
    + exact IH.
Qed.

Lemma obj_get_app (V : Type) key : forall (o o' : obj V),
  obj_get key (o ++ o') =
  match obj_get key o with Some w => Some w | None => obj_get key o' end.
Proof.
  induction o as [|[k' v'] o IH]; intros o'; [reflexivity|]. cbn [app obj_get].
  destruct (str_eqb key k'); [reflexivity | apply IH].
Qed.

Lemma obj_update_values (V : Type) (P : V -> Prop) k v : forall (o : obj V),
  P v -> Forall (fun kv => P (snd kv)) o ->
  Forall (fun kv => P (snd kv)) (obj_update k v o).
Proof.
  induction o as [|[k' v'] o IH]; intros Hv H; [constructor|].
  inversion H; subst. cbn [obj_update]. destruct (str_eqb k k'); constructor; auto.
Qed.

(** Setting a field to a non-empty string keeps a field that holds one. *)
Lemma obj_set_keeps key k (v : jsstring) (o : obj jsstring) :
  v <> [] ->
  (exists s, obj_get key o = Some s /\ s <> []) ->
  exists s, obj_get key (obj_set k v o) = Some s /\ s <> [].
Proof.
  intros Hv (s & Hs & Hne). unfold obj_set.
  destruct (str_eqb k PROTO); [eauto|].
  destruct (obj_has k o).
  - rewrite obj_get_update, Hs. destruct (str_eqb k key); eauto.
  - rewrite obj_get_app, Hs. eauto.
Qed.

Lemma obj_set_values k (v : jsstring) (o : obj jsstring) :
  v <> [] -> Forall (fun kv => snd kv <> []) o ->
  Forall (fun kv => snd kv <> []) (obj_set k v o).
Proof.
  intros Hv H. unfold obj_set. destruct (str_eqb k PROTO); [exact H|].
  destruct (obj_has k o).
  - apply (obj_update_values (fun s => s <> [])); assumption.
  - apply Forall_app. split; [exact H | repeat constructor; exact Hv].
Qed.

Lemma set_token_wf info tok : wf_device info -> wf_device (set_token info tok).
Proof.
  intros (H1 & H2 & H3). unfold set_token.
  destruct (split_chr COLON tok) as [|k [|v more]]; try (repeat split; assumption).
  destruct v as [|c v]; cbn [truthy]; [repeat split; assumption|].
  repeat split; [apply obj_set_keeps | apply obj_set_keeps | apply obj_set_values];
    (discriminate || assumption).
Qed.

Lemma fold_set_token_wf : forall toks info,
  wf_device info -> wf_device (fold_left set_token toks info).
Proof.
  induction toks as [|tok toks IH]; intros info H; [exact H|].
  cbn [fold_left]. apply IH, set_token_wf, H.
Qed.

Lemma record_of_line_wf l r : trimmed l -> record_of_line l = Some r -> wf_device r.
Proof.
  intros Ht. unfold record_of_line. pose proof (@fields_trimmed l Ht) as Hf.
  destruct (fields l) as [|serial [|state tail]]; try discriminate.
  inversion Hf as [|? ? [Hs _] Hf']; subst. inversion Hf' as [|? ? [Hst _] _]; subst.
  intros H. injection H as <-. apply fold_set_token_wf.
  repeat split.
  - exists serial. split; [reflexivity | exact Hs].
  - exists state. split; [reflexivity | exact Hst].
  - repeat constructor; assumption.
Qed.

Lemma device_records_wf text : Forall wf_device (device_records text).
Proof.
  unfold device_records. apply Forall_forall. intros r Hin.
  apply in_flat_map in Hin. destruct Hin as (l & Hl & Hr).
  apply filter_In in Hl. destruct Hl as [Hl _].
  pose proof (trimmed_lines text) as Ht. rewrite Forall_forall in Ht. specialize (Ht l Hl).
  destruct (record_of_line l) as [r'|] eqn:E; [|destruct Hr].
  destruct Hr as [<- | []]. eapply record_of_line_wf; eauto.
Qed.

Lemma package_name_wf line n :
  package_name line = Some n -> n <> [] /\ Forall (fun c => package_char c = true) n.
Proof.
  unfold package_name. destruct (startsWith line (js "package:")); [|discriminate].
  cbv zeta. destruct (truthy _ && _) eqn:E; [|discriminate].
  intros H. injection H as <-. apply andb_prop in E. destruct E as [E _]. split.
  - destruct (takeWhile _ _); [discriminate | discriminate].
  - apply takeWhile_Forall.
Qed.

Lemma package_list_wf text : Forall wf_package (package_list text).
Proof.
  unfold package_list. apply Forall_forall. intros p Hin.
  apply in_flat_map in Hin. destruct Hin as (l & _ & Hp).
  destruct (package_name l) as [n|] eqn:E; [|destruct Hp].
  destruct Hp as [<- | []]. exists n. split; [reflexivity|]. eapply package_name_wf; eauto.
Qed.

Lemma filter_nonempty (keep : jsstring -> bool) l :
  (forall s, keep s = true -> s <> []) -> Forall (fun s => s <> []) (filter keep l).
Proof.
  intros H. apply Forall_forall. intros s Hin. apply filter_In in Hin. apply H, Hin.
Qed.

Lemma package_details_wf text : wf_details (package_details text).
Proof.
  unfold wf_details, package_details. cbn.
  repeat split; try apply label_value_class.
  - apply filter_nonempty. intros s H. unfold keep_requested in H.
    destruct s; [discriminate | discriminate].
  - apply filter_nonempty. intros s H. destruct s; [discriminate | discriminate].
Qed.

Lemma startsWith_app s p q : startsWith s (p ++ q) = true -> startsWith s p = true.
Proof.
  revert s. induction p as [|a p IH]; intros s H; [reflexivity|].
  cbn [app startsWith] in *. destruct s as [|b s]; [discriminate|].
  apply andb_prop in H. destruct H as [-> H]. cbn [andb]. apply IH, H.
Qed.

Lemma includes_app_false p q : forall s,
  includes s p = false -> includes s (p ++ q) = false.
Proof.
  induction s as [|c s IH]; intros H; cbn [includes] in *;
    apply orb_false_elim in H; destruct H as [H1 H2].
  - destruct (startsWith [] (p ++ q)) eqn:E; [|reflexivity].
    apply startsWith_app in E. congruence.
  - rewrite (IH H2), orb_false_r.
    destruct (startsWith (c :: s) (p ++ q)) eqn:E; [|reflexivity].
    apply startsWith_app in E. congruence.
Qed.

Lemma after_first_none header : forall s,
  includes s header = false -> after_first header s = None.
Proof.
  induction s as [|c s IH]; intros H; cbn [after_first];
    rewrite (includes_startsWith _ _ H); [reflexivity|].
  apply IH. eapply includes_cons; eauto.
Qed.

Lemma section_lines_none header text :
  includes text header = false -> section_lines header text = [].
Proof.
  intros H. unfold section_lines, section_body. rewrite after_first_none by exact H. reflexivity.
Qed.

Lemma enabled_of_none text :
  includes text (js "enabled=") = false -> has_flags_block text = false ->
  enabled_of text = None.
Proof.
  intros H Hf. unfold enabled_of. rewrite Hf.
  change (js "enabled=true") with (js "enabled=" ++ js "true").
  change (js "enabled=false") with (js "enabled=" ++ js "false").
  rewrite !includes_app_false by exact H. reflexivity.
Qed.

End WellFormed.

(** ** The parsers return *)

(** C1. For every input string, [parseDevicesList], [parsePackageList] and
    [parseDumpsysPackage] return without throwing and without running out
    of fuel, and what they return is well formed: every device record has
    a non-empty serial and state and only non-empty string fields, every
    package record a non-empty name, and the package details hold runs of
    the expected classes and non-empty permission lines. A field whose
    label is missing from the text takes its default: the empty string,
    [null], or the empty list; the empty text gives the empty lists and
    the default details. *)
Theorem C1_parsers_total :
  (forall text : jsstring,
     (exists l, parseDevicesList text = Ok l /\ Forall wf_device l)
     /\ (exists l, parsePackageList text = Ok l /\ Forall wf_package l)
     /\ (exists d, parseDumpsysPackage text = Ok d /\ wf_details d
           /\ (includes text (js "versionName=") = false -> versionName d = [])
           /\ (includes text (js "versionCode=") = false -> versionCode d = [])
           /\ (includes text (js "appId=") = false -> appId d = [])
           /\ (includes text (js "userId=") = false -> userId d = [])
           /\ (includes text (js "enabled=") = false ->
               has_flags_block text = false -> enabled d = None)
           /\ (includes text requested_header = false -> requested d = [])
           /\ (includes text granted_header = false -> granted d = [])))
  /\ parseDevicesList [] = Ok []
  /\ parsePackageList [] = Ok []
  /\ parseDumpsysPackage [] = Ok default_details.
Proof.
  split; [|repeat split; reflexivity].
  intros text. split; [|split].
  - exists (device_records text). split; [apply parseDevicesList_records | apply device_records_wf].
  - exists (package_list text). split; [apply parsePackageList_names | apply package_list_wf].
  - exists (package_details text). split; [apply parseDumpsysPackage_details|].
    split; [apply package_details_wf|].
    unfold package_details; cbn [versionName versionCode appId userId enabled requested granted].
    repeat split; try (apply label_value_default).
    + apply enabled_of_none.
    + intros H. unfold requested_of. rewrite section_lines_none by exact H. reflexivity.
    + intros H. unfold granted_of. rewrite section_lines_none by exact H. reflexivity.
Qed.

Lemma C1_parsers_total_witness :
  let text := js "Unable to find package: com.example.app" in
  exists d, parseDumpsysPackage text = Ok d
            /\ versionName d = [] /\ versionCode d = [] /\ appId d = []
            /\ userId d = [] /\ enabled d = None
            /\ requested d = [] /\ granted d = [].
Proof.
  cbv zeta.
  destruct (proj1 C1_parsers_total (js "Unable to find package: com.example.app"))
    as (_ & _ & d & Hd & _ & H1 & H2 & H3 & H4 & H5 & H6 & H7).
  exists d. split; [exact Hd|].
  split; [apply H1; reflexivity|]. split; [apply H2; reflexivity|].
  split; [apply H3; reflexivity|]. split; [apply H4; reflexivity|].
  split; [apply H5; reflexivity|]. split; [apply H6; reflexivity|].
  apply H7; reflexivity.
Defined.

(** ** The command runner *)

(** C5, as stated, fails: on a normal exit the object returned has neither
    a [stderr] nor an [exitCode] field. *)
Lemma C5_counterexample :
  let r := {| res_stdout := js "ok"; res_stderr := js "warning"; res_exitCode := 0 |} in
  res_exitCode r = 0%Z
  /\ adbCmd (Resolved r) = [(js "ok", VBool true); (js "stdout", VStr (js "ok"))]
  /\ field (adbCmd (Resolved r)) (js "stderr") = VUndefined
  /\ field (adbCmd (Resolved r)) (js "exitCode") = VUndefined
  /\ ~ spec_success r (adbCmd (Resolved r)).
Proof.
  cbv zeta. repeat split; try reflexivity.
  intros (_ & _ & H & _). vm_compute in H. discriminate H.
Qed.

(** C5, amended. When the subprocess exits normally with code 0, the
    object returned has [ok] equal to [true] and [stdout] equal to the
    captured standard output, as text; it carries no [exitCode] and no
    [error] field. *)
Theorem C5_success_result (r : execa_result) :
  res_exitCode r = 0%Z ->
  let o := adbCmd (Resolved r) in
  field o (js "ok") = VBool true
  /\ field o (js "stdout") = VStr (res_stdout r)
  /\ field o (js "exitCode") = VUndefined
  /\ field o (js "error") = VUndefined.
Proof. intros _. cbv zeta. repeat split; reflexivity. Qed.

Lemma C5_success_result_witness :
  let r := {| res_stdout := js "List of devices attached"; res_stderr := [];
              res_exitCode := 0 |} in
  res_exitCode r = 0%Z
  /\ field (adbCmd (Resolved r)) (js "ok") = VBool true
  /\ field (adbCmd (Resolved r)) (js "stdout") = VStr (js "List of devices attached").
Proof.
  cbv zeta. split; [reflexivity|].
  pose proof (@C5_success_result
                {| res_stdout := js "List of devices attached"; res_stderr := [];
                   res_exitCode := 0 |} eq_refl) as H.
  cbv zeta in H. destruct H as (H1 & H2 & _). split; [exact H1 | exact H2].
Defined.

(** ** The log relay *)

Section Relay.

Lemma plain_tail c l : plain (c :: l) -> plain l.
Proof.
  intros [Hin Hl]. split.
  - intros H. apply Hin. right. exact H.
  - destruct l as [|d l]; [discriminate | exact Hl].
Qed.

Lemma lines_aux_noLF : forall l piece, ~ In LF l -> lines_aux piece l = [rev piece ++ l].
Proof.
  induction l as [|c l IH]; intros piece H.
  - cbn. rewrite app_nil_r. reflexivity.
  - assert (Hc : (c =? LF)%N = false).
    { apply N.eqb_neq. intros ->. apply H. left. reflexivity. }
    cbn [lines_aux]. rewrite Hc.
    assert (Hl : ~ In LF l) by (intros Hin; apply H; right; exact Hin).
    destruct l as [|d l'].
    + rewrite IH by exact Hl. cbn [rev]. rewrite <- app_assoc. reflexivity.
    + replace (d =? LF)%N with false
        by (symmetry; apply N.eqb_neq; intros ->; apply Hl; left; reflexivity).
      rewrite andb_false_r, IH by exact Hl. cbn [rev]. rewrite <- app_assoc. reflexivity.
Qed.

Lemma lines_noLF l : ~ In LF l -> lines l = [l].
Proof. intros H. unfold lines. rewrite lines_aux_noLF by exact H. reflexivity. Qed.

Lemma lines_aux_line b r : forall l piece,
  plain l ->
  lines_aux piece (l ++ eol b ++ r) = (rev piece ++ l) :: lines_aux [] r.
Proof.
  induction l as [|c l IH]; intros piece Hp.
  - rewrite app_nil_r. destruct b; reflexivity.
  - assert (Hc : (c =? LF)%N = false).
    { apply N.eqb_neq. intros ->. apply (proj1 Hp). left. reflexivity. }
    cbn [app lines_aux]. rewrite Hc.
    assert (E : exists d s'', l ++ eol b ++ r = d :: s'').
    { destruct l; [destruct b|]; cbn; eauto. }
    destruct E as (d & s'' & E). rewrite E.
    assert (Hd : (c =? CR)%N && (d =? LF)%N = false).
    { destruct (N.eqb_spec c CR) as [->|]; [|reflexivity].
      destruct (N.eqb_spec d LF) as [->|]; [|reflexivity]. exfalso.
      destruct l as [|d' l'].
      - destruct b; [discriminate E|]. apply (proj2 Hp). reflexivity.
      - injection E as E1 _. subst d'. apply (proj1 Hp). right. left. reflexivity. }
    rewrite Hd, <- E, IH by (eapply plain_tail; eauto).
    cbn [rev]. rewrite <- app_assoc. reflexivity.
Qed.

Lemma lines_chunk : forall ls,
  Forall (fun l => plain (fst l)) ls ->
  lines (chunk_of ls) = List.map fst ls ++ [[]].
Proof.
  unfold lines. induction ls as [|[l b] ls IH]; intros H; [reflexivity|].
  inversion H; subst. cbn [chunk_of flat_map fst snd List.map app].
  rewrite <- app_assoc, lines_aux_line by assumption.
  f_equal. apply IH. assumption.
Qed.

Lemma replace_loop_plain : forall fuel s q,
  length s < fuel -> ~ In LF s ->
  replace_loop re_newline [LF] fuel q s = Ok s.
Proof.
  induction fuel as [|fuel IH]; intros s q Hf Hin; [lia|].
  cbn [replace_loop]. rewrite sticky_newline.
  destruct s as [|c s']; [reflexivity|].
  assert (Hc : (c =? LF)%N = false).
  { apply N.eqb_neq. intros ->. apply Hin. left. reflexivity. }
  rewrite Hc.
  assert (Hs : match s' with
               | d :: s'' => if (c =? CR)%N && (d =? LF)%N
                             then Some (MState (S (S q)) s'' []) else None
               | [] => None
               end = None).
  { destruct s' as [|d s'']; [reflexivity|].
    replace (d =? LF)%N with false; [rewrite andb_false_r; reflexivity|].
    symmetry. apply N.eqb_neq. intros ->. apply Hin. right. left. reflexivity. }
  rewrite Hs, IH; [reflexivity | simpl in Hf; lia | intros H; apply Hin; right; exact H].
Qed.

(** On a line without LF, [send] writes the line as one event. *)
Lemma send_plain line res :
  ~ In LF line -> send line res = Ok (res ++ [event line]).
Proof.
  intros H. unfold send, replace_all. rewrite replace_loop_plain by (lia || assumption).
  reflexivity.
Qed.

Lemma for_of_send tag : forall ls res,
  ~ In LF tag ->
  Forall (fun l => ~ In LF l) ls ->
  for_of ls (fun ln res => if truthy ln then send (tag ++ ln) res else Ok res) res =
  Ok (res ++ List.map (fun l => event (tag ++ l)) (filter truthy ls)).
Proof.
  induction ls as [|l ls IH]; intros res Htag H.
  - simpl. rewrite app_nil_r. reflexivity.
  - inversion H; subst. cbn [for_of filter]. destruct (truthy l).
    + rewrite send_plain.
      * cbn [bind]. rewrite IH by assumption. cbn [List.map]. rewrite <- app_assoc. reflexivity.
      * intros Hin. apply in_app_or in Hin. tauto.
    + cbn [bind]. apply IH; assumption.
Qed.

Lemma stderr_tag_plain : ~ In LF stderr_tag.
Proof. vm_compute. intuition discriminate. Qed.

(** A line that ends within a chunk is one piece of the chunk. *)
Lemma lines_aux_ended b r : forall l piece,
  line_text (l, b) ->
  lines_aux piece (l ++ eol b ++ r) = (rev piece ++ l) :: lines_aux [] r.
Proof.
  induction l as [|c l IH]; intros piece [Hlf Hcr]; cbn [fst snd] in *.
  - rewrite app_nil_r. destruct b; reflexivity.
  - assert (Hc : (c =? LF)%N = false).
    { apply N.eqb_neq. intros ->. apply Hlf. left. reflexivity. }
    cbn [app lines_aux]. rewrite Hc.
    assert (E : exists d s'', l ++ eol b ++ r = d :: s'').
    { destruct l; [destruct b|]; cbn; eauto. }
    destruct E as (d & s'' & E). rewrite E.
    assert (Hd : (c =? CR)%N && (d =? LF)%N = false).
    { destruct (N.eqb_spec c CR) as [->|]; [|reflexivity].
      destruct (N.eqb_spec d LF) as [->|]; [|reflexivity]. exfalso.
      destruct l as [|d' l'].
      - destruct b; [discriminate E|]. apply Hcr; reflexivity.
      - injection E as E1 _. subst d'. apply Hlf. right. left. reflexivity. }
    rewrite Hd, <- E, IH.
    + cbn [rev]. rewrite <- app_assoc. reflexivity.
    + split; cbn [fst snd].
      * intros Hin. apply Hlf. right. exact Hin.
      * intros Hb. destruct l as [|d' l']; [discriminate | exact (Hcr Hb)].
Qed.

(** The pieces of a chunk: its lines, and the part that is cut. *)
Lemma lines_parted cut_ : forall ls,
  Forall line_text ls -> ~ In LF cut_ ->
  lines (chunk_of ls ++ cut_) = List.map fst ls ++ [cut_].
Proof.
  unfold lines. induction ls as [|[l b] ls IH]; intros H Hcut.
  - cbn [chunk_of flat_map app List.map]. rewrite lines_aux_noLF by exact Hcut. reflexivity.
  - inversion H; subst. cbn [chunk_of flat_map fst snd List.map app].
    rewrite <- !app_assoc, lines_aux_ended by assumption.
    f_equal. apply IH; assumption.
Qed.

Lemma parted_noLF (ls : list (jsstring * bool)) cut_ :
  Forall line_text ls -> ~ In LF cut_ ->
  Forall (fun l => ~ In LF l) (List.map fst ls ++ [cut_]).
Proof.
  intros H Hcut. apply Forall_app. split.
  - apply Forall_forall. intros l Hin. apply in_map_iff in Hin.
    destruct Hin as (x & <- & Hx). rewrite Forall_forall in H. apply (H x Hx).
  - constructor; [exact Hcut | constructor].
Qed.

(** One chunk: one event for each of its pieces that is not empty. *)
Lemma on_arrival_parted p res :
  well_parted p ->
  on_arrival (arrival_of_parted p) res =
  Ok (res ++ spec_forward (filter nonempty_line (pieces_of p))).
Proof.
  intros [H Hcut]. destruct p as [[ls|ls] c]; unfold pieces_of;
    cbn [arrival_of_parted on_arrival ended cut delivered emitted_of] in *.
  - unfold on_stdout_data. rewrite split_newline, lines_parted by assumption. cbn [bind].
    etransitivity;
      [exact (@for_of_send [] _ res (fun H0 => H0) (@parted_noLF ls c H Hcut))|].
    f_equal. f_equal. clear H Hcut.
    match goal with |- List.map ?f _ = _ => set (F := f) end.
    induction ls as [|[l b] ls IH].
    + cbn [List.map app filter nonempty_line]. destruct (truthy c); reflexivity.
    + cbn [List.map app filter fst nonempty_line].
      destruct (truthy l); cbn [List.map spec_forward]; rewrite IH; reflexivity.
  - unfold on_stderr_data. rewrite split_newline, lines_parted by assumption. cbn [bind].
    etransitivity;
      [exact (@for_of_send stderr_tag _ res stderr_tag_plain (@parted_noLF ls c H Hcut))|].
    f_equal. f_equal. clear H Hcut.
    match goal with |- List.map ?f _ = _ => set (F := f) end.
    induction ls as [|[l b] ls IH].
    + cbn [List.map app filter nonempty_line]. destruct (truthy c); reflexivity.
    + cbn [List.map app filter fst nonempty_line].
      destruct (truthy l); cbn [List.map spec_forward]; rewrite IH; reflexivity.
Qed.

Lemma for_of_parted : forall ps res,
  Forall well_parted ps ->
  for_of (List.map arrival_of_parted ps) on_arrival res =
  Ok (res ++ spec_forward (filter nonempty_line (flat_map pieces_of ps))).
Proof.
  induction ps as [|p ps IH]; intros res H.
  - simpl. rewrite app_nil_r. reflexivity.
  - inversion H; subst. cbn [List.map for_of flat_map].
    rewrite on_arrival_parted by assumption. cbn [bind]. rewrite IH by assumption.
    rewrite filter_app. unfold spec_forward. rewrite map_app, <- app_assoc. reflexivity.
Qed.

(** Every text is made of lines that end within it and of a part that is
    cut. *)
Lemma text_parted : forall s : jsstring,
  exists ls cut_,
    s = chunk_of ls ++ cut_ /\ Forall line_text ls /\ ~ In LF cut_.
Proof.
  induction s as [|c s IH].
  - exists [], []. split; [reflexivity|]. split; [constructor | intros []].
  - destruct IH as (ls & cut_ & -> & Hls & Hcut).
    destruct (N.eq_dec c LF) as [->|Hc].
    + exists (([], false) :: ls), cut_. split; [reflexivity|]. split; [|exact Hcut].
      constructor; [|exact Hls]. split; [intros [] | discriminate].
    + destruct ls as [|[l b] ls].
      * exists [], (c :: cut_). split; [reflexivity|]. split; [constructor|].
        intros [E|Hin]; [exact (Hc E) | exact (Hcut Hin)].
      * inversion Hls as [|x xs [Hlf Hcr] Hls']; subst. cbn [fst snd] in *.
        destruct l as [|d l].
        -- destruct b.
           ++ exists (([c], true) :: ls), cut_. split; [reflexivity|].
              split; [|exact Hcut]. constructor; [|exact Hls'].
              split; cbn [fst snd]; [intros [E|[]]; exact (Hc E) | discriminate].
           ++ destruct (N.eq_dec c CR) as [->|Hr].
              ** exists (([], true) :: ls), cut_. split; [reflexivity|].
                 split; [|exact Hcut]. constructor; [|exact Hls'].
                 split; cbn [fst snd]; [intros [] | discriminate].
              ** exists (([c], false) :: ls), cut_. split; [reflexivity|].
                 split; [|exact Hcut]. constructor; [|exact Hls'].
                 split; cbn [fst snd]; [intros [E|[]]; exact (Hc E) | intros _; exact Hr].
        -- exists ((c :: d :: l, b) :: ls), cut_. split; [reflexivity|].
           split; [|exact Hcut]. constructor; [|exact Hls'].
           split; cbn [fst snd].
           ++ intros [E|Hin]; [exact (Hc E) | exact (Hlf Hin)].
           ++ exact Hcr.
Qed.

(** Every arrival is a chunk of this form. *)
Lemma arrival_parted (a : arrival) :
  exists p, well_parted p /\ arrival_of_parted p = a.
Proof.
  destruct a as [chunk|chunk]; destruct (text_parted chunk) as (ls & c & -> & Hls & Hc).
  - exists (Parted (OutChunk ls) c). split; [split; assumption | reflexivity].
  - exists (Parted (ErrChunk ls) c). split; [split; assumption | reflexivity].
Qed.

End Relay.

(** C7, as stated, fails: an empty line of standard output is not forwarded
    at all. Three lines arrive in one chunk, two events are written. *)
Lemma C7_counterexample :
  let ds := [OutChunk [(js "a", false); ([], false); (js "b", false)]] in
  List.map arrival_of ds = [StdoutData (js "a" ++ [LF; LF] ++ js "b" ++ [LF])]
  /\ logcat (List.map arrival_of ds) = Ok [event (js "a"); event (js "b")]
  /\ spec_forward (flat_map emitted_of ds) = [event (js "a"); event []; event (js "b")]
  /\ logcat (List.map arrival_of ds) <> Ok (spec_forward (flat_map emitted_of ds)).
Proof.
  cbv zeta. repeat split; try reflexivity.
  vm_compute. discriminate.
Qed.

(** C7, amended. While the relay streams, whatever the chunks are: every
    line that is not empty and arrives whole within one data chunk is
    forwarded as exactly one event holding its text, the lines of standard
    error with ["[stderr] "] prepended, all in arrival order, hence each
    stream in its own order; an empty line is not forwarded. A chunk may
    begin and end anywhere: the lines that end within it and the part of a
    line that its end cuts are its pieces, and the events are those of the
    pieces that are not empty, one for each. *)
Theorem C7_whole_lines_forwarded (ps : list parted) :
  Forall well_parted ps ->
  logcat (List.map arrival_of_parted ps) =
  Ok (spec_forward (filter nonempty_line (flat_map pieces_of ps))).
Proof. intros H. unfold logcat. rewrite for_of_parted by exact H. reflexivity. Qed.

Lemma C7_whole_lines_forwarded_witness :
  let ps := [Parted (OutChunk [(js "I/app: started", false); ([], false)]) (js "D/app: re");
             Parted (ErrChunk [(js "waiting for device", true)]) [];
             Parted (OutChunk [(js "ady", true); (js "I/app: done", false)]) []] in
  Forall well_parted ps
  /\ List.map arrival_of_parted ps =
     [StdoutData (js "I/app: started" ++ [LF; LF] ++ js "D/app: re");
      StderrData (js "waiting for device" ++ [CR; LF]);
      StdoutData (js "ady" ++ [CR; LF] ++ js "I/app: done" ++ [LF])]
  /\ logcat (List.map arrival_of_parted ps) =
     Ok [event (js "I/app: started");
         event (js "D/app: re");
         event (js "[stderr] waiting for device");
         event (js "ady");
         event (js "I/app: done")].
Proof.
  cbv zeta.
  assert (H : Forall well_parted
                [Parted (OutChunk [(js "I/app: started", false); ([], false)]) (js "D/app: re");
                 Parted (ErrChunk [(js "waiting for device", true)]) [];
                 Parted (OutChunk [(js "ady", true); (js "I/app: done", false)]) []]).
  { repeat constructor; vm_compute; intuition discriminate. }
  split; [exact H|]. split; [reflexivity|].
  rewrite (@C7_whole_lines_forwarded _ H). reflexivity.
Defined.

(** ** The package details *)

Section Details.

Lemma startsWith_refl_app l x : startsWith (l ++ x) l = true.
Proof. induction l as [|c l IH]; [reflexivity|]. cbn [app startsWith]. rewrite N.eqb_refl. exact IH. Qed.

Lemma startsWith_eq : forall l s, startsWith s l = true -> s = l ++ skipn (length l) s.
Proof.
  induction l as [|a l IH]; intros s H; [reflexivity|].
  cbn [startsWith] in H. destruct s as [|b s]; [discriminate|].
  apply andb_prop in H. destruct H as [Hab H]. apply N.eqb_eq in Hab. subst b.
  cbn [length skipn app]. f_equal. apply IH, H.
Qed.

Lemma includes_true_iff p : forall s,
  includes s p = true <-> exists a b, s = a ++ p ++ b.
Proof.
  induction s as [|c s IH]; cbn [includes]; split.
  - rewrite orb_false_r. intros H. apply startsWith_eq in H. exists [], (skipn (length p) []). exact H.
  - intros (a & b & E). rewrite orb_false_r. destruct a; [|discriminate].
    destruct p; [reflexivity | discriminate].
  - intros H. apply orb_prop in H. destruct H as [H | H].
    + apply startsWith_eq in H. exists [], (skipn (length p) (c :: s)). exact H.
    + apply IH in H. destruct H as (a & b & ->). exists (c :: a), b. reflexivity.
  - intros (a & b & E). destruct a as [|c' a].
    + simpl in E. rewrite E, startsWith_refl_app. reflexivity.
    + injection E as -> ->. replace (includes (a ++ p ++ b) p) with true; [apply orb_true_r|].
      symmetry. apply IH. eauto.
Qed.

Lemma after_first_some header : forall s r,
  after_first header s = Some r -> exists a, s = a ++ header ++ r.
Proof.
  induction s as [|c s IH]; intros r H; cbn [after_first] in H.
  - destruct (startsWith [] header) eqn:E; [|discriminate]. injection H as <-.
    exists []. apply startsWith_eq, E.
  - destruct (startsWith (c :: s) header) eqn:E.
    + injection H as <-. exists []. apply startsWith_eq, E.
    + apply IH in H. destruct H as (a & ->). exists (c :: a). reflexivity.
Qed.

Lemma after_first_suffix header t : forall a,
  exists x, after_first header (a ++ header ++ t) = Some (x ++ t).
Proof.
  induction a as [|c a [x IH]].
  - exists []. cbn [app]. destruct (header ++ t) eqn:E.
    + destruct header; [|discriminate]. simpl in E. subst t. reflexivity.
    + rewrite <- E. cbn [after_first].
      replace (after_first header (header ++ t)) with (Some (skipn (length header) (header ++ t))).
      * rewrite skipn_app, Nat.sub_diag, skipn_all. reflexivity.
      * destruct (header ++ t) eqn:E'; cbn [after_first]; rewrite <- E', startsWith_refl_app; reflexivity.
  - cbn [app after_first]. destruct (startsWith (c :: a ++ header ++ t) header) eqn:E.
    + exists (skipn (length header) (c :: a ++ header)).
      change (c :: a ++ header ++ t) with ((c :: a) ++ header ++ t).
      rewrite (app_assoc (c :: a)), skipn_app.
      replace (length header - length ((c :: a) ++ header)) with 0
        by (rewrite length_app; lia).
      reflexivity.
    + exists x. exact IH.
Qed.

(** [followed_by_blank] says what it is meant to say. *)
Lemma followed_by_blank_iff header text :
  followed_by_blank header text = true <->
  exists a b c, text = a ++ header ++ b ++ [LF; LF] ++ c.
Proof.
  unfold followed_by_blank. split.
  - destruct (after_first header text) as [r|] eqn:E; [|discriminate].
    intros H. apply after_first_some in E. destruct E as (a & ->).
    apply includes_true_iff in H. destruct H as (b & c & ->). eauto.
  - intros (a & b & c & ->).
    destruct (after_first_suffix header (b ++ [LF; LF] ++ c) a) as [x ->].
    apply includes_true_iff. exists (x ++ b), c. rewrite <- app_assoc. reflexivity.
Qed.

Lemma section_body_blank header text :
  followed_by_blank header text = false -> section_body header text = None.
Proof.
  unfold followed_by_blank, section_body.
  destruct (after_first header text) as [r|]; [|reflexivity].
  intros H. apply (includes_dropWhile is_space) in H.
  rewrite <- cut_blank_includes in H.
  destruct (cut_blank (dropWhile is_space r)) as [[b a]|]; [discriminate | reflexivity].
Qed.

Lemma section_lines_blank header text :
  followed_by_blank header text = false -> section_lines header text = [].
Proof. intros H. unfold section_lines. rewrite section_body_blank by exact H. reflexivity. Qed.

Lemma takeWhile_app_stop p v post :
  Forall (fun c => p c = true) v ->
  match post with [] => True | c :: _ => p c = false end ->
  takeWhile p (v ++ post) = v.
Proof.
  intros Hv Hp. induction Hv as [|c v Hc Hv IH]; cbn [app takeWhile].
  - destruct post as [|c post]; [reflexivity|]. cbn [takeWhile]. rewrite Hp. reflexivity.
  - rewrite Hc, IH. reflexivity.
Qed.

Lemma startsWith_long : forall l u w,
  length l <= length u -> startsWith (u ++ w) l = startsWith u l.
Proof.
  induction l as [|a l IH]; intros u w H; [reflexivity|].
  destruct u as [|b u]; [simpl in H; lia|].
  cbn [app startsWith]. rewrite IH by (simpl in H; lia). reflexivity.
Qed.

Lemma label_value_unfold label cls s :
  label_value label cls s =
  let v := takeWhile cls (skipn (length label) s) in
  if startsWith s label && truthy v then v
  else match s with [] => [] | _ :: s' => label_value label cls s' end.
Proof. destruct s; reflexivity. Qed.

(** The value of a label that first occurs in front of a run [v] of its
    class. *)
Lemma label_value_first (l0 : jsstring) (e : char) cls v post : forall pre,
  includes (pre ++ l0) (l0 ++ [e]) = false ->
  v <> [] ->
  Forall (fun c => cls c = true) v ->
  match post with [] => True | c :: _ => cls c = false end ->
  label_value (l0 ++ [e]) cls (pre ++ (l0 ++ [e]) ++ v ++ post) = v.
Proof.
  intros pre Hinc Hne Hv Hp.
  induction pre as [|c pre IH].
  - cbn [app]. rewrite label_value_unfold. cbv zeta.
    rewrite startsWith_refl_app, skipn_app, Nat.sub_diag, skipn_all.
    cbn [app skipn]. rewrite takeWhile_app_stop by assumption.
    destruct v; [congruence | reflexivity].
  - cbn [app label_value]. cbv zeta.
    assert (Hsw : startsWith (c :: pre ++ (l0 ++ [e]) ++ v ++ post) (l0 ++ [e]) = false).
    { apply includes_startsWith in Hinc.
      change (c :: pre ++ (l0 ++ [e]) ++ v ++ post) with ((c :: pre) ++ (l0 ++ [e]) ++ v ++ post).
      rewrite <- (app_assoc l0), (app_assoc (c :: pre) l0).
      rewrite startsWith_long; [exact Hinc|].
      rewrite !length_app. simpl. lia. }
    rewrite Hsw. cbn [andb]. apply IH. eapply includes_cons. exact Hinc.
Qed.

End Details.

(** C10. A permission section is extracted only when a blank line (two
    consecutive newlines) occurs somewhere after its header: for every
    text in which the [requested permissions:], or [grantedPermissions:],
    header is not followed by such a pair, also when the section runs to
    the end of the text, the parser returns and the corresponding list is
    empty; and a list that is not empty tells that the pair is there. *)
Theorem C10_section_needs_blank (text : jsstring) :
  (followed_by_blank requested_header text = false ->
   exists d, parseDumpsysPackage text = Ok d /\ requested d = [])
  /\ (followed_by_blank granted_header text = false ->
      exists d, parseDumpsysPackage text = Ok d /\ granted d = [])
  /\ (forall d, parseDumpsysPackage text = Ok d ->
      (requested d <> [] -> followed_by_blank requested_header text = true)
      /\ (granted d <> [] -> followed_by_blank granted_header text = true)).
Proof.
  rewrite parseDumpsysPackage_details. repeat split.
  - intros H. eexists. split; [reflexivity|]. cbn [requested package_details].
    unfold requested_of. rewrite section_lines_blank by exact H. reflexivity.
  - intros H. eexists. split; [reflexivity|]. cbn [granted package_details].
    unfold granted_of. rewrite section_lines_blank by exact H. reflexivity.
  - injection H as <-. cbn [requested package_details]. intros Hne.
    destruct (followed_by_blank requested_header text) eqn:E; [reflexivity|].
    exfalso. apply Hne. unfold requested_of. rewrite section_lines_blank by exact E. reflexivity.
  - injection H as <-. cbn [granted package_details]. intros Hne.
    destruct (followed_by_blank granted_header text) eqn:E; [reflexivity|].
    exfalso. apply Hne. unfold granted_of. rewrite section_lines_blank by exact E. reflexivity.
Qed.

Lemma C10_section_needs_blank_witness :
  let text := js "    requested permissions:" ++ [LF]
              ++ js "      android.permission.INTERNET" ++ [LF]
              ++ js "      android.permission.CAMERA" ++ [LF] in
  followed_by_blank requested_header text = false
  /\ exists d, parseDumpsysPackage text = Ok d /\ requested d = [].
Proof.
  cbv zeta. split; [reflexivity|].
  apply (proj1 (C10_section_needs_blank _)). reflexivity.
Defined.

(** C4, as stated, fails: when a blank line comes right after the header,
    no line lies between the header and the next blank line, yet the
    parser skips the blank line with the white space and returns the lines
    of the block after it. *)
Lemma C4_counterexample :
  let text := js "requested permissions:" ++ [LF; LF]
              ++ js "  install permissions:" ++ [LF]
              ++ js "    android.permission.INTERNET" ++ [LF; LF] in
  parseDumpsysPackage text =
    Ok {| versionName := []; versionCode := []; appId := []; userId := [];
          enabled := None;
          requested := [js "install permissions:"; js "android.permission.INTERNET"];
          granted := [] |}
  /\ spec_requested text = []
  /\ (forall d, parseDumpsysPackage text = Ok d -> requested d <> spec_requested text).
Proof.
  cbv zeta. split; [reflexivity|]. split; [reflexivity|].
  intros d H. vm_compute in H. injection H as <-. vm_compute. discriminate.
Qed.

(** C4, amended. For every input text the parser returns, and the
    requested permissions are the lines of the text that follows the first
    [requested permissions:] header and the white space after it, blank
    lines included, up to the next pair of consecutive newlines, each
    trimmed, the empty ones and those containing [granted=true] left out,
    in input order; the list is empty when there is no header or no such
    pair after it. *)
Theorem C4_requested_lines (text : jsstring) :
  exists d, parseDumpsysPackage text = Ok d
  /\ requested d =
     match after_first requested_header text with
     | Some r =>
         match cut_blank (dropWhile is_space r) with
         | Some (body, _) =>
             filter (fun s => truthy s && negb (includes s granted_true))
               (List.map trim (lines body))
         | None => []
         end
     | None => []
     end.
Proof.
  exists (package_details text). split; [apply parseDumpsysPackage_details|].
  cbn [requested package_details]. unfold requested_of, section_lines, section_body.
  destruct (after_first requested_header text) as [r|]; [|reflexivity].
  destruct (cut_blank (dropWhile is_space r)) as [[b a]|]; reflexivity.
Qed.

(** C3, as stated, fails twice: a flags block with [HAS_CODE] makes
    [enabled] true without any [enabled=] token, and the version name is
    the whole run after the first [versionName=], not the three
    components the text happens to contain. *)
Lemma C3_counterexample :
  let text1 := js "versionName=1.2.3 pkgFlags=[ HAS_CODE ALLOW_BACKUP ]" in
  let text2 := js "versionName=1.2.34" in
  includes text1 (js "versionName=1.2.3") = true
  /\ includes text1 (js "enabled=") = false
  /\ parseDumpsysPackage text1 =
       Ok {| versionName := js "1.2.3"; versionCode := []; appId := []; userId := [];
             enabled := Some true; requested := []; granted := [] |}
  /\ includes text2 (js "versionName=1.2.3") = true
  /\ includes text2 (js "enabled=") = false
  /\ parseDumpsysPackage text2 =
       Ok {| versionName := js "1.2.34"; versionCode := []; appId := []; userId := [];
             enabled := None; requested := []; granted := [] |}.
Proof. cbv zeta. repeat split; reflexivity. Qed.

(** C3, amended. For every text whose first [versionName=] is followed by
    [1.2.3] and then by the end of the text or a code unit outside
    [[\w.\-+]], and that contains neither an [enabled=] token nor a
    package-flags block with [HAS_CODE], the parser returns versionName
    ["1.2.3"] and enabled [null]. *)
Theorem C3_version_and_unknown_enabled (pre post : jsstring) :
  includes (pre ++ js "versionName") (js "versionName=") = false ->
  match post with [] => True | c :: _ => version_char c = false end ->
  includes (pre ++ js "versionName=1.2.3" ++ post) (js "enabled=") = false ->
  has_flags_block (pre ++ js "versionName=1.2.3" ++ post) = false ->
  exists d, parseDumpsysPackage (pre ++ js "versionName=1.2.3" ++ post) = Ok d
            /\ versionName d = js "1.2.3" /\ enabled d = None.
Proof.
  intros Hfirst Hpost Hen Hfl. rewrite parseDumpsysPackage_details.
  eexists. split; [reflexivity|]. cbn [versionName enabled package_details]. split.
  - change (js "versionName=1.2.3" ++ post)
      with ((js "versionName" ++ [61%N]) ++ js "1.2.3" ++ post).
    change (js "versionName=") with (js "versionName" ++ [61%N]).
    apply label_value_first; try assumption.
    + discriminate.
    + repeat constructor.
  - apply enabled_of_none; assumption.
Qed.

Lemma C3_version_and_unknown_enabled_witness :
  let pre := js "    versionCode=42 minSdk=21 targetSdk=33" ++ [LF] ++ js "    " in
  let post := [LF] ++ js "    splits=[base]" ++ [LF] in
  exists d, parseDumpsysPackage (pre ++ js "versionName=1.2.3" ++ post) = Ok d
            /\ versionName d = js "1.2.3" /\ enabled d = None.
Proof.
  cbv zeta. apply C3_version_and_unknown_enabled; reflexivity.
Defined.

(** ** Device lines *)

Section DeviceLines.

Lemma dropWhile_head_false p c s : p c = false -> dropWhile p (c :: s) = c :: s.
Proof. intros H. cbn. rewrite H. reflexivity. Qed.

Lemma trim_id s : trimmed s -> trim s = s.
Proof.
  unfold trimmed, trim. destruct s as [|c t]; [intros []|]. intros [Hc Hl].
  rewrite dropWhile_head_false by exact Hc.
  assert (E : c :: t = removelast (c :: t) ++ [last (c :: t) 0%N])
    by (apply app_removelast_last; discriminate).
  rewrite E at 1. rewrite rev_app_distr. cbn [rev app].
  rewrite dropWhile_head_false by exact Hl.
  change (last (c :: t) 0%N :: rev (removelast (c :: t)))
    with (rev [last (c :: t) 0%N] ++ rev (removelast (c :: t))).
  rewrite <- rev_app_distr, rev_involutive. symmetry. exact E.
Qed.

(** The records of a text that is one trimmed line. *)
Lemma device_records_single l :
  trimmed l -> ~ In LF l -> is_header l = false ->
  device_records l = match record_of_line l with Some r => [r] | None => [] end.
Proof.
  intros Ht Hlf Hh. unfold device_records. rewrite lines_noLF by exact Hlf.
  cbn [List.map]. rewrite trim_id by exact Ht.
  destruct l as [|c t]; [destruct Ht|]. cbn [filter truthy]. rewrite Hh.
  cbn [negb filter flat_map]. apply app_nil_r.
Qed.

Lemma last_token t : token t -> is_space (last t 0%N) = false.
Proof.
  intros [Hne Hns]. destruct t as [|c t]; [congruence|].
  assert (E : c :: t = removelast (c :: t) ++ [last (c :: t) 0%N])
    by (apply app_removelast_last; discriminate).
  unfold no_space in Hns. rewrite E in Hns. apply Forall_app in Hns.
  destruct Hns as [_ Hns]. inversion Hns. assumption.
Qed.

Lemma last_app_ne (x y : jsstring) d : y <> [] -> last (x ++ y) d = last y d.
Proof. destruct y as [|c y]; [congruence|]. intros _. apply last_app_cons. Qed.

Lemma last_unwords : forall ws t,
  token t -> Forall (fun st => separator (fst st) /\ token (snd st)) ws ->
  is_space (last (t ++ unwords ws) 0%N) = false.
Proof.
  induction ws as [|[sep tok] ws IH]; intros t Ht H.
  - cbn [unwords]. rewrite app_nil_r. apply last_token, Ht.
  - inversion H as [|? ? [Hsep Htok] H']; subst. cbn [fst snd] in *.
    cbn [unwords]. rewrite (app_assoc t sep), last_app_ne.
    + apply IH; assumption.
    + destruct Htok as [Hne _]. destruct tok; [congruence | discriminate].
Qed.

Lemma trimmed_unwords t ws :
  token t -> Forall (fun st => separator (fst st) /\ token (snd st)) ws ->
  trimmed (t ++ unwords ws).
Proof.
  intros Ht H. pose proof (last_unwords Ht H) as Hl.
  destruct Ht as [Hne Hns]. destruct t as [|c t]; [congruence|].
  cbn [app trimmed] in *. split; [inversion Hns; assumption | exact Hl].
Qed.

Lemma header_fields x :
  fields (devices_header ++ x) =
  js "List" :: js "of" :: js "devices" :: fields_aux false (rev (js "attached")) x.
Proof. reflexivity. Qed.

(** The third field of a line that begins with the header text. *)
Lemma is_header_third l :
  is_header l = true -> nth_error (fields l) 2 = Some (js "devices").
Proof.
  unfold is_header. intros H. apply startsWith_eq in H. rewrite H, header_fields. reflexivity.
Qed.

Lemma split_chr_aux_plain : forall v acc,
  ~ In COLON v -> split_chr_aux COLON acc v = [rev acc ++ v].
Proof.
  induction v as [|c v IH]; intros acc H.
  - cbn. rewrite app_nil_r. reflexivity.
  - cbn [split_chr_aux].
    replace (c =? COLON)%N with false
      by (symmetry; apply N.eqb_neq; intros ->; apply H; left; reflexivity).
    rewrite IH by (intros Hin; apply H; right; exact Hin).
    cbn [rev]. rewrite <- app_assoc. reflexivity.
Qed.

Lemma split_chr_aux_key : forall k acc v,
  ~ In COLON k ->
  split_chr_aux COLON acc (k ++ COLON :: v) = (rev acc ++ k) :: split_chr_aux COLON [] v.
Proof.
  induction k as [|c k IH]; intros acc v H.
  - cbn. rewrite app_nil_r. reflexivity.
  - cbn [app split_chr_aux].
    replace (c =? COLON)%N with false
      by (symmetry; apply N.eqb_neq; intros ->; apply H; left; reflexivity).
    rewrite IH by (intros Hin; apply H; right; exact Hin).
    cbn [rev]. rewrite <- app_assoc. reflexivity.
Qed.

Lemma split_attr_token k v :
  ~ In COLON k -> ~ In COLON v -> split_chr COLON (attr_token (k, v)) = [k; v].
Proof.
  intros Hk Hv. unfold split_chr, attr_token. cbn [fst snd app].
  rewrite split_chr_aux_key, split_chr_aux_plain by assumption. reflexivity.
Qed.

Lemma obj_has_app (V : Type) k (o o' : obj V) :
  obj_has k (o ++ o') = obj_has k o || obj_has k o'.
Proof. unfold obj_has. rewrite obj_get_app. destruct (obj_get k o); reflexivity. Qed.

(** Tokens with fresh, distinct keys are added at the end, in order. *)
Lemma fold_set_token_fresh : forall (attrs : list (jsstring * jsstring)) info,
  Forall plain_attr attrs ->
  NoDup (List.map fst attrs) ->
  Forall (fun a => obj_has (fst a) info = false) attrs ->
  fold_left set_token (List.map attr_token attrs) info = info ++ attrs.
Proof.
  induction attrs as [|[k v] attrs IH]; intros info Hp Hnd Hfresh.
  - simpl. rewrite app_nil_r. reflexivity.
  - inversion Hp as [|? ? Ha Hp']; subst. inversion Hnd as [|? ? Hnotin Hnd']; subst.
    inversion Hfresh as [|? ? Hk Hfresh']; subst. cbn [fst snd] in *.
    destruct Ha as (_ & Hkc & Hvne & _ & Hvc & _ & Hproto & _). cbn [fst snd] in *.
    cbn [List.map fold_left]. unfold set_token at 2.
    rewrite split_attr_token by assumption.
    rewrite (@truthy_nonempty v Hvne). unfold obj_set. rewrite Hproto, Hk.
    rewrite IH; [rewrite <- app_assoc; reflexivity | assumption | assumption |].
    apply Forall_forall. intros [k' v'] Hin. cbn [fst].
    rewrite obj_has_app. rewrite Forall_forall in Hfresh'.
    pose proof (Hfresh' _ Hin) as Hk'. cbn [fst] in Hk'. rewrite Hk'.
    cbn [orb]. unfold obj_has. cbn [obj_get].
    rewrite str_eqb_neq; [reflexivity|].
    intros ->. apply Hnotin. apply in_map_iff. exists (k, v'). split; [reflexivity | exact Hin].
Qed.

Lemma index_entries_nil (V : Type) : forall (o : obj V),
  Forall (fun kv => is_index (fst kv) = false) o -> index_entries o = [].
Proof.
  induction o as [|[k v] o IH]; intros H; [reflexivity|].
  inversion H as [|? ? Hk H']; subst. cbn [index_entries]. cbn [fst] in Hk.
  unfold is_index in Hk. destruct (array_index k); [discriminate | apply IH, H'].
Qed.

Lemma filter_all (A : Type) (f : A -> bool) l :
  Forall (fun x => f x = true) l -> filter f l = l.
Proof.
  induction 1 as [|x l Hx _ IH]; [reflexivity|]. cbn [filter]. rewrite Hx, IH. reflexivity.
Qed.

(** Without array indices among the keys, the properties are listed in
    creation order. *)
Lemma entries_no_index (V : Type) (o : obj V) :
  Forall (fun kv => is_index (fst kv) = false) o -> entries o = o.
Proof.
  intros H. unfold entries. rewrite index_entries_nil by exact H. cbn [List.map app].
  apply filter_all. eapply Forall_impl; [|exact H].
  intros kv Hkv. cbn beta in Hkv. rewrite Hkv. reflexivity.
Qed.

Lemma no_space_LF s : no_space s -> ~ In LF s.
Proof.
  intros H Hin. unfold no_space in H. rewrite Forall_forall in H.
  specialize (H _ Hin). discriminate H.
Qed.

Lemma no_space_app a b : no_space a -> no_space b -> no_space (a ++ b).
Proof. intros Ha Hb. apply Forall_app. split; assumption. Qed.

Lemma plain_attr_token a : plain_attr a -> token (attr_token a).
Proof.
  intros (Hk & _ & Hne & Hv & _). unfold attr_token. split.
  - destruct (fst a); discriminate.
  - apply no_space_app; [exact Hk|]. apply no_space_app; [|exact Hv]. repeat constructor.
Qed.

Lemma unwords_noLF : forall ws,
  Forall (fun st => line_separator (fst st) /\ token (snd st)) ws -> ~ In LF (unwords ws).
Proof.
  induction ws as [|[sep tok] ws IH]; intros H Hin; [destruct Hin|].
  inversion H as [|? ? [[_ Hsep] [_ Htok]] H']; subst. cbn [fst snd] in *.
  cbn [unwords] in Hin. apply in_app_or in Hin. destruct Hin as [Hin | Hin]; [tauto|].
  apply in_app_or in Hin. destruct Hin as [Hin | Hin].
  - eapply no_space_LF; eauto.
  - eapply IH; eauto.
Qed.

End DeviceLines.

Section Overwrite.

Lemma obj_get_set_same k (v : jsstring) (o : obj jsstring) :
  str_eqb k PROTO = false -> obj_has k o = true ->
  obj_get k (obj_set k v o) = Some v.
Proof.
  intros Hp Hh. unfold obj_set. rewrite Hp, Hh, obj_get_update.
  unfold obj_has in Hh. destruct (obj_get k o); [|discriminate].
  rewrite str_eqb_refl. reflexivity.
Qed.

Lemma obj_get_set_other key k (v w : jsstring) (o : obj jsstring) :
  str_eqb k key = false -> obj_get key o = Some w ->
  obj_get key (obj_set k v o) = Some w.
Proof.
  intros Hk Hg. unfold obj_set. destruct (str_eqb k PROTO); [exact Hg|].
  destruct (obj_has k o).
  - rewrite obj_get_update, Hg, Hk. reflexivity.
  - rewrite obj_get_app, Hg. reflexivity.
Qed.

(** Tokens that do not set the field leave it as it is. *)
Lemma fold_set_token_keeps key w : forall post info,
  forallb (fun t => negb (sets_field key t)) post = true ->
  obj_get key info = Some w ->
  obj_get key (fold_left set_token post info) = Some w.
Proof.
  induction post as [|t post IH]; intros info Hp Hg; [exact Hg|].
  cbn [forallb] in Hp. apply andb_prop in Hp. destruct Hp as [Ht Hp].
  cbn [fold_left]. apply IH; [exact Hp|].
  unfold set_token. unfold sets_field in Ht.
  destruct (split_chr COLON t) as [|k' [|v' more']]; try exact Hg.
  destruct (truthy v'); [|exact Hg].
  rewrite andb_true_r in Ht. apply obj_get_set_other; [|exact Hg].
  destruct (str_eqb k' key); [discriminate Ht | reflexivity].
Qed.

Lemma wf_device_has k r :
  wf_device r -> is_serial_or_state k = true -> obj_has k r = true.
Proof.
  intros (H1 & H2 & _) Hk. unfold is_serial_or_state in Hk. apply orb_prop in Hk.
  unfold obj_has. destruct Hk as [Hk | Hk]; apply str_eqb_eq in Hk; subst k.
  - destruct H1 as (s & -> & _). reflexivity.
  - destruct H2 as (s & -> & _). reflexivity.
Qed.

Lemma serial_or_state_not_proto k :
  is_serial_or_state k = true -> str_eqb k PROTO = false.
Proof.
  intros Hk. unfold is_serial_or_state in Hk. apply orb_prop in Hk.
  destruct Hk as [Hk | Hk]; apply str_eqb_eq in Hk; subst k; reflexivity.
Qed.

End Overwrite.

(** C9, as stated, fails: a tail token with key [serial] and an empty value
    overwrites nothing. *)
Lemma C9_counterexample :
  let line := js "ABC123 device serial:" in
  fields line = [js "ABC123"; js "device"; js "serial:"]
  /\ split_chr COLON (js "serial:") = [js "serial"; []]
  /\ parseDevicesList line =
       Ok [[(js "serial", js "ABC123"); (js "state", js "device")]]
  /\ (forall r, parseDevicesList line = Ok [r] -> obj_get (js "serial") r <> Some []).
Proof.
  cbv zeta. repeat split; try reflexivity.
  intros r H. vm_compute in H. injection H as <-. vm_compute. discriminate.
Qed.

(** C9, amended. The parser sets the [key:value] tokens of the tail as
    fields of the record itself, not in a separate attributes map: the
    record is the object made of [serial] and [state] with every tail
    token applied to it in order. Consequently, for any device line whose
    tail contains a token with key [serial] or [state] and a value that is
    not empty, the value of the last such token replaces the serial or
    state taken from the first two fields of the line. *)
Theorem C9_fields_overwrite
  (line serial state : jsstring) (tail pre : list jsstring) (tok : jsstring)
  (post : list jsstring) (k v : jsstring) (more : list jsstring) :
  trimmed line -> ~ In LF line -> is_header line = false ->
  fields line = serial :: state :: tail ->
  tail = pre ++ tok :: post ->
  split_chr COLON tok = k :: v :: more -> v <> [] ->
  is_serial_or_state k = true ->
  forallb (fun t => negb (sets_field k t)) post = true ->
  exists r,
    parseDevicesList line = Ok [r]
    /\ r = fold_left set_token tail [(js "serial", serial); (js "state", state)]
    /\ obj_get k r = Some v.
Proof.
  intros Ht Hlf Hh Hf Htail Htok Hv Hk Hpost.
  rewrite parseDevicesList_records, device_records_single by assumption.
  pose proof (@fields_trimmed line Ht) as Hfs.
  unfold record_of_line. rewrite Hf in *. eexists. split; [reflexivity|]. split; [reflexivity|].
  inversion Hfs as [|? ? [Hs _] Hfs']; subst. inversion Hfs' as [|? ? [Hst _] _]; subst.
  rewrite fold_left_app. cbn [fold_left].
  apply fold_set_token_keeps; [exact Hpost|].
  unfold set_token at 1. rewrite Htok, (@truthy_nonempty v Hv).
  apply obj_get_set_same; [apply serial_or_state_not_proto, Hk|].
  apply wf_device_has; [|exact Hk]. apply fold_set_token_wf.
  repeat split.
  - exists serial. split; [reflexivity | exact Hs].
  - exists state. split; [reflexivity | exact Hst].
  - repeat constructor; assumption.
Qed.

Lemma C9_fields_overwrite_witness :
  let line := js "ABC123 device product:pixel serial:XYZ model:Pixel_5 serial:" in
  exists r,
    parseDevicesList line = Ok [r]
    /\ r = fold_left set_token
             [js "product:pixel"; js "serial:XYZ"; js "model:Pixel_5"; js "serial:"]
             [(js "serial", js "ABC123"); (js "state", js "device")]
    /\ obj_get (js "serial") r = Some (js "XYZ").
Proof.
  cbv zeta.
  apply (@C9_fields_overwrite
           (js "ABC123 device product:pixel serial:XYZ model:Pixel_5 serial:")
           (js "ABC123") (js "device")
           [js "product:pixel"; js "serial:XYZ"; js "model:Pixel_5"; js "serial:"]
           [js "product:pixel"] (js "serial:XYZ") [js "model:Pixel_5"; js "serial:"]
           (js "serial") (js "XYZ") []).
  - vm_compute. split; reflexivity.
  - vm_compute. intuition discriminate.
  - reflexivity.
  - reflexivity.
  - reflexivity.
  - reflexivity.
  - discriminate.
  - reflexivity.
  - reflexivity.
Defined.

(** C6, as stated, fails: an attribute with key [serial] is not kept as an
    attribute, and the serial of the line is lost. *)
Lemma C6_counterexample :
  let line := device_line_text (js "ABC123") [SP] (js "device")
                [([SP], (js "serial", js "XYZ"))] in
  line = js "ABC123 device serial:XYZ"
  /\ parseDevicesList line = Ok [[(js "serial", js "XYZ"); (js "state", js "device")]]
  /\ (forall r, parseDevicesList line = Ok [r] ->
      as_device_record r =
        Some {| dr_serial := js "XYZ"; dr_state := js "device"; dr_attributes := [] |}
      /\ as_device_record r <>
        Some {| dr_serial := js "ABC123"; dr_state := js "device";
                dr_attributes := [(js "serial", js "XYZ")] |}).
Proof.
  cbv zeta. split; [reflexivity|]. split; [reflexivity|].
  intros r H. vm_compute in H. injection H as <-. split; [reflexivity|].
  vm_compute. discriminate.
Qed.

(** C6, amended. Round trip: for every device line made of a serial, a
    state and [key:value] attribute tokens, separated by white space, in
    which the attribute keys are pairwise distinct, none of them is
    [serial], [state], [__proto__] or an array index, and neither keys nor
    values contain a colon, the record the parser returns gives back
    exactly that serial, that state and those attributes, none lost and in
    the order of the tokens. *)
Theorem C6_round_trip
  (serial sep0 state : jsstring) (attrs : list (jsstring * (jsstring * jsstring))) :
  token serial -> line_separator sep0 -> token state ->
  Forall (fun sa => line_separator (fst sa) /\ plain_attr (snd sa)) attrs ->
  NoDup (List.map (fun sa => fst (snd sa)) attrs) ->
  exists r,
    parseDevicesList (device_line_text serial sep0 state attrs) = Ok [r]
    /\ as_device_record r =
       Some {| dr_serial := serial; dr_state := state;
               dr_attributes := List.map snd attrs |}.
Proof.
  intros Hserial Hsep0 Hstate Hattrs Hnd. unfold device_line_text.
  set (ws := (sep0, state) :: List.map (fun sa => (fst sa, attr_token (snd sa))) attrs).
  assert (Hws : Forall (fun st => line_separator (fst st) /\ token (snd st)) ws).
  { constructor; [split; assumption|]. apply Forall_forall. intros [sep tok] Hin.
    apply in_map_iff in Hin. destruct Hin as (sa & E & Hin). injection E as <- <-.
    rewrite Forall_forall in Hattrs. destruct (Hattrs sa Hin) as [H1 H2].
    split; [exact H1 | apply plain_attr_token, H2]. }
  assert (Hws' : Forall (fun st => separator (fst st) /\ token (snd st)) ws).
  { eapply Forall_impl; [|exact Hws]. intros st [[H1 _] H2]. split; assumption. }
  assert (Hfields : fields (serial ++ unwords ws)
                    = serial :: state :: List.map attr_token (List.map snd attrs)).
  { rewrite fields_unwords by (assumption || apply Hserial).
    unfold ws. cbn [List.map snd]. rewrite !map_map. reflexivity. }
  assert (Htrim : trimmed (serial ++ unwords ws)) by (apply trimmed_unwords; assumption).
  assert (Hlf : ~ In LF (serial ++ unwords ws)).
  { intros Hin. apply in_app_or in Hin. destruct Hin as [Hin | Hin].
    - eapply no_space_LF; [apply Hserial | exact Hin].
    - eapply unwords_noLF; eauto. }
  assert (Hhead : is_header (serial ++ unwords ws) = false).
  { destruct (is_header (serial ++ unwords ws)) eqn:E; [|reflexivity]. exfalso.
    apply is_header_third in E. rewrite Hfields in E. cbn [nth_error] in E.
    destruct attrs as [|[sep a] attrs']; [discriminate E|].
    cbn [List.map snd nth_error] in E. injection E as E.
    assert (Hin : In COLON (js "devices")).
    { rewrite <- E. unfold attr_token. apply in_or_app. right. left. reflexivity. }
    vm_compute in Hin. intuition discriminate. }
  rewrite parseDevicesList_records, device_records_single by assumption.
  unfold record_of_line. rewrite Hfields.
  assert (Hplain : Forall plain_attr (List.map snd attrs)).
  { apply Forall_forall. intros a Hin. apply in_map_iff in Hin.
    destruct Hin as (sa & <- & Hin). rewrite Forall_forall in Hattrs. apply (Hattrs sa Hin). }
  rewrite fold_set_token_fresh.
  - eexists. split; [reflexivity|]. unfold as_device_record.
    cbn [app obj_get]. rewrite str_eqb_refl.
    replace (str_eqb (js "state") (js "serial")) with false by reflexivity.
    rewrite str_eqb_refl.
    rewrite entries_no_index.
    + cbn [filter fst]. replace (is_serial_or_state (js "serial")) with true by reflexivity.
      replace (is_serial_or_state (js "state")) with true by reflexivity.
      cbn [negb]. rewrite filter_all; [reflexivity|].
      eapply Forall_impl; [|exact Hplain].
      intros a (_ & _ & _ & _ & _ & Hk & _). rewrite Hk. reflexivity.
    + constructor; [reflexivity|]. constructor; [reflexivity|].
      eapply Forall_impl; [|exact Hplain].
      intros a (_ & _ & _ & _ & _ & _ & _ & Hi). exact Hi.
  - exact Hplain.
  - rewrite map_map. exact Hnd.
  - eapply Forall_impl; [|exact Hplain].
    intros a (_ & _ & _ & _ & _ & Hk & _). unfold is_serial_or_state in Hk.
    apply orb_false_elim in Hk. destruct Hk as [Hk1 Hk2].
    unfold obj_has. cbn [obj_get]. rewrite Hk1, Hk2. reflexivity.
Qed.

Lemma C6_round_trip_witness :
  exists r,
    parseDevicesList
      (device_line_text (js "ABC123") [TAB] (js "device")
         [([SP], (js "product", js "pixel")); ([SP], (js "model", js "Pixel_5"))])
    = Ok [r]
    /\ as_device_record r =
       Some {| dr_serial := js "ABC123"; dr_state := js "device";
               dr_attributes := [(js "product", js "pixel"); (js "model", js "Pixel_5")] |}.
Proof.
  apply (@C6_round_trip (js "ABC123") [TAB] (js "device")
           [([SP], (js "product", js "pixel")); ([SP], (js "model", js "Pixel_5"))]).
  - split; [discriminate | repeat constructor].
  - split; [split; [discriminate | repeat constructor] | vm_compute; intuition discriminate].
  - split; [discriminate | repeat constructor].
  - repeat constructor; try discriminate; vm_compute; intuition discriminate.
  - repeat constructor; vm_compute; intuition discriminate.
Defined.

(** C2, as stated, fails: a tail token with key [serial] replaces the
    serial instead of becoming an attribute, and a token with a colon but
    no value is not added. *)
Lemma C2_counterexample :
  let text := js "List of devices attached" ++ [LF]
              ++ js "ABC123 device serial:XYZ usb:" ++ [LF] in
  parseDevicesList text = Ok [[(js "serial", js "XYZ"); (js "state", js "device")]]
  /\ spec_parseDeviceList text =
       [{| dr_serial := js "ABC123"; dr_state := js "device";
           dr_attributes := [(js "serial", js "XYZ"); (js "usb", [])] |}]
  /\ (forall rs, parseDevicesList text = Ok rs ->
      List.map as_device_record rs <> List.map Some (spec_parseDeviceList text)).
Proof.
  cbv zeta. split; [reflexivity|]. split; [reflexivity|].
  intros rs H. vm_compute in H. injection H as <-. vm_compute. discriminate.
Qed.

(** C2, amended. The parser splits its input into lines at LF or CR LF,
    trims them, drops the empty ones and every line that begins with the
    header text, splits each remaining line on white space into serial,
    state and a tail of tokens, skips a line with fewer than two fields,
    and returns the records in line order. Each tail token is split at
    its colons; when its second piece is missing or empty the token is
    ignored, otherwise the field named by its first piece is set to the
    second piece on the record itself, an existing field, [serial] and
    [state] included, taking the new value, and [__proto__] being ignored.
    On the header line followed by the line of ABC123 it yields exactly
    one record, with serial ["ABC123"], state ["device"], product
    ["pixel"] and model ["Pixel_5"]. *)
Theorem C2_device_list :
  (forall text : jsstring,
     parseDevicesList text =
     Ok (flat_map
           (fun l =>
              match fields l with
              | serial :: state :: tail =>
                  [fold_left set_token tail
                     [(js "serial", serial); (js "state", state)]]
              | _ => []
              end)
           (filter (fun l => negb (startsWith l devices_header))
              (filter truthy (List.map trim (lines text))))))
  /\ parseDevicesList
       (js "List of devices attached" ++ [LF]
        ++ js "ABC123" ++ [TAB] ++ js "device product:pixel model:Pixel_5" ++ [LF])
     = Ok [[(js "serial", js "ABC123"); (js "state", js "device");
            (js "product", js "pixel"); (js "model", js "Pixel_5")]].
Proof.
  split; [|reflexivity].
  intros text. rewrite parseDevicesList_records. unfold device_records. f_equal.
  apply flat_map_ext. intros l. unfold record_of_line.
  destruct (fields l) as [|serial [|state tail]]; reflexivity.
Qed.

(** * More properties of the code *)

(** ** The package list, line by line *)

Section PackageLines.

Lemma last_in (l : jsstring) d : l <> [] -> In (last l d) l.
Proof.
  intros H. rewrite (app_removelast_last d H) at 2. apply in_or_app. right. left. reflexivity.
Qed.

Lemma plain_of_chars l :
  Forall (fun c => c <> LF /\ c <> CR) l -> plain l.
Proof.
  intros H. rewrite Forall_forall in H. split.
  - intros Hin. destruct (H _ Hin) as [E _]. apply E. reflexivity.
  - destruct l as [|c l]; [discriminate|].
    intros E. destruct (H (last (c :: l) 0%N)) as [_ E'].
    + apply last_in. discriminate.
    + apply E'. exact E.
Qed.

Lemma is_dot_not_eol c : is_dot c = true -> c <> LF /\ c <> CR.
Proof. intros H. split; intros ->; discriminate H. Qed.

Lemma package_char_is_dot c : package_char c = true -> is_dot c = true.
Proof.
  intros H. unfold is_dot, is_line_terminator.
  destruct (N.eqb_spec c 10) as [->|]; [discriminate H|].
  destruct (N.eqb_spec c 13) as [->|]; [discriminate H|].
  destruct (N.eqb_spec c 8232) as [->|]; [discriminate H|].
  destruct (N.eqb_spec c 8233) as [->|]; [discriminate H|].
  reflexivity.
Qed.

Lemma dropWhile_app_stop p v post :
  Forall (fun c => p c = true) v ->
  match post with [] => True | c :: _ => p c = false end ->
  dropWhile p (v ++ post) = post.
Proof.
  intros Hv Hp. induction Hv as [|c v Hc Hv IH]; cbn [app dropWhile].
  - destruct post as [|c post]; [reflexivity|]. cbn [dropWhile]. rewrite Hp. reflexivity.
  - rewrite Hc. exact IH.
Qed.

Lemma forallb_Forall (p : char -> bool) s :
  Forall (fun c => p c = true) s -> forallb p s = true.
Proof. induction 1 as [|c s Hc _ IH]; [reflexivity|]. cbn. rewrite Hc, IH. reflexivity. Qed.

Lemma package_line_dots name suffix :
  package_entry (name, suffix) ->
  Forall (fun c => is_dot c = true) (package_line name suffix).
Proof.
  intros (_ & Hn & Hs). cbn [fst snd] in *. unfold package_line.
  apply Forall_app. split; [repeat constructor|].
  apply Forall_app. split.
  - eapply Forall_impl; [|exact Hn]. apply package_char_is_dot.
  - destruct suffix as [s|]; [|constructor]. constructor; [reflexivity | exact Hs].
Qed.

(** The name of a well-formed package line. *)
Lemma package_name_line name suffix :
  package_entry (name, suffix) ->
  package_name (package_line name suffix) = Some name.
Proof.
  intros (Hne & Hn & Hs). cbn [fst snd] in *. unfold package_name, package_line.
  rewrite startsWith_refl_app, skipn_app, Nat.sub_diag, skipn_all. cbn [app skipn]. cbv zeta.
  assert (Hstop : match (match suffix with Some s => 61%N :: s | None => [] end) with
                  | [] => True
                  | c :: _ => package_char c = false
                  end) by (destruct suffix; [reflexivity | exact I]).
  rewrite takeWhile_app_stop, dropWhile_app_stop by assumption.
  rewrite (@truthy_nonempty name Hne). cbn [andb].
  destruct suffix as [s|]; [|reflexivity].
  rewrite N.eqb_refl, forallb_Forall by exact Hs. reflexivity.
Qed.

End PackageLines.

(** X1. Round trip of the package list: a text of lines [package:<name>]
    or [package:<name>=<suffix>], each ended by LF or CR LF, with names of
    the class [[\w.]] and suffixes without a line terminator, gives back
    exactly the names, in line order, the suffixes dropped. *)
Theorem X1_package_list_round_trip
  (entries : list ((jsstring * option jsstring) * bool)) :
  Forall (fun e => package_entry (fst e)) entries ->
  parsePackageList
    (chunk_of
       (List.map (fun e => (package_line (fst (fst e)) (snd (fst e)), snd e)) entries))
  = Ok (List.map (fun e => {| package := Some (fst (fst e)) |}) entries).
Proof.
  intros H. rewrite parsePackageList_names. f_equal. unfold package_list.
  rewrite lines_chunk.
  - rewrite flat_map_app. cbn [flat_map]. replace (package_name []) with (@None jsstring) by reflexivity.
    rewrite app_nil_r, map_map. cbn [fst].
    induction H as [|[[name suffix] crlf] entries He _ IH]; [reflexivity|].
    cbn [List.map flat_map fst snd]. cbn [fst] in He.
    rewrite (package_name_line He), IH. reflexivity.
  - apply Forall_forall. intros [l b] Hin. apply in_map_iff in Hin.
    destruct Hin as ([[name suffix] crlf] & E & Hin). injection E as <- <-.
    cbn [fst snd]. rewrite Forall_forall in H. specialize (H _ Hin). cbn [fst] in H.
    apply plain_of_chars. eapply Forall_impl; [|apply package_line_dots; exact H].
    apply is_dot_not_eol.
Qed.

Lemma X1_package_list_round_trip_witness :
  parsePackageList
    (js "package:com.foo.bar" ++ [LF] ++ js "package:com.baz=10123" ++ [CR; LF])
  = Ok [{| package := Some (js "com.foo.bar") |}; {| package := Some (js "com.baz") |}].
Proof.
  apply (@X1_package_list_round_trip
           [((js "com.foo.bar", None), false); ((js "com.baz", Some (js "10123")), true)]).
  repeat constructor; vm_compute; try discriminate; repeat constructor.
Defined.

(** ** Parsing is local to the lines *)

Section LineLocal.

Lemma dropWhile_all p s : Forall (fun c => p c = true) s -> dropWhile p s = [].
Proof. induction 1 as [|c s Hc _ IH]; [reflexivity|]. cbn. rewrite Hc. exact IH. Qed.

Lemma dropWhile_app_keep p s t :
  dropWhile p s <> [] -> dropWhile p (s ++ t) = dropWhile p s ++ t.
Proof.
  induction s as [|c s IH]; intros H; [exfalso; apply H; reflexivity|].
  cbn [app dropWhile] in *. destruct (p c); [apply IH, H | reflexivity].
Qed.

Lemma dropWhile_nil_app p s t :
  dropWhile p s = [] -> dropWhile p (s ++ t) = dropWhile p t.
Proof.
  induction s as [|c s IH]; intros H; [reflexivity|].
  cbn [app dropWhile] in *. destruct (p c); [apply IH, H | discriminate H].
Qed.

(** White space at the end of a text does not survive [trim]. *)
Lemma trim_snoc_space s c : is_space c = true -> trim (s ++ [c]) = trim s.
Proof.
  intros Hc. unfold trim. destruct (dropWhile is_space s) as [|d u] eqn:E.
  - rewrite dropWhile_nil_app by exact E. cbn [dropWhile]. rewrite Hc. reflexivity.
  - rewrite dropWhile_app_keep by (rewrite E; discriminate). rewrite E.
    rewrite rev_app_distr. cbn [rev app dropWhile]. rewrite Hc. reflexivity.
Qed.

Lemma last_tail (c : char) t d : t <> [] -> last (c :: t) d = last t d.
Proof. destruct t; [congruence | reflexivity]. Qed.

(** A line break between two texts separates their lines, provided the
    first text does not end with a CR that the break would absorb. *)
Lemma lines_aux_app_LF t2 : forall n t1 piece,
  length t1 <= n -> last t1 0%N <> CR ->
  lines_aux piece (t1 ++ LF :: t2) = lines_aux piece t1 ++ lines_aux [] t2.
Proof.
  induction n as [|n IH]; intros t1 piece Hn Hl.
  - destruct t1; [reflexivity | simpl in Hn; lia].
  - destruct t1 as [|c t1']; [reflexivity|]. cbn [app lines_aux]. simpl in Hn.
    destruct (c =? LF)%N eqn:Ec.
    + rewrite IH; [reflexivity | lia |].
      destruct t1' as [|d t1'']; [discriminate | exact Hl].
    + destruct t1' as [|d t1''].
      * cbn [app]. rewrite N.eqb_refl, andb_true_r.
        replace (c =? CR)%N with false
          by (symmetry; apply N.eqb_neq; intros ->; apply Hl; reflexivity).
        cbn [lines_aux]. rewrite N.eqb_refl. reflexivity.
      * cbn [app]. destruct ((c =? CR)%N && (d =? LF)%N).
        -- rewrite IH; [reflexivity | simpl in Hn; lia |].
           destruct t1'' as [|e t1''']; [discriminate | exact Hl].
        -- change (d :: t1'' ++ LF :: t2) with ((d :: t1'') ++ LF :: t2).
           rewrite IH; [reflexivity | lia | exact Hl].
Qed.

(** After trimming, the CR makes no difference. *)
Lemma trim_lines_aux_app_LF t2 : forall n t1 piece,
  length t1 <= n ->
  List.map trim (lines_aux piece (t1 ++ LF :: t2))
  = List.map trim (lines_aux piece t1) ++ List.map trim (lines_aux [] t2).
Proof.
  induction n as [|n IH]; intros t1 piece Hn.
  - destruct t1; [reflexivity | simpl in Hn; lia].
  - destruct t1 as [|c t1']; [reflexivity|]. cbn [app lines_aux]. simpl in Hn.
    destruct (c =? LF)%N eqn:Ec.
    + cbn [List.map]. rewrite IH by lia. reflexivity.
    + destruct t1' as [|d t1''].
      * cbn [app]. rewrite N.eqb_refl, andb_true_r.
        destruct (N.eqb_spec c CR) as [->|Hc].
        -- cbn [lines_aux List.map rev app]. rewrite (trim_snoc_space (rev piece) CR eq_refl).
           reflexivity.
        -- cbn [lines_aux]. rewrite N.eqb_refl. reflexivity.
      * cbn [app]. destruct ((c =? CR)%N && (d =? LF)%N).
        -- cbn [List.map]. rewrite IH by (simpl in Hn; lia). reflexivity.
        -- change (d :: t1'' ++ LF :: t2) with ((d :: t1'') ++ LF :: t2).
           rewrite IH by lia. reflexivity.
Qed.

Lemma device_records_app t1 t2 :
  device_records (t1 ++ LF :: t2) = device_records t1 ++ device_records t2.
Proof.
  unfold device_records, lines.
  rewrite (@trim_lines_aux_app_LF t2 (length t1) t1 [] (le_n _)).
  rewrite !filter_app, flat_map_app. reflexivity.
Qed.

Lemma package_list_app t1 t2 :
  last t1 0%N <> CR ->
  package_list (t1 ++ LF :: t2) = package_list t1 ++ package_list t2.
Proof.
  intros H. unfold package_list, lines.
  rewrite (@lines_aux_app_LF t2 (length t1) t1 [] (le_n _) H).
  apply flat_map_app.
Qed.

End LineLocal.

(** X2. The device list is parsed line by line: the records of two texts
    joined by a line break are the records of the first followed by the
    records of the second, whatever the texts are. *)
Theorem X2_device_list_line_local (t1 t2 : jsstring) :
  exists r1 r2,
    parseDevicesList t1 = Ok r1 /\ parseDevicesList t2 = Ok r2
    /\ parseDevicesList (t1 ++ [LF] ++ t2) = Ok (r1 ++ r2).
Proof.
  exists (device_records t1), (device_records t2).
  rewrite !parseDevicesList_records. cbn [app]. rewrite device_records_app. auto.
Qed.

(** X3. The package list is parsed line by line: when the first text does
    not end with CR, the records of two texts joined by LF are the records
    of the first followed by the records of the second. (A final CR of the
    first text would join the LF into one line break and free the last
    line of the first text from the CR that kept it from matching.) *)
Theorem X3_package_list_line_local (t1 t2 : jsstring) :
  last t1 0%N <> CR ->
  exists r1 r2,
    parsePackageList t1 = Ok r1 /\ parsePackageList t2 = Ok r2
    /\ parsePackageList (t1 ++ [LF] ++ t2) = Ok (r1 ++ r2).
Proof.
  intros H. exists (package_list t1), (package_list t2).
  rewrite !parsePackageList_names. cbn [app]. rewrite package_list_app by exact H. auto.
Qed.

Lemma X3_package_list_line_local_witness :
  exists r1 r2,
    parsePackageList (js "package:a.b") = Ok r1
    /\ parsePackageList (js "junk" ++ [LF] ++ js "package:c=1") = Ok r2
    /\ parsePackageList (js "package:a.b" ++ [LF] ++ js "junk" ++ [LF] ++ js "package:c=1")
       = Ok (r1 ++ r2).
Proof.
  apply (@X3_package_list_line_local (js "package:a.b")
           (js "junk" ++ [LF] ++ js "package:c=1")).
  vm_compute. discriminate.
Defined.

(** ** Texts without a device *)

Section NoDevice.

Lemma flat_map_nil (A B : Type) (f : A -> list B) l :
  flat_map f l = [] <-> Forall (fun x => f x = []) l.
Proof.
  induction l as [|x l IH]; cbn [flat_map]; split; intros H.
  - constructor.
  - reflexivity.
  - apply app_eq_nil in H. destruct H as [H1 H2]. constructor; [exact H1 | apply IH, H2].
  - inversion H as [|? ? H1 H2]; subst. rewrite H1. apply IH, H2.
Qed.

Lemma record_of_line_none l :
  match record_of_line l with Some r => [r] | None => [] end = []
  <-> length (fields l) < 2.
Proof.
  unfold record_of_line. destruct (fields l) as [|a [|b t]]; cbn [length]; split;
    intros H; try reflexivity; try lia; discriminate H.
Qed.

Lemma device_records_nil text :
  device_records text = [] <-> Forall no_device (lines text).
Proof.
  unfold device_records. split.
  - intros H. apply flat_map_nil in H. rewrite Forall_forall in H.
    apply Forall_forall. intros l0 Hin. unfold no_device.
    destruct (trim l0) as [|c t] eqn:E; [left; reflexivity|]. right.
    destruct (is_header (c :: t)) eqn:Eh; [left; reflexivity|]. right.
    apply record_of_line_none, H. apply filter_In. split; [|rewrite Eh; reflexivity].
    apply filter_In. split; [|reflexivity]. rewrite <- E. apply in_map, Hin.
  - intros H. rewrite Forall_forall in H. apply flat_map_nil, Forall_forall.
    intros l Hin. apply filter_In in Hin. destruct Hin as [Hin Hh].
    apply filter_In in Hin. destruct Hin as [Hin Ht].
    apply in_map_iff in Hin. destruct Hin as (l0 & <- & Hin).
    apply record_of_line_none. destruct (H l0 Hin) as [E | [E | E]].
    + rewrite E in Ht. discriminate Ht.
    + rewrite E in Hh. discriminate Hh.
    + exact E.
Qed.

End NoDevice.

(** X4. The device list is empty exactly when no line of the text is a
    device line: every line is blank, begins (once trimmed) with the
    header text, or has a single field. In particular the empty text and a
    text of header lines give the empty list. *)
Theorem X4_device_list_empty (text : jsstring) :
  parseDevicesList text = Ok [] <-> Forall no_device (lines text).
Proof.
  rewrite parseDevicesList_records. split.
  - intros H. injection H as H. apply device_records_nil, H.
  - intros H. apply device_records_nil in H. rewrite H. reflexivity.
Qed.

Lemma X4_device_list_empty_witness :
  parseDevicesList
    (js "List of devices attached" ++ [CR; LF] ++ js "   " ++ [LF]
     ++ js "emulator-5554" ++ [LF])
  = Ok [].
Proof.
  apply (proj2 (X4_device_list_empty _)).
  replace (lines (js "List of devices attached" ++ [CR; LF] ++ js "   " ++ [LF]
                  ++ js "emulator-5554" ++ [LF]))
    with [js "List of devices attached"; js "   "; js "emulator-5554"; []]
    by reflexivity.
  constructor; [right; left; reflexivity|].
  constructor; [left; reflexivity|].
  constructor; [right; right; vm_compute; lia|].
  constructor; [left; reflexivity | constructor].
Defined.

(** ** Labels and flags of the package dump *)

Section DumpFields.

Lemma on_line_iff f : forall s,
  on_line f s = true <->
  exists b r, s = b ++ r /\ Forall (fun c => is_dot c = true) b /\ f r = true.
Proof.
  induction s as [|c s IH]; cbn [on_line]; split.
  - rewrite orb_false_r. intros H. exists [], []. auto.
  - intros (b & r & E & _ & Hf). rewrite orb_false_r.
    symmetry in E. apply app_eq_nil in E. destruct E as [_ ->]. exact Hf.
  - intros H. apply orb_prop in H. destruct H as [H | H].
    + exists [], (c :: s). auto.
    + apply andb_prop in H. destruct H as [Hc H]. apply IH in H.
      destruct H as (b & r & -> & Hb & Hf). exists (c :: b), r. auto.
  - intros (b & r & E & Hb & Hf). destruct b as [|c' b].
    + simpl in E. subst r. rewrite Hf. reflexivity.
    + injection E as -> ->. inversion Hb as [|? ? Hc Hb']; subst.
      rewrite Hc. cbn [andb]. replace (on_line f (b ++ r)) with true; [apply orb_true_r|].
      symmetry. apply IH. eauto.
Qed.

Lemma startsWith_iff p s : startsWith s p = true <-> exists r, s = p ++ r.
Proof.
  split.
  - intros H. exists (skipn (length p) s). apply startsWith_eq, H.
  - intros (r & ->). apply startsWith_refl_app.
Qed.

Lemma flags_block_at_iff s :
  flags_block_at s = true <->
  exists b c d,
    s = js "pkgFlags=[" ++ b ++ js "HAS_CODE" ++ c ++ [93%N] ++ d
    /\ Forall (fun x => is_dot x = true) b
    /\ Forall (fun x => is_dot x = true) c.
Proof.
  unfold flags_block_at. split.
  - intros H. apply andb_prop in H. destruct H as [H1 H2].
    apply startsWith_eq in H1. apply on_line_iff in H2.
    destruct H2 as (b & r & E & Hb & H2). apply andb_prop in H2. destruct H2 as [H2 H3].
    apply startsWith_eq in H2. apply on_line_iff in H3.
    destruct H3 as (c & r' & E' & Hc & H3). apply startsWith_eq in H3.
    exists b, c, (skipn 1 r'). repeat split; try assumption.
    rewrite H1 at 1. rewrite E. rewrite H2 at 1. rewrite E'. rewrite H3 at 1. reflexivity.
  - intros (b & c & d & -> & Hb & Hc). rewrite startsWith_refl_app. cbn [andb].
    rewrite skipn_app, Nat.sub_diag, skipn_all. cbn [app skipn].
    apply on_line_iff. exists b, (js "HAS_CODE" ++ c ++ [93%N] ++ d).
    split; [reflexivity|]. split; [exact Hb|].
    rewrite startsWith_refl_app. cbn [andb].
    rewrite skipn_app, Nat.sub_diag, skipn_all. cbn [app skipn].
    apply on_line_iff. exists c, (93%N :: d). auto.
Qed.

(** The flags block the program looks for is the one spelled out. *)
Lemma has_flags_block_iff : forall text,
  has_flags_block text = true <-> flags_block text.
Proof.
  unfold flags_block. induction text as [|x text IH]; cbn [has_flags_block]; split.
  - rewrite orb_false_r. intros H. apply flags_block_at_iff in H.
    destruct H as (b & c & d & E & Hb & Hc). exists [], b, c, d. auto.
  - intros (a & b & c & d & E & _). destruct a; discriminate E.
  - intros H. apply orb_prop in H. destruct H as [H | H].
    + apply flags_block_at_iff in H. destruct H as (b & c & d & E & Hb & Hc).
      exists [], b, c, d. auto.
    + apply IH in H. destruct H as (a & b & c & d & -> & Hb & Hc).
      exists (x :: a), b, c, d. auto.
  - intros (a & b & c & d & E & Hb & Hc). destruct a as [|x' a].
    + replace (flags_block_at (x :: text)) with true; [reflexivity|].
      symmetry. apply flags_block_at_iff. exists b, c, d. auto.
    + injection E as -> ->. replace (has_flags_block _) with true; [apply orb_true_r|].
      symmetry. apply IH. exists a, b, c, d. auto.
Qed.

End DumpFields.

(** X5. First match wins for the numeric fields: when the first
    [versionCode=] (or [appId=], or [userId=]) of the text, wherever it
    stands, also in the middle of a longer word, is followed by a run of
    digits that ends at the end of the text or at a code unit that is not
    a digit, the field is exactly that run; what comes later in the text
    does not matter. *)
Theorem X5_first_number_wins (pre digits post : jsstring) :
  digits <> [] ->
  Forall (fun c => is_digit c = true) digits ->
  match post with [] => True | c :: _ => is_digit c = false end ->
  (includes (pre ++ js "versionCode") (js "versionCode=") = false ->
   exists d, parseDumpsysPackage (pre ++ js "versionCode=" ++ digits ++ post) = Ok d
             /\ versionCode d = digits)
  /\ (includes (pre ++ js "appId") (js "appId=") = false ->
      exists d, parseDumpsysPackage (pre ++ js "appId=" ++ digits ++ post) = Ok d
                /\ appId d = digits)
  /\ (includes (pre ++ js "userId") (js "userId=") = false ->
      exists d, parseDumpsysPackage (pre ++ js "userId=" ++ digits ++ post) = Ok d
                /\ userId d = digits).
Proof.
  intros Hne Hd Hp. repeat split; intros H; rewrite parseDumpsysPackage_details;
    eexists; (split; [reflexivity|]);
    cbn [versionCode appId userId package_details].
  - change (js "versionCode=") with (js "versionCode" ++ [61%N]).
    change ((js "versionCode" ++ [61%N]) ++ digits ++ post)
      with ((js "versionCode" ++ [61%N]) ++ digits ++ post).
    apply (@label_value_first (js "versionCode") 61%N is_digit digits post pre); assumption.
  - apply (@label_value_first (js "appId") 61%N is_digit digits post pre); assumption.
  - apply (@label_value_first (js "userId") 61%N is_digit digits post pre); assumption.
Qed.

Lemma X5_first_number_wins_witness :
  exists d,
    parseDumpsysPackage
      (js "    sharedUserId=77 userId=10234" ++ [LF] ++ js "    userId=5" ++ [LF])
    = Ok d /\ userId d = js "10234".
Proof.
  apply (proj2 (proj2 (@X5_first_number_wins (js "    sharedUserId=77 ") (js "10234")
                         ([LF] ++ js "    userId=5" ++ [LF])
                         ltac:(discriminate) ltac:(repeat constructor) eq_refl)));
    reflexivity.
Defined.

(** X6. The three states of [enabled]: it is [true] exactly when the text
    contains [enabled=true] or a flags block [pkgFlags=[ ... HAS_CODE ...
    ]] on one line; otherwise it is [false] exactly when the text contains
    [enabled=false]; otherwise it is [null]. So [enabled=true] and the
    flags block both win over [enabled=false]. *)
Theorem X6_enabled_three_states (text : jsstring) :
  exists d, parseDumpsysPackage text = Ok d
  /\ (enabled d = Some true <->
      includes text (js "enabled=true") = true \/ flags_block text)
  /\ (enabled d = Some false <->
      includes text (js "enabled=true") = false /\ ~ flags_block text
      /\ includes text (js "enabled=false") = true)
  /\ (enabled d = None <->
      includes text (js "enabled=true") = false /\ ~ flags_block text
      /\ includes text (js "enabled=false") = false).
Proof.
  exists (package_details text). split; [apply parseDumpsysPackage_details|].
  cbn [enabled package_details]. unfold enabled_of.
  pose proof (has_flags_block_iff text) as [Hf1 Hf2].
  destruct (includes text (js "enabled=true")); destruct (has_flags_block text);
    destruct (includes text (js "enabled=false")); cbn [orb];
    repeat split; intros; intuition (try discriminate; try congruence).
Qed.

(** ** A permission section, written and read back *)

Section SectionRoundTrip.

Lemma after_first_unfold header s :
  after_first header s =
  if startsWith s header then Some (skipn (length header) s)
  else match s with [] => None | _ :: s' => after_first header s' end.
Proof. destruct s; reflexivity. Qed.

Lemma after_first_first (l0 : jsstring) (e : char) r : forall pre,
  includes (pre ++ l0) (l0 ++ [e]) = false ->
  after_first (l0 ++ [e]) (pre ++ (l0 ++ [e]) ++ r) = Some r.
Proof.
  induction pre as [|c pre IH]; intros Hinc.
  - cbn [app]. rewrite after_first_unfold, startsWith_refl_app.
    rewrite skipn_app, Nat.sub_diag, skipn_all. reflexivity.
  - cbn [app after_first].
    assert (Hsw : startsWith (c :: pre ++ (l0 ++ [e]) ++ r) (l0 ++ [e]) = false).
    { apply includes_startsWith in Hinc.
      change (c :: pre ++ (l0 ++ [e]) ++ r) with ((c :: pre) ++ (l0 ++ [e]) ++ r).
      rewrite <- (app_assoc l0), (app_assoc (c :: pre) l0).
      rewrite startsWith_long; [exact Hinc|].
      rewrite !length_app. simpl. lia. }
    rewrite Hsw. apply IH. eapply includes_cons. exact Hinc.
Qed.

Lemma cut_blank_unfold s :
  cut_blank s =
  if startsWith s [LF; LF] then Some ([], skipn 2 s)
  else
    match s with
    | c :: t =>
        match cut_blank t with
        | Some (b, a) => Some (c :: b, a)
        | None => None
        end
    | [] => None
    end.
Proof. destruct s; reflexivity. Qed.

(** No pair of newlines starts inside a stretch without LF. *)
Lemma cut_blank_noLF y : forall x,
  ~ In LF x ->
  cut_blank (x ++ y) =
  match cut_blank y with Some (b, a) => Some (x ++ b, a) | None => None end.
Proof.
  induction x as [|c x IH]; intros H.
  - cbn [app]. destruct (cut_blank y) as [[b a]|]; reflexivity.
  - cbn [app]. rewrite cut_blank_unfold. cbn [startsWith].
    replace (LF =? c)%N with false
      by (symmetry; apply N.eqb_neq; intros <-; apply H; left; reflexivity).
    cbn [andb]. rewrite IH by (intros Hin; apply H; right; exact Hin).
    destruct (cut_blank y) as [[b a]|]; reflexivity.
Qed.

Lemma cut_blank_LF_other c y :
  c <> LF ->
  cut_blank (LF :: c :: y) =
  match cut_blank (c :: y) with Some (b, a) => Some (LF :: b, a) | None => None end.
Proof.
  intros H. rewrite cut_blank_unfold. cbn [startsWith].
  replace (LF =? c)%N with false by (symmetry; apply N.eqb_neq; congruence).
  rewrite andb_false_r. reflexivity.
Qed.

Lemma permission_line ind q :
  indentation ind -> permission q ->
  ~ In LF (ind ++ q) /\ (exists c t, ind ++ q = c :: t /\ c <> LF)
  /\ last (ind ++ q) 0%N <> CR.
Proof.
  intros [Hsp Hlf] [Ht Hq].
  assert (Hno : ~ In LF (ind ++ q)).
  { intros Hin. apply in_app_or in Hin. tauto. }
  split; [exact Hno|]. destruct q as [|d q']; [destruct Ht|]. split.
  - destruct (ind ++ d :: q') as [|c t] eqn:E; [destruct ind; discriminate E|].
    exists c, t. split; [reflexivity|]. intros ->. apply Hno. try rewrite E. left. reflexivity.
  - rewrite last_app_ne by discriminate. destruct Ht as [_ Hl].
    intros E. rewrite E in Hl. discriminate Hl.
Qed.

Lemma section_block_cons ind q perms y :
  section_block ((ind, q) :: perms) ++ y
  = (ind ++ q) ++ LF :: section_block perms ++ y.
Proof.
  unfold section_block. cbn [flat_map fst snd]. rewrite <- !app_assoc. reflexivity.
Qed.

(** The body of a block of permission lines that a blank line ends. *)
Lemma cut_blank_block post : forall perms x,
  Forall (fun ip => indentation (fst ip) /\ permission (snd ip)) perms ->
  ~ In LF x ->
  cut_blank (x ++ LF :: section_block perms ++ LF :: post) =
  Some (x ++ flat_map (fun ip => LF :: fst ip ++ snd ip) perms, post).
Proof.
  induction perms as [|[ind q] perms IH]; intros x H Hx.
  - cbn [section_block flat_map app]. rewrite cut_blank_noLF by exact Hx. reflexivity.
  - inversion H as [|? ? [Hind Hq] H']; subst. cbn [fst snd] in *.
    destruct (permission_line Hind Hq) as (Hno & (c & t & E & Hc) & _).
    rewrite section_block_cons, cut_blank_noLF by exact Hx.
    rewrite E. cbn [app]. rewrite cut_blank_LF_other by exact Hc.
    change (c :: t ++ LF :: section_block perms ++ LF :: post)
      with ((c :: t) ++ LF :: section_block perms ++ LF :: post).
    rewrite <- E, IH by assumption.
    cbn [flat_map fst snd]. reflexivity.
Qed.

Lemma lines_aux_block : forall perms x piece,
  Forall (fun ip => indentation (fst ip) /\ permission (snd ip)) perms ->
  plain x ->
  lines_aux piece (x ++ flat_map (fun ip => LF :: fst ip ++ snd ip) perms) =
  (rev piece ++ x) :: List.map (fun ip => fst ip ++ snd ip) perms.
Proof.
  induction perms as [|[ind q] perms IH]; intros x piece H Hx.
  - cbn [flat_map List.map]. rewrite app_nil_r. apply lines_aux_noLF, Hx.
  - inversion H as [|? ? [Hind Hq] H']; subst. cbn [fst snd] in *.
    destruct (permission_line Hind Hq) as (Hno & _ & Hl).
    cbn [flat_map List.map fst snd].
    change ((LF :: ind ++ q) ++ flat_map (fun ip => LF :: fst ip ++ snd ip) perms)
      with (eol false ++ (ind ++ q) ++ flat_map (fun ip => LF :: fst ip ++ snd ip) perms).
    rewrite lines_aux_line by exact Hx. f_equal.
    rewrite IH by (assumption || (split; assumption)). reflexivity.
Qed.

Lemma trim_indent ind q : indentation ind -> permission q -> trim (ind ++ q) = q.
Proof.
  intros [Hsp _] [Ht _]. rewrite <- (@trim_id q Ht) at 2. unfold trim.
  rewrite dropWhile_nil_app by (apply dropWhile_all, Hsp). reflexivity.
Qed.

Lemma permission_plain q : permission q -> plain q.
Proof.
  intros [Ht Hlf]. split; [exact Hlf|]. destruct q as [|c t]; [destruct Ht|].
  destruct Ht as [_ Hl]. intros E. rewrite E in Hl. discriminate Hl.
Qed.

(** The lines of a section written as a header line, a block of indented
    permissions and a blank line. *)
Lemma section_lines_block (l0 : jsstring) (e : char) pre post ind0 p0 perms :
  includes (pre ++ l0) (l0 ++ [e]) = false ->
  indentation ind0 -> permission p0 ->
  Forall (fun ip => indentation (fst ip) /\ permission (snd ip)) perms ->
  section_lines (l0 ++ [e])
    (pre ++ (l0 ++ [e]) ++ LF :: section_block ((ind0, p0) :: perms) ++ LF :: post)
  = p0 :: List.map snd perms.
Proof.
  intros Hfirst Hind0 Hp0 Hperms. unfold section_lines, section_body.
  rewrite after_first_first by exact Hfirst.
  rewrite section_block_cons. cbn [dropWhile].
  replace (is_space LF) with true by reflexivity.
  rewrite <- app_assoc.
  rewrite dropWhile_nil_app by (apply dropWhile_all, Hind0).
  assert (Hd : dropWhile is_space (p0 ++ LF :: section_block perms ++ LF :: post)
               = p0 ++ LF :: section_block perms ++ LF :: post).
  { destruct Hp0 as [Ht _]. destruct p0 as [|c t]; [destruct Ht|].
    apply dropWhile_head_false, Ht. }
  rewrite Hd, cut_blank_block by (assumption || apply Hp0).
  unfold lines. rewrite lines_aux_block by (assumption || apply permission_plain, Hp0).
  cbn [rev app List.map]. rewrite (@trim_id p0 (proj1 Hp0)). f_equal.
  clear - Hperms.
  induction Hperms as [|[ind q] perms [Hi Hq] _ IH]; [reflexivity|].
  cbn [List.map fst snd]. rewrite (@trim_indent ind q Hi Hq), IH. reflexivity.
Qed.

End SectionRoundTrip.

(** X7. Round trip of the permission sections: when the first
    [grantedPermissions:] of the text ends its line and is followed by one
    or more lines, each a permission after its indentation, and then by an
    empty line, the granted permissions are exactly those permissions, in
    order, whatever comes before the header and after the empty line; the
    same holds for [requested permissions:], less the permissions that
    contain [granted=true]. *)
Theorem X7_section_round_trip
  (pre post ind0 p0 : jsstring) (perms : list (jsstring * jsstring)) :
  indentation ind0 -> permission p0 ->
  Forall (fun ip => indentation (fst ip) /\ permission (snd ip)) perms ->
  (includes (pre ++ js "grantedPermissions") (js "grantedPermissions:") = false ->
   exists d,
     parseDumpsysPackage
       (pre ++ js "grantedPermissions:" ++ [LF]
        ++ section_block ((ind0, p0) :: perms) ++ [LF] ++ post) = Ok d
     /\ granted d = p0 :: List.map snd perms)
  /\ (includes (pre ++ js "requested permissions") (js "requested permissions:") = false ->
      exists d,
        parseDumpsysPackage
          (pre ++ js "requested permissions:" ++ [LF]
           ++ section_block ((ind0, p0) :: perms) ++ [LF] ++ post) = Ok d
        /\ requested d =
           filter (fun p => negb (includes p granted_true)) (p0 :: List.map snd perms)).
Proof.
  intros Hind0 Hp0 Hperms.
  assert (Hne : Forall (fun p => truthy p = true) (p0 :: List.map snd perms)).
  { constructor.
    - destruct Hp0 as [Ht _]. destruct p0; [destruct Ht | reflexivity].
    - apply Forall_forall. intros p Hin. apply in_map_iff in Hin.
      destruct Hin as ([ind q] & <- & Hin). rewrite Forall_forall in Hperms.
      destruct (Hperms _ Hin) as [_ [Ht _]]. cbn [snd] in *.
      destruct q; [destruct Ht | reflexivity]. }
  split; intros Hfirst; rewrite parseDumpsysPackage_details; eexists;
    (split; [reflexivity|]); cbn [granted requested package_details].
  - unfold granted_of, granted_header.
    change (js "grantedPermissions:") with (js "grantedPermissions" ++ [COLON]).
    change ([LF] ++ section_block ((ind0, p0) :: perms) ++ [LF] ++ post)
      with (LF :: section_block ((ind0, p0) :: perms) ++ LF :: post).
    rewrite section_lines_block by assumption. apply filter_all, Hne.
  - unfold requested_of, requested_header.
    change (js "requested permissions:") with (js "requested permissions" ++ [COLON]).
    change ([LF] ++ section_block ((ind0, p0) :: perms) ++ [LF] ++ post)
      with (LF :: section_block ((ind0, p0) :: perms) ++ LF :: post).
    rewrite section_lines_block by assumption.
    apply filter_ext_in. intros p Hin. unfold keep_requested.
    rewrite Forall_forall in Hne. rewrite (Hne p Hin). reflexivity.
Qed.

Lemma X7_section_round_trip_witness :
  exists d,
    parseDumpsysPackage
      (js "  Packages:" ++ [LF] ++ js "    grantedPermissions:" ++ [LF]
       ++ js "      android.permission.INTERNET" ++ [LF]
       ++ js "      android.permission.CAMERA" ++ [LF]
       ++ [LF] ++ js "    flags=[ ]" ++ [LF]) = Ok d
    /\ granted d = [js "android.permission.INTERNET"; js "android.permission.CAMERA"].
Proof.
  apply (proj1 (@X7_section_round_trip
                  (js "  Packages:" ++ [LF] ++ js "    ") (js "    flags=[ ]" ++ [LF])
                  (js "      ") (js "android.permission.INTERNET")
                  [(js "      ", js "android.permission.CAMERA")]
                  ltac:(split; [repeat constructor | vm_compute; intuition discriminate])
                  ltac:(split; [split; reflexivity | vm_compute; intuition discriminate])
                  ltac:(repeat constructor; vm_compute; intuition discriminate))).
  reflexivity.
Defined.

(** ** The relay on arbitrary chunks *)

Section RelayChunks.

Lemma lines_aux_pieces : forall n s piece,
  length s <= n -> ~ In LF piece ->
  Forall (fun l => ~ In LF l) (lines_aux piece s).
Proof.
  induction n as [|n IH]; intros s piece Hn Hp.
  - destruct s; [|simpl in Hn; lia]. repeat constructor.
    intros Hin. apply Hp, in_rev, Hin.
  - destruct s as [|c s']; [repeat constructor; intros Hin; apply Hp, in_rev, Hin|].
    simpl in Hn. cbn [lines_aux].
    assert (Hrev : ~ In LF (rev piece)) by (intros Hin; apply Hp, in_rev, Hin).
    destruct (N.eqb_spec c LF) as [->|Hc].
    + constructor; [exact Hrev | apply IH; [lia | intros []]].
    + assert (Hcp : ~ In LF (c :: piece)) by (intros [E | Hin]; [congruence | tauto]).
      destruct s' as [|d s'']; [apply IH; [simpl; lia | exact Hcp]|].
      destruct ((c =? CR)%N && (d =? LF)%N).
      * constructor; [exact Hrev | apply IH; [simpl in Hn; lia | intros []]].
      * apply IH; [simpl in *; lia | exact Hcp].
Qed.

Lemma lines_pieces s : Forall (fun l => ~ In LF l) (lines s).
Proof. apply (@lines_aux_pieces (length s)); [lia | intros []]. Qed.

(** One chunk, whatever it holds. *)
Lemma on_arrival_events a res : on_arrival a res = Ok (res ++ events_of a).
Proof.
  destruct a as [chunk|chunk]; cbn [on_arrival events_of].
  - unfold on_stdout_data. rewrite split_newline. cbn [bind].
    etransitivity;
      [exact (@for_of_send [] _ res (fun H0 => H0) (lines_pieces chunk))|].
    reflexivity.
  - unfold on_stderr_data. rewrite split_newline. cbn [bind].
    exact (@for_of_send stderr_tag _ res stderr_tag_plain (lines_pieces chunk)).
Qed.

Lemma for_of_on_arrival : forall arrivals res,
  for_of arrivals on_arrival res = Ok (res ++ flat_map events_of arrivals).
Proof.
  induction arrivals as [|a arrivals IH]; intros res.
  - simpl. rewrite app_nil_r. reflexivity.
  - cbn [for_of flat_map]. rewrite on_arrival_events. cbn [bind].
    rewrite IH, <- app_assoc. reflexivity.
Qed.

Lemma events_of_framed a :
  Forall (fun w => exists t, w = event t /\ t <> [] /\ ~ In LF t) (events_of a).
Proof.
  apply Forall_forall. intros w Hin. destruct a as [chunk|chunk]; cbn [events_of] in Hin;
    apply in_map_iff in Hin; destruct Hin as (l & <- & Hin);
    apply filter_In in Hin; destruct Hin as [Hin Ht];
    pose proof (lines_pieces chunk) as Hl; rewrite Forall_forall in Hl;
    specialize (Hl l Hin).
  - exists l. split; [reflexivity|]. split; [destruct l; discriminate | exact Hl].
  - exists (stderr_tag ++ l). split; [reflexivity|]. split; [discriminate|].
    intros Hi. apply in_app_or in Hi. destruct Hi as [Hi | Hi]; [|tauto].
    apply stderr_tag_plain, Hi.
Qed.

End RelayChunks.

(** X8. For every sequence of data chunks, whatever they hold, the relay
    returns, and writes for each chunk in arrival order one event for each
    non-empty piece between its line breaks (LF or CR LF), the pieces of
    standard error after ["[stderr] "]. Every write is one framed event:
    ["data: "], a text that is not empty and holds no LF, and two LF. *)
Theorem X8_relay_events (arrivals : list arrival) :
  logcat arrivals = Ok (flat_map events_of arrivals)
  /\ Forall (fun w => exists t, w = event t /\ t <> [] /\ ~ In LF t)
       (flat_map events_of arrivals).
Proof.
  split.
  - unfold logcat. rewrite for_of_on_arrival. reflexivity.
  - apply Forall_forall. intros w Hin. apply in_flat_map in Hin.
    destruct Hin as (a & _ & Hin).
    pose proof (events_of_framed a) as H. rewrite Forall_forall in H. apply H, Hin.
Qed.

(** X9. The handlers keep nothing between chunks, on either stream: a
    line whose text arrives cut in two chunks of the same stream is
    forwarded as two events, one for each part, where the same line
    arriving in one chunk is forwarded as one event; on standard error
    each of the two parts gets the tag ["[stderr] "]. *)
Theorem X9_line_cut_by_chunks (a b : jsstring) :
  a <> [] -> ~ In LF a -> b <> [] -> plain b ->
  logcat [StdoutData a; StdoutData (b ++ [LF])] = Ok [event a; event b]
  /\ logcat [StdoutData (a ++ b ++ [LF])] = Ok [event (a ++ b)]
  /\ logcat [StderrData a; StderrData (b ++ [LF])]
     = Ok [event (stderr_tag ++ a); event (stderr_tag ++ b)]
  /\ logcat [StderrData (a ++ b ++ [LF])] = Ok [event (stderr_tag ++ a ++ b)].
Proof.
  intros Ha Hla Hb Hpb.
  assert (Hab : plain (a ++ b)).
  { destruct Hpb as [Hlb Hcr]. split.
    - intros Hin. apply in_app_or in Hin. tauto.
    - rewrite last_app_ne by exact Hb. exact Hcr. }
  assert (L1 : lines a = [a]) by (apply lines_noLF, Hla).
  assert (L2 : lines (b ++ [LF]) = [b; []]).
  { unfold lines. change (b ++ [LF]) with (b ++ eol false ++ []).
    rewrite lines_aux_line by exact Hpb. reflexivity. }
  assert (L3 : lines (a ++ b ++ [LF]) = [a ++ b; []]).
  { unfold lines. rewrite app_assoc. change ((a ++ b) ++ [LF]) with ((a ++ b) ++ eol false ++ []).
    rewrite lines_aux_line by exact Hab. reflexivity. }
  assert (Tab : truthy (a ++ b) = true)
    by (apply truthy_nonempty; destruct a; [congruence | discriminate]).
  repeat split; unfold logcat; rewrite for_of_on_arrival; cbn [app flat_map events_of].
  - rewrite L1, L2. cbn [filter]. rewrite (@truthy_nonempty a Ha), (@truthy_nonempty b Hb).
    reflexivity.
  - rewrite L3. cbn [filter]. rewrite Tab. reflexivity.
  - rewrite L1, L2. cbn [filter]. rewrite (@truthy_nonempty a Ha), (@truthy_nonempty b Hb).
    reflexivity.
  - rewrite L3. cbn [filter]. rewrite Tab. reflexivity.
Qed.

Lemma X9_line_cut_by_chunks_witness :
  logcat [StdoutData (js "I/app: sta"); StdoutData (js "rted" ++ [LF])]
    = Ok [event (js "I/app: sta"); event (js "rted")]
  /\ logcat [StdoutData (js "I/app: sta" ++ js "rted" ++ [LF])]
    = Ok [event (js "I/app: sta" ++ js "rted")]
  /\ logcat [StderrData (js "I/app: sta"); StderrData (js "rted" ++ [LF])]
    = Ok [event (stderr_tag ++ js "I/app: sta"); event (stderr_tag ++ js "rted")]
  /\ logcat [StderrData (js "I/app: sta" ++ js "rted" ++ [LF])]
    = Ok [event (stderr_tag ++ js "I/app: sta" ++ js "rted")].
Proof.
  apply (@X9_line_cut_by_chunks (js "I/app: sta") (js "rted")).
  - discriminate.
  - vm_compute. intuition discriminate.
  - discriminate.
  - split; vm_compute; [intuition discriminate | discriminate].
Defined.

(** ** The arguments of [logcat] *)

Section LogcatArgs.

Lemma split_chr_aux_whole sep : forall file acc,
  ~ In sep file -> split_chr_aux sep acc file = [rev acc ++ file].
Proof.
  induction file as [|c file IH]; intros acc H; cbn [split_chr_aux].
  - rewrite app_nil_r. reflexivity.
  - destruct (N.eqb_spec c sep) as [->|Hc]; [exfalso; apply H; left; reflexivity|].
    rewrite IH by (intros Hin; apply H; right; exact Hin).
    cbn [rev]. rewrite <- app_assoc. reflexivity.
Qed.

(** A piece that is followed by the separator. *)
Lemma split_chr_aux_piece sep r : forall w acc,
  ~ In sep w ->
  split_chr_aux sep acc (w ++ sep :: r) = (rev acc ++ w) :: split_chr_aux sep [] r.
Proof.
  induction w as [|c w IH]; intros acc H; cbn [app split_chr_aux].
  - rewrite N.eqb_refl, app_nil_r. reflexivity.
  - destruct (N.eqb_spec c sep) as [->|Hc]; [exfalso; apply H; left; reflexivity|].
    rewrite IH by (intros Hin; apply H; right; exact Hin).
    cbn [rev]. rewrite <- app_assoc. reflexivity.
Qed.

(** Spaces before a word leave empty pieces only. *)
Lemma split_spaces_before r : forall n,
  filter truthy (split_chr_aux SP [] (repeat SP n ++ r))
  = filter truthy (split_chr_aux SP [] r).
Proof.
  induction n as [|n IH]; [reflexivity|].
  cbn [repeat app split_chr_aux]. rewrite N.eqb_refl. cbn [rev filter truthy]. exact IH.
Qed.

(** A word at the end of the text or before a space is a piece. *)
Lemma split_word w r :
  filter_word w ->
  match r with [] => True | c :: _ => c = SP end ->
  filter truthy (split_chr_aux SP [] (w ++ r))
  = w :: filter truthy (split_chr_aux SP [] r).
Proof.
  intros [Hne Hsp] Hr. destruct r as [|c r].
  - rewrite app_nil_r, split_chr_aux_whole by exact Hsp.
    cbn [rev app filter split_chr_aux truthy]. rewrite (truthy_nonempty Hne). reflexivity.
  - subst c. rewrite split_chr_aux_piece by exact Hsp.
    cbn [rev app filter split_chr_aux]. rewrite N.eqb_refl, (truthy_nonempty Hne).
    cbn [rev filter truthy]. reflexivity.
Qed.

Lemma filter_text_head ws trail :
  apart ((0, []) :: ws) ->
  match filter_text ws trail with [] => True | c :: _ => c = SP end.
Proof.
  unfold apart, filter_text. cbn [tl]. intros H. destruct ws as [|[n w] ws].
  - destruct trail; [exact I | reflexivity].
  - inversion H as [|x xs Hn _]; subst. cbn [fst] in Hn.
    destruct n as [|n]; [lia | reflexivity].
Qed.

(** The words of a filter text. *)
Lemma filter_text_words trail : forall ws,
  Forall (fun nw => filter_word (snd nw)) ws -> apart ws ->
  filter truthy (split_chr SP (filter_text ws trail)) = List.map snd ws.
Proof.
  unfold split_chr. induction ws as [|[n w] ws IH]; intros Hw Ha.
  - unfold filter_text. cbn [flat_map app]. rewrite <- (app_nil_r (repeat SP trail)).
    rewrite split_spaces_before. reflexivity.
  - inversion Hw as [|x xs Hw1 Hws]; subst. cbn [snd] in Hw1.
    replace (filter_text ((n, w) :: ws) trail)
      with (repeat SP n ++ w ++ filter_text ws trail)
      by (unfold filter_text; cbn [flat_map fst snd]; rewrite <- !app_assoc; reflexivity).
    rewrite split_spaces_before.
    rewrite split_word; [|exact Hw1 | apply filter_text_head; exact Ha].
    cbn [List.map snd]. f_equal. apply IH; [exact Hws|].
    unfold apart in *. cbn [tl] in Ha. destruct ws as [|nw ws]; [constructor|].
    inversion Ha; subst. assumption.
Qed.

(** Every text is a filter text. *)
Lemma filter_text_any : forall f : jsstring,
  exists ws trail,
    f = filter_text ws trail
    /\ Forall (fun nw => filter_word (snd nw)) ws /\ apart ws.
Proof.
  induction f as [|c f IH].
  - exists [], 0. split; [reflexivity|]. split; constructor.
  - destruct IH as (ws & trail & -> & Hw & Ha).
    destruct (N.eq_dec c SP) as [->|Hc].
    + destruct ws as [|[n w] ws].
      * exists [], (S trail). split; [reflexivity|]. split; constructor.
      * exists ((S n, w) :: ws), trail. split; [reflexivity|].
        split; [|exact Ha]. inversion Hw; subst. constructor; assumption.
    + assert (Hword : filter_word [c]).
      { split; [discriminate|]. intros [E|[]]. exact (Hc E). }
      destruct ws as [|[n w] ws].
      * exists [(0, [c])], trail. split; [reflexivity|].
        split; [constructor; [exact Hword | constructor] | constructor].
      * destruct n as [|n].
        -- exists ((0, c :: w) :: ws), trail. split; [reflexivity|].
           split; [|exact Ha]. inversion Hw as [|x xs [Hne Hsp] Hws]; subst.
           cbn [snd] in *. constructor; [|exact Hws]. split; cbn [snd]; [discriminate|].
           intros [E|Hin]; [exact (Hc E) | exact (Hsp Hin)].
        -- exists ((0, [c]) :: (S n, w) :: ws), trail. split; [reflexivity|].
           split; [constructor; [exact Hword | exact Hw]|].
           unfold apart in *. cbn [tl] in *. constructor; [cbn; lia | exact Ha].
Qed.

End LogcatArgs.

(** X10. The words of the filter are the pieces between its spaces: for a
    filter made of words, each not empty and without a space (U+0020; a
    tab or a line break stays inside its word), with any number of spaces
    before the first word and after the last and one or more between two
    words, and for a serial that is not empty, the subprocess gets
    [-s <serial> logcat -v time] followed by exactly these words, in
    order. Every text is such a filter. *)
Theorem X10_logcat_filter_words (serial : jsstring) (ws : list (nat * jsstring))
  (trail : nat) :
  serial <> [] ->
  Forall (fun nw => filter_word (snd nw)) ws -> apart ws ->
  logcat_args (QString serial) (QString (filter_text ws trail))
  = Ok (Some ([QString (js "-s"); QString serial; QString (js "logcat");
               QString (js "-v"); QString (js "time")]
              ++ List.map (fun nw => QString (snd nw)) ws)).
Proof.
  intros Hs Hw Ha. pose proof (@filter_text_words trail ws Hw Ha) as E.
  unfold logcat_args. cbn [query_truthy]. rewrite (truthy_nonempty Hs). cbn [negb].
  destruct (filter_text ws trail) as [|c f] eqn:Ef; cbn [truthy].
  - cbn in E. destruct ws; [reflexivity | discriminate E].
  - rewrite E, map_map. reflexivity.
Qed.

Lemma X10_logcat_filter_words_witness :
  logcat_args (QString (js "emulator-5554"))
    (QString (js " ActivityManager:I  *:S" ++ [9%N] ++ js "x "))
  = Ok (Some [QString (js "-s"); QString (js "emulator-5554"); QString (js "logcat");
              QString (js "-v"); QString (js "time");
              QString (js "ActivityManager:I"); QString (js "*:S" ++ [9%N] ++ js "x")]).
Proof.
  apply (@X10_logcat_filter_words (js "emulator-5554")
           [(1, js "ActivityManager:I"); (2, js "*:S" ++ [9%N] ++ js "x")] 1).
  - discriminate.
  - repeat constructor; try discriminate; vm_compute; intuition discriminate.
  - repeat constructor.
Defined.

(** ** The names of the files of [/api/package/apk] *)

Section ApkNames.

Lemma sticky_unsafe q s :
  sticky re_unsafe q s =
  match s with
  | c :: s' => if version_char c then None else Some (MState (S q) s' [])
  | [] => None
  end.
Proof.
  unfold sticky, re_unsafe. cbn. destruct s as [|c s']; [reflexivity|].
  destruct (version_char c); reflexivity.
Qed.

Lemma replace_loop_unsafe : forall fuel s q,
  length s < fuel ->
  replace_loop re_unsafe (js "_") fuel q s = Ok (List.map underscore s).
Proof.
  induction fuel as [|fuel IH]; intros s q Hf; [lia|].
  cbn [replace_loop]. rewrite sticky_unsafe.
  destruct s as [|c s']; [reflexivity|]. cbn [length] in Hf.
  cbn [List.map]. unfold underscore at 1.
  destruct (version_char c).
  - rewrite IH by lia. reflexivity.
  - cbn [pos rest]. replace (S q =? q) with false by (symmetry; apply Nat.eqb_neq; lia).
    rewrite IH by lia. reflexivity.
Qed.

Lemma replace_unsafe pkg :
  replace_all pkg re_unsafe (js "_") = Ok (List.map underscore pkg).
Proof. unfold replace_all. apply replace_loop_unsafe. lia. Qed.

Lemma underscore_safe c : version_char (underscore c) = true.
Proof. unfold underscore. destruct (version_char c) eqn:E; [exact E | reflexivity]. Qed.

Lemma underscore_id s :
  Forall (fun c => version_char c = true) s -> List.map underscore s = s.
Proof.
  induction 1 as [|c s Hc _ IH]; [reflexivity|].
  cbn [List.map]. unfold underscore at 1. rewrite Hc, IH. reflexivity.
Qed.

Lemma split_chr_aux_last sep d : forall dir acc file,
  ~ In sep file ->
  last (split_chr_aux sep acc (dir ++ sep :: file)) d = file.
Proof.
  assert (Hne : forall s acc, split_chr_aux sep acc s <> []).
  { induction s as [|c s IH]; intros acc; cbn [split_chr_aux]; [discriminate|].
    destruct (c =? sep)%N; [discriminate | apply IH]. }
  induction dir as [|c dir IH]; intros acc file H; cbn [app split_chr_aux].
  - rewrite N.eqb_refl, split_chr_aux_whole by exact H. reflexivity.
  - destruct (c =? sep)%N.
    + specialize (IH [] file H).
      destruct (split_chr_aux sep [] (dir ++ sep :: file)) eqn:E;
        [exfalso; exact (Hne _ _ E) | exact IH].
    + apply IH. exact H.
Qed.

(** The place of the last separator of a text is determined. *)
Lemma last_sep_unique (sep : char) : forall a b x y : jsstring,
  ~ In sep x -> ~ In sep y -> a ++ sep :: x = b ++ sep :: y -> a = b /\ x = y.
Proof.
  induction a as [|c a IH]; intros b x y Hx Hy E.
  - destruct b as [|c' b]; cbn [app] in E.
    + injection E as E. split; [reflexivity | exact E].
    + injection E as _ E. exfalso. apply Hx. rewrite E. apply in_or_app. right. left. reflexivity.
  - destruct b as [|c' b]; cbn [app] in E.
    + injection E as _ E. exfalso. apply Hy. rewrite <- E. apply in_or_app. right. left. reflexivity.
    + injection E as Ec E. destruct (IH b x y Hx Hy E) as [-> ->]. subst c'. split; reflexivity.
Qed.

Lemma endsWith_iff s suffix :
  endsWith s suffix = true <-> exists a, s = a ++ suffix.
Proof.
  unfold endsWith. split.
  - intros H. apply andb_true_iff in H. destruct H as [Hl He].
    apply str_eqb_eq in He. exists (firstn (length s - length suffix) s).
    rewrite <- He at 2. symmetry. apply firstn_skipn.
  - intros [a ->]. rewrite length_app. apply andb_true_iff. split.
    + apply Nat.leb_le. lia.
    + replace (length a + length suffix - length suffix) with (length a + 0) by lia.
      rewrite skipn_app, Nat.add_0_r, skipn_all, Nat.sub_diag. cbn [app skipn].
      apply str_eqb_refl.
Qed.

Lemma endsWith_base dir file :
  ~ In SLASH file ->
  endsWith (dir ++ SLASH :: file) (js "/base.apk") = str_eqb file (js "base.apk").
Proof.
  intros H. destruct (str_eqb file (js "base.apk")) eqn:E.
  - apply str_eqb_eq in E. subst file. apply endsWith_iff. exists dir. reflexivity.
  - destruct (endsWith (dir ++ SLASH :: file) (js "/base.apk")) eqn:E'; [|reflexivity].
    apply endsWith_iff in E'. destruct E' as [a Ea].
    change (js "/base.apk") with (SLASH :: js "base.apk") in Ea.
    apply last_sep_unique in Ea; [|exact H|].
    + destruct Ea as [_ ->]. rewrite str_eqb_refl in E. discriminate E.
    + cbv. intuition discriminate.
Qed.

End ApkNames.

(** X11. The file names of the downloads: the name of a single APK is the
    package name with every code unit outside [[\w.\-+]] replaced by an
    underscore, followed by [.apk] (and [app.apk] for the empty name only);
    the name of the archive is the same text followed by [.apks.zip]. Both
    names consist of code units of the class [[\w.\-+]] only, so neither
    holds a quote, a slash, a backslash or a line break, and a name that
    is already in the class is kept as it is. *)
Theorem X11_download_names (pkg : jsstring) :
  apk_filename pkg
  = Ok ((if truthy pkg then List.map underscore pkg else js "app") ++ js ".apk")
  /\ apks_filename pkg = Ok (List.map underscore pkg ++ js ".apks.zip")
  /\ (forall name, apk_filename pkg = Ok name \/ apks_filename pkg = Ok name ->
        Forall (fun c => version_char c = true) name
        /\ length pkg < length name)
  /\ (Forall (fun c => version_char c = true) pkg ->
      apks_filename pkg = Ok (pkg ++ js ".apks.zip")
      /\ (pkg <> [] -> apk_filename pkg = Ok (pkg ++ js ".apk"))).
Proof.
  assert (Ha : apk_filename pkg
    = Ok ((if truthy pkg then List.map underscore pkg else js "app") ++ js ".apk")).
  { unfold apk_filename. rewrite replace_unsafe. cbn [bind].
    destruct pkg; reflexivity. }
  assert (Hz : apks_filename pkg = Ok (List.map underscore pkg ++ js ".apks.zip")).
  { unfold apks_filename. rewrite replace_unsafe. reflexivity. }
  assert (Hsafe : Forall (fun c => version_char c = true) (List.map underscore pkg)).
  { rewrite Forall_forall. intros c Hc. apply in_map_iff in Hc.
    destruct Hc as (c0 & <- & _). apply underscore_safe. }
  split; [exact Ha|]. split; [exact Hz|]. split.
  - intros name [H|H].
    + rewrite Ha in H. injection H as <-. split.
      * apply Forall_app. split.
        -- destruct pkg; [repeat constructor | exact Hsafe].
        -- repeat constructor.
      * rewrite length_app. destruct pkg; cbn [truthy]; [cbn; lia|].
        rewrite length_map. cbn. lia.
    + rewrite Hz in H. injection H as <-. split.
      * apply Forall_app. split; [exact Hsafe | repeat constructor].
      * rewrite length_app, length_map. cbn. lia.
  - intros Hp. split.
    + rewrite Hz, (underscore_id Hp). reflexivity.
    + intros Hne. rewrite Ha, (truthy_nonempty Hne), (underscore_id Hp). reflexivity.
Qed.

Lemma X11_download_names_witness :
  apk_filename (js "com.example.app") = Ok (js "com.example.app.apk")
  /\ apk_filename (js "a/b c") = Ok (js "a_b_c.apk").
Proof.
  split.
  - apply (X11_download_names (js "com.example.app")); [|discriminate].
    repeat constructor.
  - exact (proj1 (X11_download_names (js "a/b c"))).
Defined.

(** X12. The name under which a pulled APK enters the archive depends on
    the part of its path after the last slash only: it is [base.apk] when
    that part is [base.apk], and [split_] followed by that part otherwise
    (for a path without a slash, [split_] followed by the whole path). The
    name is never empty and holds no slash. *)
Theorem X12_pull_name (dir file : jsstring) :
  ~ In SLASH file ->
  pull_name (dir ++ SLASH :: file)
  = (if str_eqb file (js "base.apk") then js "base.apk" else js "split_" ++ file)
  /\ pull_name file = js "split_" ++ file
  /\ pull_name (dir ++ SLASH :: file) <> []
  /\ ~ In SLASH (pull_name (dir ++ SLASH :: file))
  /\ ~ In SLASH (pull_name file).
Proof.
  intros H.
  assert (E1 : pull_name (dir ++ SLASH :: file)
    = (if str_eqb file (js "base.apk") then js "base.apk" else js "split_" ++ file)).
  { unfold pull_name. rewrite endsWith_base by exact H.
    destruct (str_eqb file (js "base.apk")); [reflexivity|].
    unfold pop_text, split_chr. rewrite split_chr_aux_last by exact H. reflexivity. }
  assert (E2 : pull_name file = js "split_" ++ file).
  { unfold pull_name.
    destruct (endsWith file (js "/base.apk")) eqn:E.
    - apply endsWith_iff in E. destruct E as [a ->]. exfalso. apply H.
      apply in_or_app. right. left. reflexivity.
    - unfold pop_text, split_chr. rewrite split_chr_aux_whole by exact H. reflexivity. }
  assert (Hs : ~ In SLASH (js "split_" ++ file)).
  { intros Hin. apply in_app_or in Hin. destruct Hin as [Hin|Hin]; [|exact (H Hin)].
    cbv in Hin. intuition discriminate. }
  split; [exact E1|]. split; [exact E2|]. rewrite E1, E2.
  destruct (str_eqb file (js "base.apk")).
  - split; [discriminate|]. split; [|exact Hs]. cbv. intuition discriminate.
  - split; [discriminate|]. split; exact Hs.
Qed.

Lemma X12_pull_name_witness :
  pull_name (js "/data/app/com.example-1/split_config.arm64_v8a.apk")
  = js "split_split_config.arm64_v8a.apk".
Proof.
  apply (X12_pull_name (js "/data/app/com.example-1") (js "split_config.arm64_v8a.apk")).
  cbv. intuition discriminate.
Defined.

(** ** The paths of [/api/package/apk] *)

Section ApkPaths.

Lemma startsWith_snoc c : forall l s,
  startsWith s (l ++ [c])
  = startsWith s l
    && match skipn (length l) s with d :: _ => (c =? d)%N | [] => false end.
Proof.
  induction l as [|a l IH]; intros s; cbn [app startsWith length skipn].
  - destruct s as [|b s]; [reflexivity|]. rewrite andb_true_r. reflexivity.
  - destruct s as [|b s]; [reflexivity|]. rewrite IH, andb_assoc. reflexivity.
Qed.

Lemma skipn_S_tl (n : nat) : forall s : jsstring, skipn (S n) s = tl (skipn n s).
Proof.
  induction n as [|n IH]; intros s.
  - destruct s; reflexivity.
  - destruct s as [|c s]; [reflexivity|]. exact (IH s).
Qed.

Lemma startsWith_head a b l l' s :
  startsWith s (a :: l) = true -> a <> b -> startsWith s (b :: l') = false.
Proof.
  destruct s as [|c s]; cbn [startsWith]; [discriminate|]. intros H Hab.
  apply andb_true_iff in H. destruct H as [H _]. apply N.eqb_eq in H. subst c.
  replace (b =? a)%N with false; [reflexivity|].
  symmetry. apply N.eqb_neq. congruence.
Qed.

(** What follows the alternative: a colon, the path, the end of the line. *)
Lemma apk_tail i r cs :
  m (Seq (Chr COLON) (Seq (Group 1 (Plus true (Class is_dot))) Eol)) (MState i r cs) Some
  = match r with
    | d :: t =>
        if (COLON =? d)%N && (truthy t && forallb is_dot t)
        then Some (MState (S i + length t) [] ((1, t) :: cs))
        else None
    | [] => None
    end.
Proof.
  rewrite m_Seq, m_Chr. destruct r as [|d t]; [reflexivity|].
  destruct (COLON =? d)%N; [|reflexivity]. cbn [andb].
  rewrite m_Seq, m_Group. cbn [pos rest]. rewrite m_plus_greedy_cls.
  destruct t as [|c t]; [reflexivity|]. cbn [truthy forallb andb].
  destruct (is_dot c) eqn:Ec; [|reflexivity]. cbn [andb].
  rewrite greedy_cls_maximal by reflexivity.
  rewrite <- dropWhile_nil_forallb.
  pose proof (takeWhile_dropWhile is_dot t) as E.
  destruct (dropWhile is_dot t) as [|c0 t0]; [|reflexivity].
  rewrite app_nil_r in E. rewrite E. unfold set_cap. cbn [pos rest caps m].
  replace (S (S i) + length t - S i) with (S (length t)) by lia.
  cbn [firstn length]. rewrite firstn_all.
  replace (S (S i) + length t) with (S i + S (length t)) by lia.
  reflexivity.
Qed.

Lemma sticky_apk s :
  option_map caps (sticky re_apk_line 0 s)
  = option_map (fun p => [(1, p)]) (apk_path_of s).
Proof.
  unfold sticky, re_apk_line, apk_path_of.
  rewrite m_Seq, m_Bol0, m_Seq, m_Alt, !m_Lit. cbv beta.
  change (js "package:") with (js "package" ++ [COLON]).
  change (js "split:") with (js "split" ++ [COLON]).
  rewrite !startsWith_snoc.
  change (length (js "package")) with 7. change (length (js "split")) with 5.
  change (skipn 8 s) with (skipn (S 7) s). change (skipn 6 s) with (skipn (S 5) s).
  rewrite (skipn_S_tl 7), (skipn_S_tl 5), !apk_tail.
  destruct (startsWith s (js "package")) eqn:Hp.
  - assert (Hs : startsWith s (js "split") = false)
      by (apply (@startsWith_head 112%N 115%N (js "ackage") (js "plit") s Hp); discriminate).
    rewrite Hs.
    cbn [andb orelse]. destruct (skipn 7 s) as [|d t]; [reflexivity|].
    destruct (COLON =? d)%N; [|reflexivity]. cbn [andb tl orelse].
    destruct (truthy t && forallb is_dot t); reflexivity.
  - cbn [andb orelse]. destruct (startsWith s (js "split")); [|reflexivity].
    cbn [andb]. destruct (skipn 5 s) as [|d t]; [reflexivity|].
    destruct (COLON =? d)%N; [|reflexivity]. cbn [andb tl].
    destruct (truthy t && forallb is_dot t); reflexivity.
Qed.

Lemma str_match_apk line :
  match str_match line re_apk_line with
  | Some a => exists p, apk_path_of line = Some p /\ arr_get a 1 = Some p
  | None => apk_path_of line = None
  end.
Proof.
  unfold str_match. pose proof (sticky_apk line) as H.
  replace (scan re_apk_line 0 line) with
    (match sticky re_apk_line 0 line with
     | Some y => Some (0, firstn (pos y - 0) line, y)
     | None => None
     end).
  - destruct (sticky re_apk_line 0 line) as [y|]; cbn [option_map] in H.
    + destruct (apk_path_of line) as [p|]; [|discriminate H].
      cbn [option_map] in H. injection H as H. exists p. split; [reflexivity|].
      change (ngroups re_apk_line) with 1.
      cbn [seq List.map arr_get nth_error]. rewrite H. reflexivity.
    + destruct (apk_path_of line); [discriminate H | reflexivity].
  - destruct line as [|c t]; cbn [scan]; destruct (sticky re_apk_line 0 _); try reflexivity.
    unfold re_apk_line. rewrite scan_bol. reflexivity.
Qed.

(** One round of the loop, directly. *)
Lemma apk_line_eq line st :
  apk_line line st
  = Ok match apk_path_of line with
       | Some p => (fst st ++ [Some p],
                    if startsWith line (js "package:") then Some p else snd st)
       | None => st
       end.
Proof.
  unfold apk_line. pose proof (str_match_apk line) as H.
  destruct (str_match line re_apk_line) as [a|].
  - destruct H as (p & -> & ->). reflexivity.
  - rewrite H. reflexivity.
Qed.

Lemma apk_path_of_ok line p :
  apk_path_of line = Some p -> p <> [] /\ Forall (fun c => is_dot c = true) p.
Proof.
  unfold apk_path_of.
  assert (H : forall r : jsstring,
            (if truthy r && forallb is_dot r then Some r else None) = Some p ->
            p <> [] /\ Forall (fun c => is_dot c = true) p).
  { intros r Hr. destruct (truthy r && forallb is_dot r) eqn:E; [|discriminate Hr].
    injection Hr as <-. apply andb_true_iff in E. destruct E as [Ht Hd]. split.
    - destruct r; [discriminate Ht | discriminate].
    - apply Forall_forall. rewrite forallb_forall in Hd. exact Hd. }
  destruct (startsWith line (js "package:")); [apply H|].
  destruct (startsWith line (js "split:")); [apply H | discriminate].
Qed.

Lemma apk_path_of_line base p :
  p <> [] -> Forall (fun c => is_dot c = true) p ->
  apk_path_of (apk_text_line base p) = Some p
  /\ startsWith (apk_text_line base p) (js "package:") = base.
Proof.
  intros Hne Hd. unfold apk_path_of, apk_text_line. destruct base.
  - rewrite startsWith_refl_app.
    change (skipn 8 (js "package:" ++ p)) with p.
    rewrite (truthy_nonempty Hne), (@forallb_Forall is_dot p Hd). split; reflexivity.
  - change (startsWith (js "split:" ++ p) (js "package:")) with false.
    rewrite startsWith_refl_app.
    change (skipn 6 (js "split:" ++ p)) with p.
    rewrite (truthy_nonempty Hne), (@forallb_Forall is_dot p Hd). split; reflexivity.
Qed.

Lemma for_of_apk_lines : forall (es : list (bool * jsstring)) st,
  Forall (fun e => apk_path (snd e)) es ->
  for_of (List.map (fun e => apk_text_line (fst e) (snd e)) es) apk_line st
  = Ok (fst st ++ List.map (fun e => Some (snd e)) es, last_base es (snd st)).
Proof.
  induction es as [|[base p] es IH]; intros [acc b] H; cbn [List.map for_of last_base fst snd].
  - rewrite app_nil_r. reflexivity.
  - inversion H as [|e es' Hp Hes]; subst. destruct Hp as (Hne & Hd & _).
    cbn [snd] in Hne, Hd.
    rewrite apk_line_eq. destruct (apk_path_of_line base Hne Hd) as [-> ->].
    cbn [bind fst snd]. rewrite IH by exact Hes. cbn [fst snd].
    rewrite <- app_assoc. reflexivity.
Qed.

Lemma apk_text_line_plain base p :
  apk_path p -> plain (apk_text_line base p) /\ trimmed (apk_text_line base p).
Proof.
  intros (Hne & Hd & Hl). split.
  - apply plain_of_chars. unfold apk_text_line. apply Forall_app. split.
    + destruct base; repeat constructor; discriminate.
    + revert Hd. apply Forall_impl. intros c. apply is_dot_not_eol.
  - unfold apk_text_line.
    assert (E : forall l, is_space (last (l ++ p) 0%N) = false).
    { intros l. rewrite last_app_ne by exact Hne. exact Hl. }
    destruct base; cbn [js app trimmed]; (split; [reflexivity | apply (E (_ :: _))]).
Qed.

End ApkPaths.

(** X13. Round trip of the path list: for a [pm path] output made of lines
    [package:<path>] and [split:<path>], each ended by LF or CR LF, with
    paths that are not empty, hold no line terminator and do not end with
    white space, [paths] is exactly the list of the paths, in line order,
    and [basePath] is the path of the last [package:] line ([null] when
    there is none). *)
Theorem X13_apk_paths_round_trip (entries : list ((bool * jsstring) * bool)) :
  Forall (fun e => apk_path (snd (fst e))) entries ->
  apk_paths
    (chunk_of
       (List.map (fun e => (apk_text_line (fst (fst e)) (snd (fst e)), snd e)) entries))
  = Ok (List.map (fun e => Some (snd (fst e))) entries,
        last_base (List.map fst entries) None).
Proof.
  intros H. unfold apk_paths. rewrite split_newline. cbn [bind].
  rewrite lines_chunk.
  2:{ rewrite Forall_map. revert H. apply Forall_impl. intros e He.
      apply apk_text_line_plain. exact He. }
  rewrite !map_map, map_app, filter_app. cbn [List.map fst filter].
  change (trim []) with (@nil char). cbn [truthy]. rewrite app_nil_r.
  rewrite map_map. cbn [fst].
  assert (E : List.map (fun e : (bool * jsstring) * bool =>
                          trim (apk_text_line (fst (fst e)) (snd (fst e)))) entries
              = List.map (fun e => apk_text_line (fst e) (snd e)) (List.map fst entries)).
  { rewrite map_map. apply map_ext_in. intros e He. apply trim_id.
    rewrite Forall_forall in H. apply apk_text_line_plain. apply H. exact He. }
  rewrite E. rewrite filter_all.
  - rewrite for_of_apk_lines by (rewrite Forall_map; exact H).
    cbn [fst snd app]. rewrite map_map. reflexivity.
  - rewrite Forall_map, Forall_map. revert H. apply Forall_impl. intros e (Hne & _).
    unfold apk_text_line. destruct (fst (fst e)); reflexivity.
Qed.

Lemma X13_apk_paths_round_trip_witness :
  apk_paths
    (js "package:/data/app/x/base.apk" ++ [CR; LF]
     ++ js "split:/data/app/x/split_config.en.apk" ++ [LF])
  = Ok ([Some (js "/data/app/x/base.apk"); Some (js "/data/app/x/split_config.en.apk")],
        Some (js "/data/app/x/base.apk")).
Proof.
  apply (@X13_apk_paths_round_trip
           [((true, js "/data/app/x/base.apk"), true);
            ((false, js "/data/app/x/split_config.en.apk"), false)]).
  repeat constructor; try discriminate.
Defined.

(** X14. Whatever [pm path] printed, the scan of its lines returns: every
    element of [paths] is a string (never [undefined]) that is not empty
    and holds no line terminator, and [basePath] is [null] or one of the
    elements of [paths]; so there is no base path without a path. *)
Theorem X14_apk_paths_sound (stdout : jsstring) :
  exists paths basePath,
    apk_paths stdout = Ok (paths, basePath)
    /\ Forall (fun p => exists s, p = Some s /\ s <> []
                                  /\ Forall (fun c => is_dot c = true) s) paths
    /\ (basePath = None \/ In basePath paths).
Proof.
  unfold apk_paths. rewrite split_newline. cbn [bind].
  set (inv := fun st : apk_scan =>
    Forall (fun p => exists s, p = Some s /\ s <> []
                               /\ Forall (fun c => is_dot c = true) s) (fst st)
    /\ (snd st = None \/ In (snd st) (fst st))).
  assert (Hloop : forall ls st, inv st ->
            exists st', for_of ls apk_line st = Ok st' /\ inv st').
  { induction ls as [|l ls IH]; intros st Hst; cbn [for_of].
    - exists st. split; [reflexivity | exact Hst].
    - rewrite apk_line_eq. cbn [bind]. apply IH.
      destruct (apk_path_of l) as [p|] eqn:Ep; [|exact Hst].
      destruct Hst as [Hf Hb]. apply apk_path_of_ok in Ep. split; cbn [fst snd].
      + apply Forall_app. split; [exact Hf|]. constructor; [|constructor].
        exists p. split; [reflexivity | exact Ep].
      + destruct (startsWith l (js "package:")).
        * right. apply in_or_app. right. left. reflexivity.
        * destruct Hb as [Hb|Hb]; [left; exact Hb|].
          right. apply in_or_app. left. exact Hb. }
  destruct (Hloop (filter truthy (List.map trim (lines stdout))) ([], None))
    as ([paths basePath] & E & Hf & Hb).
  - split; [constructor | left; reflexivity].
  - exists paths, basePath. split; [exact E|]. split; [exact Hf | exact Hb].
Qed.

(** ** The replies of [/api/devices] and [/api/shell] *)

(** X15. The handler of [/api/devices] never throws. When the [execa]
    call was rejected the reply is 500 with the error's [shortMessage]
    (its [message] when that is absent or empty) and its [stderr]; when it
    resolved the reply is 200 with the records parsed from the standard
    output, each with a non-empty serial and state. *)
Theorem X15_devices_reply (outcome : execa_outcome) :
  match outcome with
  | Resolved r =>
      exists devices,
        api_devices outcome = Ok (200%Z, DevicesSuccess devices)
        /\ parseDevicesList (res_stdout r) = Ok devices
        /\ Forall wf_device devices
  | Rejected e =>
      api_devices outcome
      = Ok (500%Z,
            DevicesFailure
              (if val_truthy (err_shortMessage e) then err_shortMessage e
               else err_message e)
              (err_stderr e))
  end.
Proof.
  destruct outcome as [r|e]; [|reflexivity].
  exists (device_records (res_stdout r)). split; [|split].
  - unfold api_devices. cbn [adbCmd]. 
    change (field _ (js "ok")) with (VBool true).
    change (field _ (js "stdout")) with (VStr (res_stdout r)).
    cbn [val_truthy negb]. rewrite parseDevicesList_records. reflexivity.
  - apply parseDevicesList_records.
  - apply device_records_wf.
Qed.

(** X16. The handler of [/api/shell], for scalar [serial] and [cmd]:
    without a serial, or with a [cmd] that is not a non-empty string, the
    reply is 400 and does not depend on [adb] (which is not run);
    otherwise the command text reaches [adb] as the one argument after
    [shell], and a run that resolved is answered with 200, its standard
    output, and [undefined] for [stderr]: the text the process wrote to
    its standard error is not in the reply. A rejected run is answered
    with 500 and the error's message, [stderr] and [stdout]. *)
Theorem X16_shell_reply (serial cmd : jsval) (exec exec' : list jsval -> execa_outcome) :
  (val_truthy serial && val_truthy cmd && is_string cmd = false ->
   fst (api_shell serial cmd exec) = 400%Z
   /\ api_shell serial cmd exec = api_shell serial cmd exec')
  /\ (val_truthy serial && val_truthy cmd && is_string cmd = true ->
      match exec [VStr (js "-s"); serial; VStr (js "shell"); cmd] with
      | Resolved r =>
          api_shell serial cmd exec
          = (200%Z, ShellSuccess (VStr (res_stdout r)) VUndefined)
      | Rejected e =>
          api_shell serial cmd exec
          = (500%Z,
             ShellFailure
               (if val_truthy (err_shortMessage e) then err_shortMessage e
                else err_message e)
               (err_stderr e) (err_stdout e))
      end).
Proof.
  unfold api_shell. split; intros H.
  - destruct (val_truthy serial); cbn [negb andb] in *; [|split; reflexivity].
    destruct (val_truthy cmd); cbn [negb andb orb] in *; [|split; reflexivity].
    rewrite H. split; reflexivity.
  - apply andb_true_iff in H. destruct H as [H Hs].
    apply andb_true_iff in H. destruct H as [H Hc].
    rewrite H, Hc, Hs. cbn [negb orb].
    destruct (exec _) as [r|e]; reflexivity.
Qed.

Lemma X16_shell_reply_witness :
  let exec := fun _ : list jsval =>
    Resolved {| res_stdout := js "uid=2000(shell)"; res_stderr := js "warning";
                res_exitCode := 0 |} in
  api_shell (VStr (js "emulator-5554")) (VStr (js "id")) exec
  = (200%Z, ShellSuccess (VStr (js "uid=2000(shell)")) VUndefined)
  /\ fst (api_shell (VStr (js "emulator-5554")) (VNum 7) exec) = 400%Z.
Proof.
  intros exec. split.
  - pose proof (X16_shell_reply (VStr (js "emulator-5554")) (VStr (js "id")) exec exec)
      as [_ H].
    exact (H eq_refl).
  - pose proof (X16_shell_reply (VStr (js "emulator-5554")) (VNum 7) exec exec)
      as [H _].
    exact (proj1 (H eq_refl)).
Defined.

(** ** The addresses of [/api/ip] *)

Section Inet.

(** A run of digits before a continuation that refuses a digit. *)
Lemma m_digits_k i s cs k z :
  (forall i' c t cs', is_digit c = true -> k (MState i' (c :: t) cs') = None) ->
  m re_digits (MState i s cs) k = Some z ->
  exists a r, s = a ++ r /\ digits a /\ k (MState (i + length a) r cs) = Some z.
Proof.
  intros Hk H. unfold re_digits in H. rewrite m_plus_greedy_cls in H.
  destruct s as [|c t]; [discriminate H|].
  destruct (is_digit c) eqn:Ec; [|discriminate H].
  rewrite greedy_cls_maximal in H by exact Hk.
  exists (c :: takeWhile is_digit t), (dropWhile is_digit t). split; [|split].
  - cbn [app]. rewrite takeWhile_dropWhile. reflexivity.
  - split; [discriminate|]. constructor; [exact Ec | apply takeWhile_Forall].
  - cbn [length]. replace (i + S (length (takeWhile is_digit t)))
      with (S i + length (takeWhile is_digit t)) by lia. exact H.
Qed.

Lemma m_chr_k c r i s cs k z :
  m (Seq (Chr c) r) (MState i s cs) k = Some z ->
  exists t, s = c :: t /\ m r (MState (S i) t cs) k = Some z.
Proof.
  rewrite m_Seq, m_Chr. destruct s as [|d t]; [discriminate|].
  destruct (N.eqb_spec c d) as [->|]; [|discriminate].
  intros H. exists t. split; [reflexivity | exact H].
Qed.

Lemma chr_refuses c r k i d t cs :
  is_digit c = false -> is_digit d = true ->
  m (Seq (Chr c) r) (MState i (d :: t) cs) k = None.
Proof.
  intros Hc Hd. rewrite m_Seq, m_Chr.
  destruct (N.eqb_spec c d) as [->|]; [congruence | reflexivity].
Qed.

(** The four runs of the address, before a continuation that refuses a
    digit. *)
Lemma m_quad i s cs k z :
  (forall i' c t cs', is_digit c = true -> k (MState i' (c :: t) cs') = None) ->
  m (Seq re_digits (Seq (Chr DOT)
      (Seq re_digits (Seq (Chr DOT)
        (Seq re_digits (Seq (Chr DOT) re_digits))))))
    (MState i s cs) k = Some z ->
  exists ip r, s = ip ++ r /\ dotted_quad ip /\ k (MState (i + length ip) r cs) = Some z.
Proof.
  intros Hk H.
  rewrite m_Seq in H. apply m_digits_k in H;
    [|intros; apply chr_refuses; [reflexivity | assumption]].
  destruct H as (a & r1 & -> & Ha & H). apply m_chr_k in H. destruct H as (t1 & -> & H).
  rewrite m_Seq in H. apply m_digits_k in H;
    [|intros; apply chr_refuses; [reflexivity | assumption]].
  destruct H as (b & r2 & -> & Hb & H). apply m_chr_k in H. destruct H as (t2 & -> & H).
  rewrite m_Seq in H. apply m_digits_k in H;
    [|intros; apply chr_refuses; [reflexivity | assumption]].
  destruct H as (c & r3 & -> & Hc & H). apply m_chr_k in H. destruct H as (t3 & -> & H).
  apply m_digits_k in H; [|exact Hk].
  destruct H as (d & r & -> & Hd & H).
  exists (a ++ DOT :: b ++ DOT :: c ++ DOT :: d), r. split; [|split].
  - repeat (rewrite <- app_assoc; cbn [app]). reflexivity.
  - exists a, b, c, d. repeat split; try apply Ha; try apply Hb; try apply Hc; apply Hd.
  - replace (i + length (a ++ DOT :: b ++ DOT :: c ++ DOT :: d))
      with (S (S (S (i + length a) + length b) + length c) + length d).
    + exact H.
    + repeat (rewrite length_app; cbn [length]). lia.
Qed.

(** The end of the pattern: a slash and the prefix length. *)
Lemma inet_tail_caps x z :
  m (Seq (Chr SLASH) (Group 2 re_digits)) x Some = Some z ->
  exists e, caps z = (2, e) :: caps x.
Proof.
  destruct x as [i s cs]. intros H. apply m_chr_k in H. destruct H as (t & -> & H).
  rewrite m_Group in H. cbn [pos rest] in H. unfold re_digits in H.
  rewrite m_plus_greedy_cls in H. destruct t as [|c t]; [discriminate H|].
  destruct (is_digit c); [|discriminate H].
  rewrite greedy_cls_total in H by discriminate.
  injection H as <-. eexists. reflexivity.
Qed.

Lemma sticky_inet i s y :
  sticky re_inet i s = Some y ->
  exists ip, get_cap 1 (caps y) = Some ip /\ dotted_quad ip.
Proof.
  unfold sticky, re_inet. rewrite m_Seq, m_Lit.
  destruct (startsWith s (js "inet")); [|discriminate].
  rewrite m_Seq. intros H. apply m_sound in H. destruct H as ([i1 s1 cs1] & _ & H).
  rewrite m_Seq, m_Group in H. cbn [pos rest] in H.
  apply m_quad in H.
  - destruct H as (ip & r & -> & Hip & H). apply inet_tail_caps in H.
    destruct H as (e & ->). exists ip. split; [|exact Hip].
    unfold set_cap. cbn [caps pos get_cap Nat.eqb].
    replace (i1 + length ip - i1) with (length ip) by lia.
    rewrite firstn_app, Nat.sub_diag, firstn_all. cbn [firstn]. rewrite app_nil_r.
    reflexivity.
  - intros i' c t cs' Hc. unfold set_cap. cbn [pos rest caps].
    apply chr_refuses; [reflexivity | exact Hc].
Qed.

(** The loop of [matchAll] returns, with matches of the pattern. *)
Lemma match_all_b_total r : forall fuel s prev i,
  length s < fuel ->
  exists ms, match_all_b r fuel prev i s = Ok ms
             /\ Forall (fun y => exists i' s', sticky r i' s' = Some y) ms.
Proof.
  induction fuel as [|fuel IH]; intros s prev i Hf; [lia|].
  cbn [match_all_b]. unfold sticky_b.
  destruct (word_boundary prev s).
  - destruct (sticky r i s) as [y|] eqn:Ey.
    + pose proof (sticky_forward _ _ _ Ey) as [Hle Hlen].
      destruct (Nat.eqb_spec (pos y) i) as [Hp|Hp].
      * destruct s as [|c s'].
        -- exists [y]. split; [reflexivity|]. constructor; [|constructor].
           exists i, []. exact Ey.
        -- cbn [length] in Hf. destruct (IH s' (Some c) (S i)) as (ms & -> & Hms); [lia|].
           exists (y :: ms). split; [reflexivity|]. constructor; [|exact Hms].
           exists i, (c :: s'). exact Ey.
      * destruct (IH (rest y) (nth_error s (pos y - i - 1)) (pos y)) as (ms & -> & Hms); [lia|].
        exists (y :: ms). split; [reflexivity|]. constructor; [|exact Hms].
        exists i, s. exact Ey.
    + destruct s as [|c s']; [exists []; split; [reflexivity | constructor]|].
      cbn [length] in Hf. apply IH. lia.
  - destruct s as [|c s']; [exists []; split; [reflexivity | constructor]|].
    cbn [length] in Hf. apply IH. lia.
Qed.

(** Without [inet] in the text there is no match. *)
Lemma match_all_b_none : forall fuel s prev i,
  length s < fuel -> includes s (js "inet") = false ->
  match_all_b re_inet fuel prev i s = Ok [].
Proof.
  induction fuel as [|fuel IH]; intros s prev i Hf Hn; [lia|].
  cbn [match_all_b].
  assert (E : sticky_b re_inet prev i s = None).
  { unfold sticky_b. destruct (word_boundary prev s); [|reflexivity].
    unfold sticky, re_inet. rewrite m_Seq, m_Lit.
    rewrite (includes_startsWith _ _ Hn). reflexivity. }
  rewrite E. destruct s as [|c s']; [reflexivity|].
  cbn [length] in Hf. apply IH; [lia|].
  exact (includes_cons _ _ _ Hn).
Qed.

End Inet.

(** X17. The addresses of [/api/ip]: for every output the scan of the
    matches returns, and every element of [ipv4] is a string (never
    [undefined]) made of four non-empty runs of decimal digits with dots
    between them; the runs are not bounded (neither in length nor in
    value). An output that does not contain [inet] gives the empty list. *)
Theorem X17_ipv4_dotted_quads (stdout : jsstring) :
  (exists ips,
     ipv4_of stdout = Ok ips
     /\ Forall (fun v => exists ip, v = Some ip /\ dotted_quad ip) ips)
  /\ (includes stdout (js "inet") = false -> ipv4_of stdout = Ok []).
Proof.
  unfold ipv4_of. split.
  - destruct (@match_all_b_total re_inet (S (length stdout)) stdout None 0)
      as (ms & -> & Hms); [lia|].
    eexists. split; [reflexivity|]. rewrite Forall_map.
    revert Hms. apply Forall_impl. intros y (i' & s' & Hy).
    apply sticky_inet in Hy. destruct Hy as (ip & -> & Hip).
    exists ip. split; [reflexivity | exact Hip].
  - intros H. rewrite match_all_b_none by (lia || exact H). reflexivity.
Qed.

Lemma X17_ipv4_dotted_quads_witness :
  ipv4_of (js "1: lo    link/loopback 00:00:00:00:00:00") = Ok [].
Proof.
  apply (X17_ipv4_dotted_quads (js "1: lo    link/loopback 00:00:00:00:00:00")).
  reflexivity.
Defined.

Section InetLine.

Lemma digit_not_space c : is_digit c = true -> is_space c = false.
Proof.
  unfold is_digit. intros H. apply andb_true_iff in H. destruct H as [H1 H2].
  apply N.leb_le in H1. apply N.leb_le in H2.
  unfold is_space, is_white_space, is_line_terminator.
  repeat match goal with
         | |- context [(c =? ?n)%N] =>
             replace (c =? n)%N with false by (symmetry; apply N.eqb_neq; lia)
         end.
  replace (8192 <=? c)%N with false by (symmetry; apply N.leb_gt; lia).
  reflexivity.
Qed.

Lemma space_not_digit c : is_space c = true -> is_digit c = false.
Proof.
  intros H. destruct (is_digit c) eqn:E; [|reflexivity].
  apply digit_not_space in E. congruence.
Qed.

(** A run of a class that stops at the next code unit, before a
    continuation that refuses the class. *)
Lemma m_run p v r i cs k :
  v <> [] -> Forall (fun c => p c = true) v ->
  match r with [] => True | c :: _ => p c = false end ->
  (forall i' c t cs', p c = true -> k (MState i' (c :: t) cs') = None) ->
  m (Plus true (Class p)) (MState i (v ++ r) cs) k = k (MState (i + length v) r cs).
Proof.
  intros Hne Hv Hr Hk. destruct v as [|c v]; [congruence|].
  inversion Hv as [|c' v' Hc Hv']; subst.
  rewrite m_plus_greedy_cls. cbn [app]. rewrite Hc.
  rewrite greedy_cls_maximal by exact Hk.
  rewrite takeWhile_app_stop, dropWhile_app_stop by assumption.
  cbn [length]. replace (S i + length v) with (i + S (length v)) by lia. reflexivity.
Qed.

Lemma m_chr_go c r i t cs k :
  m (Seq (Chr c) r) (MState i (c :: t) cs) k = m r (MState (S i) t cs) k.
Proof. rewrite m_Seq, m_Chr, N.eqb_refl. reflexivity. Qed.

Lemma m_quad_go a b c d r i cs k :
  digits a -> digits b -> digits c -> digits d ->
  match r with [] => True | x :: _ => is_digit x = false end ->
  (forall i' x t cs', is_digit x = true -> k (MState i' (x :: t) cs') = None) ->
  m (Seq re_digits (Seq (Chr DOT)
      (Seq re_digits (Seq (Chr DOT)
        (Seq re_digits (Seq (Chr DOT) re_digits))))))
    (MState i (a ++ DOT :: b ++ DOT :: c ++ DOT :: d ++ r) cs) k
  = k (MState (i + length (a ++ DOT :: b ++ DOT :: c ++ DOT :: d)) r cs).
Proof.
  intros [Ha1 Ha2] [Hb1 Hb2] [Hc1 Hc2] [Hd1 Hd2] Hr Hk.
  assert (Hdot : forall r' k', forall i' x t cs', is_digit x = true ->
            (fun y => m (Seq (Chr DOT) r') y k') (MState i' (x :: t) cs') = None).
  { intros. apply chr_refuses; [reflexivity | assumption]. }
  unfold re_digits.
  rewrite m_Seq, m_run; [|assumption|assumption|reflexivity|apply Hdot].
  rewrite m_chr_go.
  rewrite m_Seq, m_run; [|assumption|assumption|reflexivity|apply Hdot].
  rewrite m_chr_go.
  rewrite m_Seq, m_run; [|assumption|assumption|reflexivity|apply Hdot].
  rewrite m_chr_go.
  rewrite m_run; [|assumption|assumption|exact Hr|exact Hk].
  f_equal. f_equal. repeat (rewrite length_app; cbn [length]). lia.
Qed.

Lemma dropWhile_app_all (p : char -> bool) v post :
  Forall (fun c => p c = true) v -> dropWhile p (v ++ post) = dropWhile p post.
Proof. induction 1 as [|c v Hc _ IH]; [reflexivity|]. cbn [app dropWhile]. rewrite Hc. exact IH. Qed.

Lemma includes_skip h p' : forall a b,
  Forall (fun c => c <> h) a ->
  includes b (h :: p') = false -> includes (a ++ b) (h :: p') = false.
Proof.
  induction a as [|c a IH]; intros b Ha Hb; [exact Hb|].
  inversion Ha as [|c' a' Hc Ha']; subst.
  cbn [app includes startsWith].
  replace (h =? c)%N with false by (symmetry; apply N.eqb_neq; congruence).
  cbn [andb orb]. apply IH; assumption.
Qed.

Lemma digits_not_i a : digits a -> Forall (fun c => c <> 105%N) a.
Proof.
  intros [_ H]. revert H. apply Forall_impl. intros c Hc ->. discriminate Hc.
Qed.

Lemma quad_not_i ip : dotted_quad ip -> Forall (fun c => c <> 105%N) ip.
Proof.
  intros (a & b & c & d & -> & Ha & Hb & Hc & Hd).
  repeat (apply Forall_app; split; [apply digits_not_i; assumption|];
          constructor; [discriminate|]).
  apply digits_not_i. exact Hd.
Qed.

Lemma last_cons_default (A : Type) : forall (l : list A) (x d : A),
  last (x :: l) d = last l x.
Proof.
  induction l as [|y l IH]; intros x d; [reflexivity|].
  change (last (x :: y :: l) d) with (last (y :: l) d).
  rewrite (IH y d), (IH y x). reflexivity.
Qed.

(** The match at [inet]. *)
Lemma sticky_inet_line sp ip len post i :
  sp <> [] -> Forall (fun c => is_space c = true) sp ->
  dotted_quad ip -> digits len ->
  includes post (js "inet") = false ->
  exists z,
    sticky re_inet i (js "inet" ++ sp ++ ip ++ SLASH :: len ++ post) = Some z
    /\ get_cap 1 (caps z) = Some ip
    /\ i < pos z
    /\ includes (rest z) (js "inet") = false.
Proof.
  intros Hsp1 Hsp2 Hip [Hl1 Hl2] Hpost.
  pose proof Hip as (a & b & c & d & Eip & Ha & Hb & Hc & Hd).
  unfold sticky, re_inet. rewrite m_Seq, m_Lit, startsWith_refl_app.
  change (skipn (length (js "inet")) (js "inet" ++ sp ++ ip ++ SLASH :: len ++ post))
    with (sp ++ ip ++ SLASH :: len ++ post).
  assert (Hhead : match ip ++ SLASH :: len ++ post with
                  | [] => True | x :: _ => is_space x = false end).
  { rewrite Eip. destruct Ha as [Ha1 Ha2]. destruct a as [|x a]; [congruence|].
    inversion Ha2; subst. cbn [app]. apply digit_not_space. assumption. }
  rewrite m_Seq, m_run; [|assumption|assumption|exact Hhead|].
  2:{ intros i' x t cs' Hx. rewrite m_Seq, m_Group, m_Seq. unfold re_digits.
      rewrite m_plus_greedy_cls, (space_not_digit _ Hx). reflexivity. }
  rewrite m_Seq, m_Group. cbn [pos rest].
  match goal with |- context [m _ _ ?k] => set (K := k) end.
  replace (ip ++ SLASH :: len ++ post)
    with (a ++ DOT :: b ++ DOT :: c ++ DOT :: d ++ SLASH :: len ++ post)
    by (rewrite Eip; repeat (rewrite <- app_assoc; cbn [app]); reflexivity).
  rewrite m_quad_go; try assumption; [|reflexivity|].
  2:{ intros i' x t cs' Hx. unfold K, set_cap. cbn [pos rest caps].
      apply chr_refuses; [reflexivity | exact Hx]. }
  unfold K. clear K.
  unfold set_cap at 1. cbn [pos rest caps]. rewrite m_chr_go, m_Group.
  cbn [pos rest]. unfold re_digits.
  destruct len as [|x len]; [congruence|]. inversion Hl2 as [|x' len' Hx Hlen]; subst x' len'.
  cbn [app]. rewrite m_plus_greedy_cls, Hx, greedy_cls_total by discriminate.
  eexists. split; [reflexivity|]. unfold set_cap. cbn [pos rest caps get_cap Nat.eqb].
  split; [|split].
  - f_equal. rewrite <- Eip.
    match goal with |- context [firstn ?n _] => replace n with (length ip) by lia end.
    rewrite firstn_app, Nat.sub_diag, firstn_all. cbn [firstn]. apply app_nil_r.
  - lia.
  - rewrite dropWhile_app_all by exact Hlen. apply includes_dropWhile. exact Hpost.
Qed.

(** The search walks over a text in which [inet] does not begin. *)
Lemma match_all_b_skip R : forall pre prev i fuel,
  length (pre ++ js "inet" ++ R) < fuel ->
  includes (pre ++ js "ine") (js "inet") = false ->
  exists fuel',
    length (js "inet" ++ R) < fuel'
    /\ match_all_b re_inet fuel prev i (pre ++ js "inet" ++ R)
       = match_all_b re_inet fuel' (last (List.map Some pre) prev) (i + length pre)
           (js "inet" ++ R).
Proof.
  induction pre as [|c pre IH]; intros prev i fuel Hf Hn.
  - exists fuel. split; [exact Hf|]. cbn [app List.map last length].
    rewrite Nat.add_0_r. reflexivity.
  - destruct fuel as [|fuel]; [lia|]. cbn [match_all_b].
    assert (E : sticky_b re_inet prev i ((c :: pre) ++ js "inet" ++ R) = None).
    { unfold sticky_b. destruct (word_boundary prev _); [|reflexivity].
      unfold sticky, re_inet. rewrite m_Seq, m_Lit.
      change (js "inet" ++ R) with (js "ine" ++ js "t" ++ R).
      rewrite app_assoc, startsWith_long by (rewrite length_app; cbn; lia).
      rewrite (includes_startsWith _ _ Hn). reflexivity. }
    rewrite E. cbn [app]. cbn [app length] in Hf.
    destruct (IH (Some c) (S i) fuel) as (fuel' & Hf' & ->);
      [lia | exact (includes_cons _ _ _ Hn)|].
    exists fuel'. split; [exact Hf'|].
    cbn [List.map length]. rewrite last_cons_default.
    replace (S i + length pre) with (i + S (length pre)) by lia. reflexivity.
Qed.

End InetLine.

(** X18. One address line: in a text where [inet] first occurs followed
    by white space, an address of four runs of digits, a slash and a
    prefix length, and does not occur after that, [ipv4] holds exactly
    that address when [inet] stands at the start of the text or after a
    code unit that is not of the class [\w], and is empty when it stands
    after a code unit of the class [\w] (the pattern begins with [\b]). *)
Theorem X18_ipv4_one_line (pre sp ip len post : jsstring) :
  includes (pre ++ js "ine") (js "inet") = false ->
  sp <> [] -> Forall (fun c => is_space c = true) sp ->
  dotted_quad ip -> digits len ->
  includes post (js "inet") = false ->
  ipv4_of (inet_text pre sp ip len post)
  = Ok (if is_word_at (last_unit pre) then [] else [Some ip]).
Proof.
  intros Hpre Hsp1 Hsp2 Hip Hlen Hpost. unfold ipv4_of, inet_text.
  set (R := sp ++ ip ++ SLASH :: len ++ post).
  destruct (@match_all_b_skip R pre None 0 (S (length (pre ++ js "inet" ++ R))))
    as (fuel & Hf & ->); [lia | exact Hpre|].
  fold (last_unit pre). destruct fuel as [|fuel]; [lia|].
  cbn [match_all_b]. unfold sticky_b, word_boundary.
  change (is_word_at (hd_error (js "inet" ++ R))) with true.
  destruct (is_word_at (last_unit pre)); cbn [xorb].
  - change (js "inet" ++ R) with (105%N :: js "net" ++ R).
    cbv iota. change (js "inet" ++ R) with (105%N :: js "net" ++ R) in Hf.
    cbn [length] in Hf. rewrite match_all_b_none; [reflexivity | lia|].
    unfold R.
    replace (js "net" ++ sp ++ ip ++ SLASH :: len ++ post)
      with ((js "net" ++ sp ++ ip ++ SLASH :: len) ++ post)
      by (repeat (rewrite <- app_assoc; cbn [app]); reflexivity).
    apply includes_skip; [|exact Hpost].
    apply Forall_app. split; [repeat constructor; discriminate|].
    apply Forall_app. split.
    { revert Hsp2. apply Forall_impl. intros c Hc ->. discriminate Hc. }
    apply Forall_app. split; [apply quad_not_i; exact Hip|].
    constructor; [discriminate | apply digits_not_i; exact Hlen].
  - destruct (@sticky_inet_line sp ip len post (0 + length pre) Hsp1 Hsp2 Hip Hlen Hpost)
      as (z & Ez & Hcap & Hpos & Hrest).
    fold R in Ez. rewrite Ez.
    replace (pos z =? 0 + length pre) with false by (symmetry; apply Nat.eqb_neq; lia).
    pose proof (sticky_forward _ _ _ Ez) as [_ Hl].
    rewrite match_all_b_none; [|lia | exact Hrest].
    cbn [bind List.map]. rewrite Hcap. reflexivity.
Qed.

Lemma X18_ipv4_one_line_witness :
  ipv4_of (js "3: wlan0    inet 192.168.1.23/24 brd 192.168.1.255 scope global wlan0")
  = Ok [Some (js "192.168.1.23")].
Proof.
  apply (@X18_ipv4_one_line (js "3: wlan0    ") (js " ") (js "192.168.1.23") (js "24")
           (js " brd 192.168.1.255 scope global wlan0")).
  - reflexivity.
  - discriminate.
  - repeat constructor.
  - exists (js "192"), (js "168"), (js "1"), (js "23").
    split; [reflexivity|]. repeat split; try discriminate; repeat constructor.
  - split; [discriminate | repeat constructor].
  - reflexivity.
Defined.

(** ** The browser helper *)

Section Helper.

Ltac each_effect tac :=
  repeat (apply Forall_cons; [tac|]); apply Forall_nil.

Lemma truthy_trim_trimmed s : truthy (trim s) = true -> trimmed (trim s).
Proof. intros H. apply trim_trimmed. intros E. rewrite E in H. discriminate H. Qed.

(** The direct attempt: its effects, and what it returns. *)
Lemma tryWebUsbSerial_run b :
  Forall direct_effect (fst (tryWebUsbSerial b))
  /\ (In DeviceOpen (fst (tryWebUsbSerial b)) <-> In DeviceClose (fst (tryWebUsbSerial b)))
  /\ match snd (tryWebUsbSerial b) with
     | Fulfilled s => s = [] \/ trimmed s
     | Failed _ => True
     end.
Proof.
  unfold tryWebUsbSerial, ensureWebUsb. destruct b as [usb ch a l o ia c sh rc rp cl].
  cbn [has_usb chosen]. destruct usb; [|cbn; repeat split; intuition].
  destruct ch as [[op sn clo]|].
  - cbn [is_some opens serialNumber closes].
    set (t := trim _). destruct op, clo; cbn -[trim]; fold t.
    all: (split; [each_effect ltac:(unfold direct_effect; auto)|]).
    all: (split; [intuition|]).
    all: try exact I.
    all: destruct (truthy t) eqn:E; [right; apply truthy_trim_trimmed; exact E | left; reflexivity].
  - cbn. split; [each_effect ltac:(unfold direct_effect; auto)|].
    split; [|exact I]. split; intros [H|[]]; discriminate H.
Qed.

(** The fallback between its two requests to the server. *)
Lemma fallback_run b src kill start :
  exists body,
    fst (tryAdbSerialViaWebUsbFallback b src kill start)
    = fst (killAdbServer kill) ++ body ++ fst (startAdbServer start)
    /\ Forall (fun e => forall u, e <> Fetch u) body
    /\ Forall (fun e => ~ direct_effect e) body
    /\ (In AdbClose body <->
        In AdbOpen body
        /\ adb_opens b && isAdb b && connects b && shell_runs b && receives b = true).
Proof.
  unfold tryAdbSerialViaWebUsbFallback.
  assert (Hk : exists tk, killAdbServer kill = (tk, Fulfilled tt)).
  { unfold killAdbServer. destruct kill as [u|]; [destruct (truthy u)|]; eexists; reflexivity. }
  assert (Hs : exists ts, startAdbServer start = (ts, Fulfilled tt)).
  { unfold startAdbServer. destruct start as [u|]; [destruct (truthy u)|]; eexists; reflexivity. }
  destruct Hk as [tk ->]. destruct Hs as [ts ->].
  match goal with |- context [try_finally ?c _] => destruct c as [t r] eqn:E end.
  exists t. split; [reflexivity|].
  assert (Hd : forall e, e = LoadScript src \/ e = AdbOpen \/ e = ConnectAdb
                         \/ e = AdbShell \/ e = Receive \/ e = AdbClose ->
                         (forall u, e <> Fetch u) /\ ~ direct_effect e).
  { intros e He. unfold direct_effect. split; [intros u|];
      intuition (subst; discriminate). }
  unfold loadCore in E. destruct b as [usb ch a l o ia c sh rc rp cl].
  cbn [has_Adb core_loads adb_opens isAdb connects shell_runs receives reply adb_closes] in *.
  set (serial := trim rp) in E.
  assert (Hall : forall P : effect -> Prop,
            (forall e, e = LoadScript src \/ e = AdbOpen \/ e = ConnectAdb
                       \/ e = AdbShell \/ e = Receive \/ e = AdbClose -> P e) ->
            Forall P t).
  { intros P HP.
    destruct a, l, o, ia, c, sh, rc, cl; cbn -[trim] in E;
      try destruct (truthy serial); injection E as <- _;
      each_effect ltac:(apply HP; auto 10). }
  split; [apply Hall; intros e He; apply (Hd e He)|].
  split; [apply Hall; intros e He; apply (Hd e He)|].
  destruct a, l, o, ia, c, sh, rc, cl; cbn -[trim] in E;
    try destruct (truthy serial); injection E as <- _; cbn;
    intuition (try discriminate; try congruence).
Qed.

Lemma server_request_ok url :
  (exists t, killAdbServer url = (t, Fulfilled tt))
  /\ (exists t, startAdbServer url = (t, Fulfilled tt)).
Proof.
  unfold killAdbServer, startAdbServer.
  destruct url as [u|]; [destruct (truthy u)|]; split; eexists; reflexivity.
Qed.

(** The fallback under the [catch] of [pickSerial]. *)
Lemma fallback_settles b src kill start :
  match snd (try_catch (tryAdbSerialViaWebUsbFallback b src kill start)
               (_ <~ emit Warn ;; ret [])) with
  | Fulfilled s => s = [] \/ trimmed s
  | Failed _ => False
  end.
Proof.
  unfold tryAdbSerialViaWebUsbFallback.
  destruct (server_request_ok kill) as [[tk ->] _].
  destruct (server_request_ok start) as [_ [ts ->]].
  unfold loadCore. destruct b as [usb ch a l o ia c sh rc rp cl].
  cbn [has_Adb core_loads adb_opens isAdb connects shell_runs receives reply adb_closes].
  set (serial := trim rp).
  destruct a, l, o, ia, c, sh, rc, cl; cbn -[trim];
    try (destruct (truthy serial) eqn:Et; cbn -[trim]);
    try (left; reflexivity);
    right; apply truthy_trim_trimmed; exact Et.
Qed.

(** The effects of [pickSerial]: the direct attempt alone, or the direct
    attempt, the fallback and at most one warning. *)
Lemma pickSerial_trace b kill start only src :
  exists d rest_,
    fst (pickSerial b kill start only src) = d ++ rest_
    /\ Forall direct_effect d
    /\ (In DeviceOpen d <-> In DeviceClose d)
    /\ (rest_ = []
        \/ exists w, rest_ = fst (tryAdbSerialViaWebUsbFallback b src kill start) ++ w
                     /\ (w = [] \/ w = [Warn])).
Proof.
  unfold pickSerial.
  destruct (tryWebUsbSerial_run b) as (Hd & Hoc & _).
  set (F := tryAdbSerialViaWebUsbFallback b src kill start).
  assert (HF : exists w, fst (try_catch F (_ <~ emit Warn ;; ret [])) = fst F ++ w
                         /\ (w = [] \/ w = [Warn])).
  { destruct F as [tf [s|msg]]; cbn.
    - exists []. rewrite app_nil_r. auto.
    - exists [Warn]. auto. }
  destruct (try_catch F _) as [tc rc]. cbn [fst] in HF.
  destruct (tryWebUsbSerial b) as [t [s|msg]]; cbn [fst snd] in *.
  - cbn [io_bind ret try_catch]. rewrite app_nil_r.
    destruct (truthy s).
    + exists t, []. cbn [io_bind ret fst]. rewrite !app_nil_r. auto.
    + cbn [io_bind]. destruct only.
      * exists t, []. cbn [throw fst]. auto.
      * exists t, tc. cbn [fst]. auto.
  - cbn [try_catch emit ret io_bind]. rewrite !app_nil_r.
    assert (Hd' : Forall direct_effect (t ++ [Warn])).
    { apply Forall_app. split; [exact Hd|].
      apply Forall_cons; [unfold direct_effect; auto | apply Forall_nil]. }
    assert (Hoc' : In DeviceOpen (t ++ [Warn]) <-> In DeviceClose (t ++ [Warn])).
    { split; intros H; apply in_app_or in H; apply in_or_app;
        (destruct H as [H|[H|[]]]; [left; apply Hoc; exact H | discriminate H]). }
    destruct only.
    + exists (t ++ [Warn]), []. cbn [throw fst]. rewrite !app_nil_r. auto.
    + exists (t ++ [Warn]), tc. cbn [fst]. auto.
Qed.

End Helper.

(** X19. How [pickSerial] settles, whatever the browser and the device do:
    a serial it returns has no white space at either end, and it returns
    the empty string only when [useWebUsbOnly] is off; it is rejected only
    when [useWebUsbOnly] is on; and with [useWebUsbOnly] on, it does
    nothing but the direct attempt (no request to the server, no
    script). *)
Theorem X19_pickSerial_settles (b : browser) (killServerUrl startServerUrl : option jsstring)
  (useWebUsbOnly : bool) (coreSrc : jsstring) :
  match snd (pickSerial b killServerUrl startServerUrl useWebUsbOnly coreSrc) with
  | Fulfilled s => (s = [] /\ useWebUsbOnly = false) \/ trimmed s
  | Failed _ => useWebUsbOnly = true
  end
  /\ (if useWebUsbOnly
      then Forall direct_effect
             (fst (pickSerial b killServerUrl startServerUrl useWebUsbOnly coreSrc))
      else True).
Proof.
  unfold pickSerial.
  destruct (tryWebUsbSerial_run b) as (Hd & _ & Hs).
  pose proof (fallback_settles b coreSrc killServerUrl startServerUrl) as Hf.
  destruct (try_catch (tryAdbSerialViaWebUsbFallback b coreSrc killServerUrl startServerUrl)
              (_ <~ emit Warn ;; ret [])) as [tf rf].
  cbn [snd] in Hf.
  destruct (tryWebUsbSerial b) as [t [s|msg]]; cbn [fst snd] in *.
  - cbn [io_bind ret try_catch]. rewrite app_nil_r.
    destruct (truthy s) eqn:Es.
    + cbn [io_bind ret fst snd]. rewrite app_nil_r. split.
      * right. destruct Hs as [->|Hs]; [discriminate Es | exact Hs].
      * destruct useWebUsbOnly; [exact Hd | exact I].
    + cbn [io_bind]. destruct useWebUsbOnly.
      * cbn [throw fst snd]. rewrite app_nil_r. split; [reflexivity | exact Hd].
      * cbn [snd]. split; [|exact I].
        destruct rf as [s'|]; [|destruct Hf].
        destruct Hf as [->|Hf]; [left; split; reflexivity | right; exact Hf].
  - cbn [try_catch emit ret io_bind]. destruct useWebUsbOnly.
    + cbn [throw fst snd]. split; [reflexivity|].
      rewrite !app_nil_r. apply Forall_app. split; [exact Hd|].
      apply Forall_cons; [unfold direct_effect; auto | apply Forall_nil].
    + cbn [snd]. split; [|exact I].
      destruct rf as [s'|]; [|destruct Hf].
      destruct Hf as [->|Hf]; [left; split; reflexivity | right; exact Hf].
Qed.

(** X20. The servers' requests: when both URLs are given, a run of
    [pickSerial] that asks the server to stop asks it to start again
    afterwards, whatever fails in between: the effects are those of the
    direct attempt, or those followed by the request to [killServerUrl],
    the work on the device (which holds no request), the request to
    [startServerUrl], and at most a warning. *)
Theorem X20_server_started_again (b : browser) (k s : jsstring) (only : bool)
  (src : jsstring) :
  k <> [] -> s <> [] ->
  Forall direct_effect (fst (pickSerial b (Some k) (Some s) only src))
  \/ exists before between after,
       fst (pickSerial b (Some k) (Some s) only src)
       = before ++ Fetch k :: between ++ Fetch s :: after
       /\ Forall direct_effect before
       /\ Forall (fun e => forall u, e <> Fetch u) between
       /\ (after = [] \/ after = [Warn]).
Proof.
  intros Hk Hs.
  destruct (pickSerial_trace b (Some k) (Some s) only src)
    as (d & r & -> & Hd & _ & [->|(w & -> & Hw)]).
  - left. rewrite app_nil_r. exact Hd.
  - right. destruct (fallback_run b src (Some k) (Some s)) as (body & -> & Hb & _).
    unfold killAdbServer, startAdbServer.
    rewrite (truthy_nonempty Hk), (truthy_nonempty Hs). cbn [emit fst].
    exists d, body, w. split; [|auto].
    cbn [app]. rewrite <- !app_assoc. reflexivity.
Qed.

Lemma X20_server_started_again_witness :
  let b := Browser false None false false true true true true true (js "R58M") true in
  Forall direct_effect
    (fst (pickSerial b (Some (js "/kill")) (Some (js "/start")) false (js "core.js")))
  \/ exists before between after,
       fst (pickSerial b (Some (js "/kill")) (Some (js "/start")) false (js "core.js"))
       = before ++ Fetch (js "/kill") :: between ++ Fetch (js "/start") :: after
       /\ Forall direct_effect before
       /\ Forall (fun e => forall u, e <> Fetch u) between
       /\ (after = [] \/ after = [Warn]).
Proof. intros b. apply X20_server_started_again; discriminate. Defined.

(** X21. What is opened and what is closed: in every run of [pickSerial]
    the USB device is closed if and only if it was opened (also when
    [open] is rejected), while the ADB transport of the fallback is closed
    only in a run where it was opened and the interface is ADB, the
    connection, the shell command and the reading succeed: when one of
    these fails after the transport was opened, [close] is not called. *)
Theorem X21_open_and_close (b : browser) (kill start : option jsstring) (only : bool)
  (src : jsstring) :
  (In DeviceOpen (fst (pickSerial b kill start only src))
   <-> In DeviceClose (fst (pickSerial b kill start only src)))
  /\ (In AdbClose (fst (pickSerial b kill start only src))
      <-> In AdbOpen (fst (pickSerial b kill start only src))
          /\ adb_opens b && isAdb b && connects b && shell_runs b && receives b = true).
Proof.
  destruct (pickSerial_trace b kill start only src)
    as (d & r & -> & Hd & Hoc & Hr).
  assert (Hnd : forall e, ~ direct_effect e -> ~ In e d).
  { intros e He Hin. rewrite Forall_forall in Hd. exact (He (Hd e Hin)). }
  assert (Hdir : forall e, direct_effect e -> e <> Warn -> In e r -> False).
  { intros e He Hw Hin. destruct Hr as [->|(w & -> & Hw')]; [exact Hin|].
    destruct (fallback_run b src kill start) as (body & E & Hf & Hb & _).
    rewrite E in Hin.
    assert (Hserver : forall url, In e (fst (killAdbServer url)) -> False).
    { intros url. unfold killAdbServer.
      destruct url as [u|]; [destruct (truthy u)|]; cbn; try tauto.
      intros [<-|[]]. unfold direct_effect in He. intuition discriminate. }
    repeat (apply in_app_or in Hin; destruct Hin as [Hin|Hin]).
    - exact (Hserver _ Hin).
    - rewrite Forall_forall in Hb. exact (Hb e Hin He).
    - exact (Hserver _ Hin).
    - destruct Hw' as [->| ->]; [exact Hin|]. destruct Hin as [<-|[]]. apply Hw. reflexivity. }
  split.
  - split; intros H; apply in_app_or in H; apply in_or_app; destruct H as [H|H].
    + left. apply Hoc. exact H.
    + exfalso. apply (Hdir DeviceOpen); [unfold direct_effect; auto | discriminate | exact H].
    + left. apply Hoc. exact H.
    + exfalso. apply (Hdir DeviceClose); [unfold direct_effect; auto | discriminate | exact H].
  - assert (Hin_r : forall e, ~ direct_effect e -> (forall u, e <> Fetch u) ->
              (In e (d ++ r) <->
               exists body,
                 fst (tryAdbSerialViaWebUsbFallback b src kill start)
                 = fst (killAdbServer kill) ++ body ++ fst (startAdbServer start)
                 /\ r <> [] /\ In e body)).
    { intros e He Hu. split.
      - intros H. apply in_app_or in H. destruct H as [H|H]; [exfalso; exact (Hnd e He H)|].
        destruct Hr as [->|(w & -> & Hw)]; [destruct H|].
        destruct (fallback_run b src kill start) as (body & E & _).
        exists body. split; [exact E|]. split.
        { intros E0. rewrite E0 in H. exact H. }
        rewrite E in H.
        assert (Hserver : forall url, In e (fst (killAdbServer url)) -> False).
        { intros url. unfold killAdbServer.
          destruct url as [u|]; [destruct (truthy u)|]; cbn; try tauto.
          intros [<-|[]]. exact (Hu u eq_refl). }
        repeat (apply in_app_or in H; destruct H as [H|H]).
        + exfalso. exact (Hserver _ H).
        + exact H.
        + exfalso. exact (Hserver _ H).
        + exfalso. destruct Hw as [->| ->]; [exact H|]. destruct H as [<-|[]].
          apply He. unfold direct_effect. auto.
      - intros (body & E & Hne & H). apply in_or_app. right.
        destruct Hr as [->|(w & -> & Hw)]; [congruence|].
        rewrite E. apply in_or_app. left. apply in_or_app. right.
        apply in_or_app. left. exact H. }
    assert (Hc : ~ direct_effect AdbClose) by (unfold direct_effect; intuition discriminate).
    assert (Ho : ~ direct_effect AdbOpen) by (unfold direct_effect; intuition discriminate).
    destruct (fallback_run b src kill start) as (body & E & _ & _ & Hbody).
    split.
    + intros H. apply Hin_r in H; [|exact Hc | discriminate].
      destruct H as (body' & E' & Hne & H).
      assert (body' = body).
      { rewrite E in E'. apply app_inv_head in E'. apply app_inv_tail in E'. congruence. }
      subst body'. apply Hbody in H. destruct H as [H Hok]. split; [|exact Hok].
      apply Hin_r; [exact Ho | discriminate|]. exists body. auto.
    + intros [H Hok]. apply Hin_r in H; [|exact Ho | discriminate].
      destruct H as (body' & E' & Hne & H).
      assert (body' = body).
      { rewrite E in E'. apply app_inv_head in E'. apply app_inv_tail in E'. congruence. }
      subst body'. apply Hin_r; [exact Hc | discriminate|].
      exists body. split; [exact E|]. split; [exact Hne|]. apply Hbody. auto.
Qed.
